(** * Paragraphs.cpp: the CONTROL-file scanner of vcpkg

    A shallow embedding of [toolsrc/src/Paragraphs.cpp] and the properties
    of its paragraph parser.

    Conventions of the embedding.
    - [std::string] and the scanned buffer are [list ascii]; a [char] is an
      [ascii] and [NUL] is the character the scanner also uses as its
      end-of-input sentinel.
    - A [const char*] into the scanned buffer is the list of the characters
      from that position up to [end]; [end] itself is [[]], [++cur] is the
      tail, and the half-open range [[b, c)] is cut out by [range].
    - [Checks::check_exit] ends the process; a run that dies there has the
      outcome [Exit] with the failed check.
    - [while] and [do ... while] are iterated by [loop], which counts its
      iterations down from a bound; [Timeout] is the outcome of a run that
      needs more iterations than the bound.  [parse_paragraphs] is run with
      a bound the theorems below show to be enough for every input. *)

From Stdlib Require Import Ascii String List Arith Lia.
From stdpp Require Import base option list gmap strings.

Set Default Proof Using "Type".

(** * Part I: the program, and the notions to speak about it *)

(** ** Outcomes and loops *)

Inductive check_failure : Set :=
| Expected_colon    (* check_exit(..., ch == ':', "Expected ':'") *)
| Duplicate_field.  (* check_exit(..., it == fields.end(), "Duplicate field") *)

Inductive result (A : Type) : Type :=
| Ok (a : A)
| Exit (e : check_failure)
| Timeout.
Arguments Ok {A} a.
Arguments Exit {A} e.
Arguments Timeout {A}.

Global Instance result_ret : MRet result := λ A a, Ok a.
Global Instance result_bind : MBind result := λ A B f m,
  match m with
  | Ok a => f a
  | Exit e => Exit e
  | Timeout => Timeout
  end.

(** What one turn of a loop body decides: go round [Again], or leave the
    loop (falling out of it or by [return]). *)
Inductive turn (S R : Type) : Type :=
| Again (s : S)
| Leave (r : R).
Arguments Again {S R} s.
Arguments Leave {S R} r.

Fixpoint loop {S R : Type} (fuel : nat) (body : S → result (turn S R)) (s : S)
  : result R :=
  match fuel with
  | O => Timeout
  | S fuel' =>
      match body s with
      | Ok (Again s') => loop fuel' body s'
      | Ok (Leave r) => Ok r
      | Exit e => Exit e
      | Timeout => Timeout
      end
  end.

(** [while (cond) body] *)
Definition while {S : Type} (fuel : nat) (cond : S → bool) (body : S → result S)
  : S → result S :=
  loop fuel (λ s, if cond s then s' ← body s; mret (Again s') else mret (Leave s)).

(** [do body while (cond)] *)
Definition do_while {S : Type} (fuel : nat) (body : S → result S) (cond : S → bool)
  : S → result S :=
  loop fuel (λ s, s' ← body s; mret (if cond s' then Again s' else Leave s')).

(** A loop on one state space seen through another. *)
Definition turn_map {S1 R1 S2 R2 : Type} (φ : S2 → S1) (ψ : R2 → R1)
    (t : turn S2 R2) : turn S1 R1 :=
  match t with
  | Again s => Again (φ s)
  | Leave r => Leave (ψ r)
  end.

(** ** Characters *)

Definition NUL : ascii := "000"%char.
Definition HT : ascii := "009"%char.
Definition LF : ascii := "010"%char.
Definition CR : ascii := "013"%char.
Definition SP : ascii := " "%char.

(** [c >= lo && c <= hi].  Whether [char] is signed or not, a byte above
    127 lies outside every range the scanner tests. *)
Definition between (lo hi c : ascii) : bool :=
  (lo <=? c)%char && (c <=? hi)%char.

(** ** The containers *)

(** [std::unordered_map<std::string, std::string>], kept as the list of its
    entries in the order they were emplaced. *)
Definition fields_t : Type := list (list ascii * list ascii).

Fixpoint find (fields : fields_t) (key : list ascii) : option (list ascii) :=
  match fields with
  | [] => None
  | (k, v) :: fields' => if decide (k = key) then Some v else find fields' key
  end.

(** [emplace] leaves the map alone when the key is present. *)
Definition emplace (fields : fields_t) (key value : list ascii) : fields_t :=
  match find fields key with
  | Some _ => fields
  | None => fields ++ [(key, value)]
  end.

(** ** struct Parser *)

Module Parser.

Record t : Type := mk { cur : list ascii }.

(** [std::string(b, c)] for [b] not after [c]. *)
Definition range (b c : list ascii) : list ascii :=
  take (length b - length c) b.

Definition peek (p : t) : ascii :=
  match cur p with
  | [] => NUL
  | c :: _ => c
  end.

Definition next (p : t) : t * ascii :=
  match cur p with
  | [] => (p, NUL)
  | _ :: rest => let p' := mk rest in (p', peek p')
  end.

Definition is_space (ch : ascii) : bool :=
  Ascii.eqb ch SP || Ascii.eqb ch HT.

Definition skip_spaces (fuel : nat) : t * ascii → result (t * ascii) :=
  while fuel (λ '(p, ch), is_space ch) (λ '(p, ch), mret (next p)).

Definition is_alphanum (ch : ascii) : bool :=
  between "A" "Z" ch || between "a" "z" ch || between "0" "9" ch.

Definition is_lineend (ch : ascii) : bool :=
  Ascii.eqb ch CR || Ascii.eqb ch LF || Ascii.eqb ch NUL.

(** One turn of the [do ... while (true)] of [get_fieldvalue]; the state is
    the parser, [ch], [beginning_of_line] and [fieldvalue]. *)
Definition get_fieldvalue_turn (fuel : nat)
    (s : t * ascii * list ascii * list ascii)
  : result (turn (t * ascii * list ascii * list ascii) (t * ascii * list ascii)) :=
  let '(p, ch, beginning_of_line, fieldvalue) := s in
  '(p, ch) ← while fuel (λ '(p, ch), negb (is_lineend ch))
                        (λ '(p, ch), mret (next p)) (p, ch);
  let fieldvalue := fieldvalue ++ range beginning_of_line (cur p) in
  let '(p, ch) := if Ascii.eqb ch CR then next p else (p, ch) in
  let '(p, ch) := if Ascii.eqb ch LF then next p else (p, ch) in
  if is_alphanum ch then mret (Leave (p, ch, fieldvalue))
  else
    let beginning_of_line := cur p in
    '(p, ch) ← skip_spaces fuel (p, ch);
    if is_lineend ch then mret (Leave (p, ch, fieldvalue))
    else mret (Again (p, ch, beginning_of_line, fieldvalue ++ [LF])).

(** [fieldvalue] is cleared and [beginning_of_line] is the cursor when the
    loop begins. *)
Definition get_fieldvalue (fuel : nat) (s : t * ascii)
  : result (t * ascii * list ascii) :=
  let '(p, ch) := s in
  loop fuel (get_fieldvalue_turn fuel) (p, ch, cur p, []).

Definition get_fieldname (fuel : nat) (s : t * ascii)
  : result (t * ascii * list ascii) :=
  let '(p, ch) := s in
  let begin_fieldname := cur p in
  '(p, ch) ← while fuel (λ '(p, ch), is_alphanum ch || Ascii.eqb ch "-")
                        (λ '(p, ch), mret (next p)) (p, ch);
  if Ascii.eqb ch ":" then
    let fieldname := range begin_fieldname (cur p) in
    '(p, ch) ← skip_spaces fuel (next p);
    mret (p, ch, fieldname)
  else Exit Expected_colon.

(** The body of the [do ... while (!is_lineend(ch))] of [get_paragraph]. *)
Definition get_paragraph_body (fuel : nat) (s : t * ascii * fields_t)
  : result (t * ascii * fields_t) :=
  let '(p, ch, fields) := s in
  '(p, ch, fieldname) ← get_fieldname fuel (p, ch);
  match find fields fieldname with
  | Some _ => Exit Duplicate_field
  | None =>
      '(p, ch, fieldvalue) ← get_fieldvalue fuel (p, ch);
      mret (p, ch, emplace fields fieldname fieldvalue)
  end.

(** [fields] is cleared when the loop begins. *)
Definition get_paragraph (fuel : nat) (s : t * ascii)
  : result (t * ascii * fields_t) :=
  let '(p, ch) := s in
  do_while fuel (get_paragraph_body fuel)
    (λ '(p, ch, fields), negb (is_lineend ch)) (p, ch, []).

(** The test [ch == '\n' || ch == '\r' || ch == ' ' || ch == '\t'] of
    [get_paragraphs]. *)
Definition is_blank (ch : ascii) : bool :=
  Ascii.eqb ch LF || Ascii.eqb ch CR || Ascii.eqb ch SP || Ascii.eqb ch HT.

(** The body of the [while (ch != 0)] of [get_paragraphs]; [continue] and
    the fall through both end the turn. *)
Definition get_paragraphs_body (fuel : nat) (s : t * ascii * list fields_t)
  : result (t * ascii * list fields_t) :=
  let '(p, ch, paragraphs) := s in
  if is_blank ch then
    let '(p, ch) := next p in mret (p, ch, paragraphs)
  else
    '(p, ch, fields) ← get_paragraph fuel (p, ch);
    mret (p, ch, paragraphs ++ [fields]).

Definition get_paragraphs (fuel : nat) (p : t) : result (list fields_t) :=
  let paragraphs := [] in
  let ch := peek p in
  '(_, _, paragraphs) ← while fuel (λ '(p, ch, paragraphs), negb (Ascii.eqb ch NUL))
                                   (get_paragraphs_body fuel) (p, ch, paragraphs);
  mret paragraphs.

End Parser.

(** ** The entry points *)

(** [std::error_code]: the parser's own code, or whatever the file reader
    reported. *)
Inductive paragraph_parse_result : Set := EXPECTED_ONE_PARAGRAPH.

Inductive error_code : Set :=
| parse_error (r : paragraph_parse_result)
| io_error (errno : Z).

Inductive expected (A : Type) : Type :=
| value (a : A)
| error (ec : error_code).
Arguments value {A} a.
Arguments error {A} ec.

(** [Parser(str.c_str(), str.c_str() + str.size()).get_paragraphs()].  No
    loop of the scanner takes a turn without moving the cursor, so one more
    turn than the buffer has characters is a bound for each of them. *)
Definition run_parser (str : list ascii) : result (list fields_t) :=
  Parser.get_paragraphs (S (length str)) (Parser.mk str).

Definition parse_paragraphs (str : list ascii) : result (expected (list fields_t)) :=
  p ← run_parser str; mret (value p).

(** [p.size() == 1], and then [p.at(0)] is the one paragraph. *)
Definition parse_single_paragraph (str : list ascii) : result (expected fields_t) :=
  p ← run_parser str;
  match p with
  | [p0] => mret (value p0)
  | _ => mret (error (parse_error EXPECTED_ONE_PARAGRAPH))
  end.

(** [Files::read_contents] is the caller's: its answer is the argument. *)
Definition get_single_paragraph (contents : expected (list ascii))
  : result (expected fields_t) :=
  match contents with
  | value spgh => parse_single_paragraph spgh
  | error ec => mret (error ec)
  end.

Definition get_paragraphs (contents : expected (list ascii))
  : result (expected (list fields_t)) :=
  match contents with
  | value spgh => parse_paragraphs spgh
  | error ec => mret (error ec)
  end.

(** ** Reading the remaining input

    The functions below describe what the scanner does as functions of the
    characters that remain; the lemmas of the second part show that the
    scanner computes them. *)

(** The longest prefix of [l] whose characters satisfy [f], and what is
    left behind it. *)
Fixpoint leading (f : ascii → bool) (l : list ascii) : list ascii :=
  match l with
  | c :: l' => if f c then c :: leading f l' else []
  | [] => []
  end.

Fixpoint behind (f : ascii → bool) (l : list ascii) : list ascii :=
  match l with
  | c :: l' => if f c then behind f l' else l
  | [] => []
  end.

(** [l] without its first character when that is [c]. *)
Definition eat (c : ascii) (l : list ascii) : list ascii :=
  match l with
  | c' :: l' => if Ascii.eqb c' c then l' else l
  | [] => []
  end.

(** The scanner with [l] left to read: [ch] is always the character under
    the cursor. *)
Definition at_ (l : list ascii) : Parser.t * ascii :=
  (Parser.mk l, Parser.peek (Parser.mk l)).

(** The scanner at the head of what a reader leaves, with the reader's
    result. *)
Definition at_with {A : Type} (r : list ascii * A) : Parser.t * ascii * A :=
  (at_ r.1, r.2).

(** The state of the value loop: [beginning_of_line] is [pre] before the
    cursor. *)
Definition at_value (s : list ascii * list ascii * list ascii)
  : Parser.t * ascii * list ascii * list ascii :=
  (at_ s.1.1, s.1.2 ++ s.1.1, s.2).

Definition in_line (ch : ascii) : bool := negb (Parser.is_lineend ch).

Definition is_namechar (ch : ascii) : bool :=
  Parser.is_alphanum ch || Ascii.eqb ch "-".

(** One turn of the value loop: the characters left, the ones between
    [beginning_of_line] and the cursor, and the value so far. *)
Definition value_turn (s : list ascii * list ascii * list ascii)
  : turn (list ascii * list ascii * list ascii) (list ascii * list ascii) :=
  let '(l, pre, val) := s in
  let val := val ++ pre ++ leading in_line l in
  let l := eat LF (eat CR (behind in_line l)) in
  if Parser.is_alphanum (hd NUL l) then Leave (l, val)
  else
    let l' := behind Parser.is_space l in
    if Parser.is_lineend (hd NUL l') then Leave (l', val)
    else Again (l', leading Parser.is_space l, val ++ [LF]).

Definition read_value (fuel : nat) (l : list ascii) : result (list ascii * list ascii) :=
  loop fuel (λ s, Ok (value_turn s)) (l, [], []).

Definition read_name (l : list ascii) : result (list ascii * list ascii) :=
  match behind is_namechar l with
  | c :: l' =>
      if Ascii.eqb c ":" then Ok (behind Parser.is_space l', leading is_namechar l)
      else Exit Expected_colon
  | [] => Exit Expected_colon
  end.

Definition fields_turn (fuel : nat) (s : list ascii * fields_t)
  : result (turn (list ascii * fields_t) (list ascii * fields_t)) :=
  let '(l, fields) := s in
  '(l, name) ← read_name l;
  match find fields name with
  | Some _ => Exit Duplicate_field
  | None =>
      '(l, val) ← read_value fuel l;
      let s' := (l, emplace fields name val) in
      Ok (if in_line (hd NUL l) then Again s' else Leave s')
  end.

Definition read_fields (fuel : nat) (l : list ascii) : result (list ascii * fields_t) :=
  loop fuel (fields_turn fuel) (l, []).

Definition doc_turn (fuel : nat) (s : list ascii * list fields_t)
  : result (turn (list ascii * list fields_t) (list ascii * list fields_t)) :=
  let '(l, doc) := s in
  match l with
  | [] => Ok (Leave s)
  | c :: l' =>
      if Ascii.eqb c NUL then Ok (Leave s)
      else if Parser.is_blank c then Ok (Again (l', doc))
      else '(l, fields) ← read_fields fuel l; Ok (Again (l, doc ++ [fields]))
  end.

Definition read_doc (fuel : nat) (l : list ascii) : result (list ascii * list fields_t) :=
  loop fuel (doc_turn fuel) (l, []).

(** ** Physical lines and the values made of them *)

(** A physical line, without its terminator. *)
Definition is_line (l : list ascii) : Prop := Forall (λ c, in_line c = true) l.

(** A line that continues a value: it does not begin a field, and it is
    not blank. *)
Definition is_continuation (l : list ascii) : Prop :=
  is_line l ∧ Parser.is_alphanum (hd NUL l) = false
  ∧ in_line (hd NUL (behind Parser.is_space l)) = true.

(** The first line and the lines that continue it, joined by ['\n']. *)
Definition join_lines (first : list ascii) (more : list (list ascii)) : list ascii :=
  first ++ concat (map (cons LF) more).

(** ** Invariants of the loops *)

(** The value loop started with [l0] left to read: before the first turn
    nothing is read; before a later one the value ends with the ['\n']
    just pushed and the cursor has passed the blanks [pre] of a line that
    continues the value. *)
Definition value_inv (l0 : list ascii) (s : list ascii * list ascii * list ascii)
  : Prop :=
  let '(l, pre, val) := s in
  l `suffix_of` l0 ∧
  ((val = [] ∧ pre = [] ∧ l = l0)
   ∨ ∃ more, val = join_lines (leading in_line l0) more ++ [LF]
       ∧ Forall is_continuation more
       ∧ Forall (λ c, Parser.is_space c = true) pre
       ∧ in_line (hd NUL l) = true
       ∧ Parser.is_space (hd NUL l) = false
       ∧ Parser.is_alphanum (hd NUL (pre ++ l)) = false).

(** What the value loop returns: the cursor is at the first character of a
    field or at the end of a blank line, and the value is the line that was
    under the cursor and the lines that continue it. *)
Definition value_post (l0 : list ascii) (r : list ascii * list ascii) : Prop :=
  let '(l', v) := r in
  l' `suffix_of` l0
  ∧ (Parser.is_alphanum (hd NUL l') = true ∨ Parser.is_lineend (hd NUL l') = true)
  ∧ ∃ more, v = join_lines (leading in_line l0) more ∧ Forall is_continuation more.

(** A field name read from the input [s]: made of name characters, and in
    [s] with the colon behind it. *)
Definition name_ok (s name : list ascii) : Prop :=
  Forall (λ c, is_namechar c = true) name
  ∧ ∃ before after, s = before ++ name ++ ":"%char :: after.

(** A stored value: a first line that does not begin with a blank, and the
    lines that continue it. *)
Definition value_ok (v : list ascii) : Prop :=
  ∃ first more, v = join_lines first more ∧ is_line first
    ∧ Parser.is_space (hd NUL first) = false ∧ Forall is_continuation more.

(** A paragraph read from [s]: every entry is a name with its value, no
    name is there twice, and every name but the first begins with a letter
    or a digit. *)
Definition fields_ok (s : list ascii) (fields : fields_t) : Prop :=
  Forall (λ e, name_ok s e.1 ∧ value_ok e.2) fields
  ∧ NoDup fields.*1
  ∧ Forall (λ e, Parser.is_alphanum (hd NUL e.1) = true) (tail fields).

Definition fields_inv (s l0 : list ascii) (st : list ascii * fields_t) : Prop :=
  let '(l, fields) := st in
  l `suffix_of` s ∧ fields_ok s fields
  ∧ ((fields = [] ∧ l = l0)
     ∨ (fields ≠ [] ∧ length l < length l0 ∧ Parser.is_alphanum (hd NUL l) = true)).

Definition fields_post (s l0 : list ascii) (r : list ascii * fields_t) : Prop :=
  let '(l', fields) := r in
  l' `suffix_of` s ∧ length l' < length l0 ∧ fields_ok s fields ∧ fields ≠ []
  ∧ Parser.is_lineend (hd NUL l') = true.

Definition doc_ok (s : list ascii) (doc : list fields_t) : Prop :=
  Forall (λ fields, fields_ok s fields ∧ fields ≠ []) doc.

Definition doc_inv (s : list ascii) (st : list ascii * list fields_t) : Prop :=
  let '(l, doc) := st in l `suffix_of` s ∧ doc_ok s doc.

(** ** Ports *)

(** [SourceParagraph], with the two members [extract_port_names_and_versions]
    reads; [version_t] is declared outside this file. *)
Module SourceParagraph.
Record t (version_t : Type) : Type := mk { name : list ascii; version : version_t }.
Arguments mk {version_t} name version.
Arguments name {version_t} _.
Arguments version {version_t} _.
End SourceParagraph.

Section ports.
Context {version_t : Type}.

(** [std::map::emplace]: a key that is present keeps its value. *)
Definition map_emplace (m : gmap (list ascii) version_t) (k : list ascii)
    (v : version_t) : gmap (list ascii) version_t :=
  match m !! k with
  | Some _ => m
  | None => <[k := v]> m
  end.

Definition extract_port_names_and_versions
    (source_paragraphs : list (SourceParagraph.t version_t))
  : gmap (list ascii) version_t :=
  foldl (λ names_and_versions port,
           map_emplace names_and_versions
             (SourceParagraph.name port) (SourceParagraph.version port))
        ∅ source_paragraphs.

(** The version of the first port of the sequence that bears the name. *)
Fixpoint first_version (n : list ascii) (ports : list (SourceParagraph.t version_t))
  : option version_t :=
  match ports with
  | [] => None
  | port :: ports' =>
      if decide (SourceParagraph.name port = n) then Some (SourceParagraph.version port)
      else first_version n ports'
  end.
End ports.

(** ** The text of a document

    A document as its author lays it out: paragraphs of fields, every line
    with its terminator, and blank text between the paragraphs. *)

(** How a line ends: with a terminator, or with the input. *)
Inductive eol : Set := Lf | CrLf | Cr | Eof.

Definition eol_text (e : eol) : list ascii :=
  match e with
  | Lf => [LF]
  | CrLf => [CR; LF]
  | Cr => [CR]
  | Eof => []
  end.

(** What may stand behind the end of a line: no ['\n'] behind a lone
    ['\r'], which would make one terminator with it, and nothing behind
    the end of the input. *)
Definition eol_before (e : eol) (next : list ascii) : Prop :=
  match e with
  | Cr => hd NUL next ≠ LF
  | Eof => next = []
  | _ => True
  end.

(** A field: its name, the blanks behind the colon, the rest of the first
    line, and the lines that continue the value, each behind the terminator
    of the line before it. *)
Record field_src : Type := mk_field {
  fs_name : list ascii;
  fs_pad : list ascii;
  fs_first : list ascii;
  fs_more : list (eol * list ascii)
}.

Definition lines_text (more : list (eol * list ascii)) : list ascii :=
  concat (map (λ ec, eol_text ec.1 ++ ec.2) more).

Definition field_text (f : field_src) : list ascii :=
  fs_name f ++ ":"%char :: fs_pad f ++ fs_first f ++ lines_text (fs_more f).

Definition field_entry (f : field_src) : list ascii * list ascii :=
  (fs_name f, join_lines (fs_first f) (map snd (fs_more f))).

Definition field_wf (f : field_src) : Prop :=
  Forall (λ c, is_namechar c = true) (fs_name f)
  ∧ Forall (λ c, Parser.is_space c = true) (fs_pad f)
  ∧ is_line (fs_first f)
  ∧ Parser.is_space (hd NUL (fs_first f)) = false
  ∧ Forall (λ ec, ec.1 ≠ Eof ∧ is_continuation ec.2) (fs_more f).

(** A paragraph: its fields, each with the end of its last line. *)
Definition par_src : Type := list (field_src * eol).

Definition par_text (p : par_src) : list ascii :=
  concat (map (λ fe, field_text fe.1 ++ eol_text fe.2) p).

Definition par_entries (p : par_src) : fields_t :=
  map (λ fe, field_entry fe.1) p.

Definition par_names (p : par_src) : list (list ascii) :=
  map (λ fe, fs_name fe.1) p.

(** A line behind a field begins a field, and does not continue the value,
    if it begins with a letter or a digit. *)
Definition begins_field (f : field_src) : Prop :=
  Parser.is_alphanum (hd NUL (fs_name f)) = true.

(** Fields that stand one behind the other in a paragraph: every one but
    the first begins with a letter or a digit. *)
Definition fields_wf (p : par_src) : Prop :=
  Forall (λ fe, field_wf fe.1) p ∧ Forall (λ fe, begins_field fe.1) (tail p).

Definition par_wf (p : par_src) : Prop :=
  p ≠ [] ∧ fields_wf p ∧ NoDup (par_names p).

(** A document: every paragraph with the blank text behind it. *)
Definition doc_src : Type := list (par_src * list ascii).

Fixpoint doc_text (d : doc_src) : list ascii :=
  match d with
  | [] => []
  | (p, gap) :: d' => par_text p ++ gap ++ doc_text d'
  end.

Definition doc_entries (d : doc_src) : list fields_t :=
  map (λ pg, par_entries pg.1) d.

(** The end of every field of [p] in front of [next] goes with what stands
    behind it. *)
Fixpoint par_eols_ok (next : list ascii) (p : par_src) : Prop :=
  match p with
  | [] => True
  | (f, e) :: p' => eol_before e (par_text p' ++ next) ∧ par_eols_ok next p'
  end.

(** [d] is well formed in front of [rest]: the text behind a paragraph is
    blank, and it has a line break in it unless the input ends with it. *)
Fixpoint doc_wf (rest : list ascii) (d : doc_src) : Prop :=
  match d with
  | [] => True
  | (p, gap) :: d' =>
      par_wf p
      ∧ par_eols_ok (gap ++ doc_text d' ++ rest) p
      ∧ Forall (λ c, Parser.is_blank c = true) gap
      ∧ (behind Parser.is_space gap = [] → doc_text d' ++ rest = [])
      ∧ doc_wf rest d'
  end.

(** Where the value loop stops when the cursor is at the end of a line:
    behind the terminator if a field begins there, behind the blanks of a
    blank line otherwise. *)
Definition value_end (rest : list ascii) : option (list ascii) :=
  let l := eat LF (eat CR rest) in
  if Parser.is_alphanum (hd NUL l) then Some l
  else
    let l' := behind Parser.is_space l in
    if Parser.is_lineend (hd NUL l') then Some l' else None.

(** What may stand where the parser looks for a field name: anything but
    a blank and NUL where a paragraph begins, a letter or a digit behind a
    field. *)
Definition field_start (p : par_src) (l : list ascii) : Prop :=
  match p with
  | [] => Parser.is_blank (hd NUL l) = false ∧ hd NUL l ≠ NUL
  | _ :: _ => Parser.is_alphanum (hd NUL l) = true
  end.

(** ** Line terminators *)

(** The text [l] with ["\r\n"] for some of its ['\n']: for the ones that
    [which] picks by the number of characters behind them. *)
Fixpoint with_cr (which : nat → bool) (l : list ascii) : list ascii :=
  match l with
  | [] => []
  | c :: l' =>
      if Ascii.eqb c LF && which (length l') then CR :: LF :: with_cr which l'
      else c :: with_cr which l'
  end.

(** The text with ["\r\n"] for every ['\n']. *)
Definition crlf (l : list ascii) : list ascii := with_cr (λ _, true) l.

(** A string literal as a [std::string]. *)
Definition str (s : string) : list ascii := list_ascii_of_string s.


(** ** Loading ports and packages

    [try_load_port], [try_load_cached_package] and [load_all_ports] read
    CONTROL files and hand the one paragraph of each to a constructor.  What
    they call outside this file is a parameter of the section: the reader of
    a file, the paths, the iteration over a directory and the constructors
    of [SourceParagraph] and [BinaryParagraph]. *)

(** The check whose failure ends the process: one of the scanner, or one of
    a constructor. *)
Inductive exit_cause (F : Type) : Type :=
| parser_check (e : check_failure)
| constructor_check (f : F).
Arguments parser_check {F} e.
Arguments constructor_check {F} f.

Inductive outcome (F A : Type) : Type :=
| Returned (a : A)
| Exited (x : exit_cause F)
| Unfinished.
Arguments Returned {F A} a.
Arguments Exited {F A} x.
Arguments Unfinished {F A}.

Global Instance outcome_ret {F} : MRet (outcome F) := λ A a, Returned a.
Global Instance outcome_bind {F} : MBind (outcome F) := λ A B f m,
  match m with
  | Returned a => f a
  | Exited x => Exited x
  | Unfinished => Unfinished
  end.

(** A run of the scanner inside a loader. *)
Definition of_result {F A : Type} (r : result A) : outcome F A :=
  match r with
  | Ok a => Returned a
  | Exit e => Exited (parser_check e)
  | Timeout => Unfinished
  end.

(** A constructor builds its object or fails one of its checks. *)
Definition construct {F A : Type} (r : F + A) : outcome F A :=
  match r with
  | inr a => Returned a
  | inl f => Exited (constructor_check f)
  end.

(** [for (x : xs) body], with the state the body updates. *)
Fixpoint for_each {F S X : Type} (body : S → X → outcome F S) (s : S) (xs : list X)
  : outcome F S :=
  match xs with
  | [] => mret s
  | x :: xs' => s' ← body s x; for_each body s' xs'
  end.

(** What [try_load_port] and [try_load_cached_package] do with the text
    of a CONTROL file, or with the error of its reader: the one paragraph
    of the text goes to the constructor. *)
Definition load_with {F A : Type} (ctor : fields_t → F + A)
    (control : expected (list ascii)) : outcome F (expected A) :=
  pghs ← of_result (get_single_paragraph control);
  match pghs with
  | value p => a ← construct (ctor p); mret (value a)
  | error ec => mret (error ec)
  end.

Section loading.
Context {path vcpkg_paths package_spec F version_t BinaryParagraph : Type}.

(** [Files::read_contents] *)
Context (read_contents : path → expected (list ascii)).
(** [operator/] of [fs::path] *)
Context (slash : path → list ascii → path).
(** The paths of the entries that [fs::directory_iterator] goes through, in
    the order it yields them. *)
Context (directory_iterator : path → list path).
(** [vcpkg_paths::package_dir] *)
Context (package_dir : vcpkg_paths → package_spec → path).
(** The constructors from a paragraph. *)
Context (SourceParagraph_of : fields_t → F + SourceParagraph.t version_t).
Context (BinaryParagraph_of : fields_t → F + BinaryParagraph).

Definition try_load_port (path : path)
  : outcome F (expected (SourceParagraph.t version_t)) :=
  pghs ← of_result (get_single_paragraph (read_contents (slash path (str "CONTROL"))));
  match pghs with
  | value p => sp ← construct (SourceParagraph_of p); mret (value sp)
  | error ec => mret (error ec)
  end.

Definition try_load_cached_package (paths : vcpkg_paths) (spec : package_spec)
  : outcome F (expected BinaryParagraph) :=
  pghs ← of_result (get_single_paragraph
                      (read_contents (slash (package_dir paths spec) (str "CONTROL"))));
  match pghs with
  | value p => bp ← construct (BinaryParagraph_of p); mret (value bp)
  | error ec => mret (error ec)
  end.

(** The body of the [for] of [load_all_ports]: [output] and the path of the
    entry under the iterator. *)
Definition load_all_ports_body (output : list (SourceParagraph.t version_t))
    (path : path) : outcome F (list (SourceParagraph.t version_t)) :=
  source_paragraph ← try_load_port path;
  match source_paragraph with
  | value srcpgh => mret (output ++ [srcpgh])
  | error _ => mret output
  end.

Definition load_all_ports (ports_dir : path)
  : outcome F (list (SourceParagraph.t version_t)) :=
  for_each load_all_ports_body [] (directory_iterator ports_dir).

(** The port that [try_load_port] returns for an entry, if it returns
    one. *)
Definition port_of (path : path) : option (SourceParagraph.t version_t) :=
  match try_load_port path with
  | Returned (value sp) => Some sp
  | _ => None
  end.

(** [try_load_port] returns, with a port or with an error code, for every
    entry of [l]: no check fails. *)
Definition returns (l : list path) : Prop :=
  ∀ dir, dir ∈ l → ∃ r, try_load_port dir = Returned r.

End loading.

(** ** Two runs side by side *)

(** The same outcome, with results that [R] relates. *)
Definition result_rel {A B : Type} (R : A → B → Prop) (r1 : result A) (r2 : result B)
  : Prop :=
  match r1, r2 with
  | Ok a, Ok b => R a b
  | Exit e1, Exit e2 => e1 = e2
  | Timeout, Timeout => True
  | _, _ => False
  end.

Definition turn_rel {S1 R1 S2 R2 : Type} (RS : S1 → S2 → Prop) (RR : R1 → R2 → Prop)
    (t1 : turn S1 R1) (t2 : turn S2 R2) : Prop :=
  match t1, t2 with
  | Again s1, Again s2 => RS s1 s2
  | Leave r1, Leave r2 => RR r1 r2
  | _, _ => False
  end.

(** ** Text behind a text

    [sep ++ tail] stands behind the text [l]: a line terminator [sep] and
    a [tail] whose first line is blank. *)

Definition blank_line_first (tail : list ascii) : Prop :=
  Parser.is_lineend (hd NUL (behind Parser.is_space tail)) = true.

(** Where the scanner stands in the longer text when it has [l] left of the
    shorter one: at the same place, or, with nothing left, behind the
    blanks of [tail]. *)
Definition joined (e : eol) (tail l lc : list ascii) : Prop :=
  lc = l ++ eol_text e ++ tail ∨ (l = [] ∧ lc = behind Parser.is_space tail).

(** What a turn of the value loop does behind the terminator of a line,
    with [l] left to read and the value [val] so far. *)
Definition next_line (l val : list ascii)
  : turn (list ascii * list ascii * list ascii) (list ascii * list ascii) :=
  if Parser.is_alphanum (hd NUL l) then Leave (l, val)
  else
    let l' := behind Parser.is_space l in
    if Parser.is_lineend (hd NUL l') then Leave (l', val)
    else Again (l', leading Parser.is_space l, val ++ [LF]).

(** ** The text that was read

    What the loops of the parser have read, as fields and paragraphs of
    the text. *)

(** Before a turn of the value loop on the text [l0]: with the line under
    the cursor, the value is the first line and the lines [more] that
    continue it, and these lines stand in [l0] in front of what is left
    behind that line. *)
Definition value_src_inv (l0 : list ascii) (s : list ascii * list ascii * list ascii)
  : Prop :=
  let '(l, pre, val) := s in
  (NUL ∉ l)
  ∧ ∃ more, l0 = leading in_line l0 ++ lines_text more ++ behind in_line l
      ∧ val ++ pre ++ leading in_line l = join_lines (leading in_line l0) (map snd more)
      ∧ Forall (λ ec, ec.1 ≠ Eof ∧ is_continuation ec.2) more.

(** What the value loop returns on [l0]: the lines of the value, the end
    [e] of the last of them, and the place where the loop stops behind
    it. *)
Definition value_src_post (l0 : list ascii) (r : list ascii * list ascii) : Prop :=
  let '(l', v) := r in
  ∃ more e rest, l0 = leading in_line l0 ++ lines_text more ++ eol_text e ++ rest
    ∧ Forall (λ ec, ec.1 ≠ Eof ∧ is_continuation ec.2) more
    ∧ eol_before e rest
    ∧ value_end (eol_text e ++ rest) = Some l'
    ∧ v = join_lines (leading in_line l0) (map snd more).

(** Where a check fails: [x] is the text in which the parser looks for a
    field name, behind the fields [p] of the paragraph.  For "Expected ':'"
    the run of name characters of [x] ends with another character than the
    colon, or with the input; for "Duplicate field" [x] begins with the name
    of a field of [p] and the colon. *)
Definition failed_at (e : check_failure) (p : par_src) (x : list ascii) : Prop :=
  match e with
  | Expected_colon =>
      ∃ run rest, x = run ++ rest ∧ Forall (λ c, is_namechar c = true) run
        ∧ is_namechar (hd NUL rest) = false ∧ hd NUL rest ≠ ":"%char
  | Duplicate_field =>
      ∃ name rest, x = name ++ ":"%char :: rest ∧ name ∈ par_names p
        ∧ Parser.is_alphanum (hd NUL name) = true
  end.

(** Before a turn of the loop of [get_paragraph] on the text [l0]: the
    fields read so far are the fields [p] of the text, and the cursor is
    behind them. *)
Definition fields_src_inv (l0 : list ascii) (st : list ascii * fields_t) : Prop :=
  let '(l, fields) := st in
  (NUL ∉ l)
  ∧ ∃ p, l0 = par_text p ++ l ∧ fields = par_entries p ∧ fields_wf p
      ∧ NoDup (par_names p) ∧ par_eols_ok l p ∧ field_start p l.

(** What [get_paragraph] returns on [l0]: the fields of a paragraph [p] of
    the text, the cursor behind the blanks [gap] that follow it, at the end
    of a line. *)
Definition fields_src_post (l0 : list ascii) (r : list ascii * fields_t) : Prop :=
  let '(l', fields) := r in
  (NUL ∉ l')
  ∧ ∃ p gap, l0 = par_text p ++ gap ++ l' ∧ fields = par_entries p ∧ par_wf p
      ∧ par_eols_ok (gap ++ l') p
      ∧ Forall (λ c, Parser.is_space c = true) gap
      ∧ Parser.is_lineend (hd NUL l') = true.

(** A check that fails in [get_paragraph] on [l0]. *)
Definition fields_src_exit (l0 : list ascii) (e : check_failure) : Prop :=
  ∃ p x, l0 = par_text p ++ x ∧ fields_wf p ∧ NoDup (par_names p)
    ∧ par_eols_ok x p ∧ field_start p x ∧ failed_at e p x.

(** The text [l] is a well-formed document with the paragraphs [doc]. *)
Definition doc_src_ok (l : list ascii) (doc : list fields_t) : Prop :=
  ∃ lead d, l = lead ++ doc_text d
    ∧ Forall (λ c, Parser.is_blank c = true) lead
    ∧ doc_wf [] d ∧ doc_entries d = doc.

(** The text [l] is well formed up to the place [x] behind the fields [p]
    of a paragraph, where the check [e] fails. *)
Definition doc_src_exit (l : list ascii) (e : check_failure) : Prop :=
  ∃ lead d p x, l = lead ++ doc_text d ++ par_text p ++ x
    ∧ Forall (λ c, Parser.is_blank c = true) lead
    ∧ doc_wf (par_text p ++ x) d
    ∧ fields_wf p ∧ NoDup (par_names p) ∧ par_eols_ok x p
    ∧ field_start p x ∧ failed_at e p x.

(** ** A document written out

    The text of a document with every field in lines of its own, the name,
    the colon, a space and the value, and with an empty line behind every
    paragraph. *)

Definition write_field (entry : list ascii * list ascii) : list ascii :=
  entry.1 ++ ":"%char :: SP :: entry.2 ++ [LF].

Definition write_paragraph (fields : fields_t) : list ascii :=
  concat (map write_field fields) ++ [LF].

Definition write_document (doc : list fields_t) : list ascii :=
  concat (map write_paragraph doc).
(** * Part II: properties *)

(** ** The parser at work *)

(** [is_alphanum] by character codes: ['A'..'Z'], ['a'..'z'], ['0'..'9']. *)
Example is_alphanum_codes :
  forallb (λ n, Bool.eqb (Parser.is_alphanum (ascii_of_nat n))
                  ((65 <=? n) && (n <=? 90) || (97 <=? n) && (n <=? 122)
                   || (48 <=? n) && (n <=? 57)))
          (seq 0 256) = true.
Proof. vm_compute. reflexivity. Qed.

Example one_field :
  parse_paragraphs (str "Name: foo" ++ [LF; LF])
  = Ok (value [[(str "Name", str "foo")]]).
Proof. vm_compute. reflexivity. Qed.

Example two_fields :
  parse_paragraphs (str "A: 1" ++ [LF] ++ str "B: 2" ++ [LF])
  = Ok (value [[(str "A", str "1"); (str "B", str "2")]]).
Proof. vm_compute. reflexivity. Qed.

Example two_paragraphs :
  parse_paragraphs ([LF; LF] ++ str "A: 1" ++ [LF; LF] ++ str "B: 2" ++ [LF; LF])
  = Ok (value [[(str "A", str "1")]; [(str "B", str "2")]]).
Proof. vm_compute. reflexivity. Qed.

Example not_one_paragraph :
  parse_single_paragraph [LF] = Ok (error (parse_error EXPECTED_ONE_PARAGRAPH))
  ∧ parse_single_paragraph (str "A: 1" ++ [LF; LF] ++ str "B: 2" ++ [LF])
    = Ok (error (parse_error EXPECTED_ONE_PARAGRAPH))
  ∧ parse_single_paragraph (str "A: 1" ++ [LF]) = Ok (value [(str "A", str "1")]).
Proof. vm_compute. done. Qed.


(** ** Rules for [loop] *)

Section loop_rules.
Context {S R : Type}.
Implicit Types (body : S → result (turn S R)) (s : S).

(** Total correctness: an invariant [I], a measure [μ] that every further
    turn decreases, and postconditions [Q] for the way out and [E] for a
    failed check. *)
Lemma loop_total (I : S → Prop) (Q : R → Prop) (E : check_failure → Prop)
    (μ : S → nat) body :
  (∀ s, I s →
     match body s with
     | Ok (Again s') => I s' ∧ μ s' < μ s
     | Ok (Leave r) => Q r
     | Exit e => E e
     | Timeout => False
     end) →
  ∀ fuel s, I s → μ s < fuel →
    match loop fuel body s with
    | Ok r => Q r
    | Exit e => E e
    | Timeout => False
    end.
Proof.
  intros Hbody fuel. induction fuel as [|fuel IH]; intros s Hs Hlt; [lia|].
  simpl. specialize (Hbody s Hs).
  destruct (body s) as [[s'|r]|e|]; try done.
  destruct Hbody as [Hs' Hdec]. apply IH; [done|lia].
Qed.

(** With enough fuel for the measure, the amount of fuel does not matter. *)
Lemma loop_fuel (I : S → Prop) (μ : S → nat) body1 body2 :
  (∀ s, I s → body1 s = body2 s) →
  (∀ s s', I s → body1 s = Ok (Again s') → I s' ∧ μ s' < μ s) →
  ∀ k1 k2 s, I s → μ s < k1 → μ s < k2 → loop k1 body1 s = loop k2 body2 s.
Proof.
  intros Heq Hdec k1. induction k1 as [|k1 IH]; intros k2 s Hs H1 H2; [lia|].
  destruct k2 as [|k2]; [lia|]. simpl. rewrite <- (Heq s Hs).
  destruct (body1 s) as [[s'|r]|e|] eqn:E; try done.
  destruct (Hdec _ _ Hs E) as [Hs' Hlt]. apply IH; [done|lia..].
Qed.
(** With enough fuel a loop is its body followed by the loop. *)
Lemma loop_unfold (I : S → Prop) (μ : S → nat) body :
  (∀ s s', I s → body s = Ok (Again s') → I s' ∧ μ s' < μ s) →
  ∀ k s, I s → μ s < k →
    loop k body s = match body s with
                    | Ok (Again s') => loop k body s'
                    | Ok (Leave r) => Ok r
                    | Exit e => Exit e
                    | Timeout => Timeout
                    end.
Proof.
  intros Hdec k s Hs Hk. destruct k as [|k]; [lia|].
  transitivity (match body s with
                | Ok (Again s') => loop k body s'
                | Ok (Leave r) => Ok r
                | Exit e => Exit e
                | Timeout => Timeout
                end); [done|].
  destruct (body s) as [[s'|r]|e|] eqn:E; try done.
  destruct (Hdec _ _ Hs E) as [Hs' Hlt].
  apply (loop_fuel I μ body body); [done|done|done|lia..].
Qed.
End loop_rules.

(** ** The cursor *)

Lemma peek_at l : Parser.peek (Parser.mk l) = hd NUL l.
Proof. by destruct l. Qed.

Lemma next_cons c l : Parser.next (Parser.mk (c :: l)) = at_ l.
Proof. done. Qed.

Lemma leading_behind f l : leading f l ++ behind f l = l.
Proof. induction l as [|c l IH]; simpl; [done|]. destruct (f c); simpl; by f_equal. Qed.

Lemma behind_suffix f l : behind f l `suffix_of` l.
Proof. exists (leading f l). by rewrite leading_behind. Qed.

Lemma leading_Forall f l : Forall (λ c, f c = true) (leading f l).
Proof.
  induction l as [|c l IH]; simpl; [constructor|].
  destruct (f c) eqn:E; by constructor.
Qed.

Lemma behind_hd f l : f NUL = false → f (hd NUL (behind f l)) = false.
Proof.
  intros HN. induction l as [|c l IH]; simpl; [done|].
  by destruct (f c) eqn:E.
Qed.

Lemma range_app pre l : Parser.range (pre ++ l) l = pre.
Proof.
  unfold Parser.range. rewrite length_app.
  replace (length pre + length l - length l) with (length pre) by lia.
  by rewrite take_app_length.
Qed.

Lemma range_leading f l : Parser.range l (behind f l) = leading f l.
Proof. rewrite <- (leading_behind f l) at 1. apply range_app. Qed.

Lemma while_next f fuel l :
  f NUL = false → length l < fuel →
  while fuel (λ '(p, ch), f ch) (λ '(p, ch), mret (Parser.next p)) (at_ l)
  = Ok (at_ (behind f l)).
Proof.
  intros HN. revert fuel. induction l as [|c l IH]; intros fuel Hlt;
    (destruct fuel as [|fuel]; [simpl in Hlt; lia|]).
  - unfold while. cbn [loop]. unfold at_ at 1. rewrite peek_at. cbn [hd]. by rewrite HN.
  - unfold while in *. cbn [loop]. unfold at_ at 1. rewrite peek_at. cbn [hd behind].
    destruct (f c) eqn:E; [|done].
    cbn. apply IH. simpl in Hlt. lia.
Qed.

Lemma eat_at c l :
  c ≠ NUL →
  (if Ascii.eqb (hd NUL l) c then Parser.next (Parser.mk l) else at_ l) = at_ (eat c l).
Proof.
  intros Hc. destruct l as [|c' l]; cbn [hd eat].
  - destruct (Ascii.eqb_spec NUL c) as [E|E]; [congruence|done].
  - by destruct (Ascii.eqb c' c).
Qed.

Lemma eat_suffix c l : eat c l `suffix_of` l.
Proof.
  destruct l as [|c' l]; cbn [eat]; [done|].
  destruct (Ascii.eqb c' c); [by apply suffix_cons_r|done].
Qed.

Lemma skip_spaces_at fuel l :
  length l < fuel → Parser.skip_spaces fuel (at_ l) = Ok (at_ (behind Parser.is_space l)).
Proof. intros. by apply (while_next Parser.is_space). Qed.

Lemma range_pre_leading f pre l :
  Parser.range (pre ++ l) (behind f l) = pre ++ leading f l.
Proof.
  rewrite <- (leading_behind f l) at 1. by rewrite app_assoc, range_app.
Qed.

Lemma eat_length c l : length (eat c l) ≤ length l.
Proof. apply suffix_length, eat_suffix. Qed.

Lemma behind_length f l : length (behind f l) ≤ length l.
Proof. apply suffix_length, behind_suffix. Qed.

Lemma get_fieldvalue_turn_at fuel l pre val :
  length l < fuel →
  Parser.get_fieldvalue_turn fuel (at_value (l, pre, val))
  = Ok (turn_map at_value at_with (value_turn (l, pre, val))).
Proof.
  intros Hlt. unfold Parser.get_fieldvalue_turn, value_turn, at_value.
  cbn [fst snd]. unfold at_ at 1.
  change (while fuel _ _ (Parser.mk l, _)) with
    (while fuel (λ '(p, ch), in_line ch) (λ '(p, ch), mret (Parser.next p)) (at_ l)).
  rewrite while_next by done. cbn [mbind result_bind at_ Parser.cur].
  rewrite range_pre_leading.
  set (l1 := behind in_line l).
  change (Parser.mk l1, Parser.peek (Parser.mk l1)) with (at_ l1).
  rewrite peek_at, eat_at by done.
  set (l2 := eat CR l1). unfold at_ at 1. rewrite peek_at, eat_at by done.
  set (l3 := eat LF l2). unfold at_ at 1. rewrite peek_at.
  destruct (Parser.is_alphanum (hd NUL l3)); [done|].
  cbn [Parser.cur].
  assert (length l3 < fuel) as Hl3.
  { pose proof (eat_length LF l2). pose proof (eat_length CR l1).
    pose proof (behind_length in_line l). unfold l3, l2, l1 in *. lia. }
  rewrite <- (peek_at l3). change (Parser.mk l3, _) with (at_ l3).
  rewrite skip_spaces_at by done.
  cbn [mbind result_bind]. unfold at_ at 1. rewrite peek_at.
  destruct (Parser.is_lineend _); [done|].
  unfold turn_map, at_value. cbn [fst snd]. by rewrite leading_behind.
Qed.

Lemma get_fieldname_at fuel l :
  length l < fuel →
  Parser.get_fieldname fuel (at_ l) = r ← read_name l; Ok (at_with r).
Proof.
  intros Hlt. unfold Parser.get_fieldname, read_name. unfold at_ at 1.
  change (while fuel _ _ (Parser.mk l, _)) with
    (while fuel (λ '(p, ch), is_namechar ch) (λ '(p, ch), mret (Parser.next p)) (at_ l)).
  rewrite while_next by done. cbn [mbind result_bind].
  unfold at_ at 1. rewrite peek_at. cbn [Parser.cur].
  rewrite range_leading.
  pose proof (suffix_length _ _ (behind_suffix is_namechar l)) as Hs.
  destruct (behind is_namechar l) as [|c l'] eqn:E; cbn [hd].
  - done.
  - destruct (Ascii.eqb c ":"); [|done].
    rewrite next_cons. rewrite skip_spaces_at by (simpl in Hs; lia). done.
Qed.

(** ** The scanner computes the functions on the remaining input *)

Section loop_refine.
Context {S1 R1 S2 R2 : Type} (φ : S2 → S1) (ψ : R2 → R1).
Context (body1 : S1 → result (turn S1 R1)) (body2 : S2 → result (turn S2 R2)).
Context (I : S2 → Prop).

Lemma loop_refine :
  (∀ s, I s → body1 (φ s) = t ← body2 s; Ok (turn_map φ ψ t)) →
  (∀ s s', I s → body2 s = Ok (Again s') → I s') →
  ∀ fuel s, I s → loop fuel body1 (φ s) = r ← loop fuel body2 s; Ok (ψ r).
Proof.
  intros Hbody Hinv fuel. induction fuel as [|fuel IH]; intros s Hs; [done|].
  cbn [loop]. rewrite (Hbody s Hs).
  destruct (body2 s) as [[s'|r]|e|] eqn:E; try done.
  cbn. apply IH. by eapply Hinv.
Qed.
End loop_refine.
(** ** Every further turn moves the cursor *)

Lemma suffix_same_length (l1 l2 : list ascii) :
  l1 `suffix_of` l2 → length l2 ≤ length l1 → l1 = l2.
Proof.
  intros Hs Hl. apply suffix_length_eq; [done|].
  apply suffix_length in Hs. lia.
Qed.

Lemma value_turn_behind l pre val :
  match value_turn (l, pre, val) with
  | Again (l', _, _) => l' `suffix_of` l ∧ length l' < length l
  | Leave (l', _) => l' `suffix_of` l
  end.
Proof.
  unfold value_turn.
  set (l1 := behind in_line l). set (l2 := eat CR l1). set (l3 := eat LF l2).
  set (l4 := behind Parser.is_space l3).
  assert (l1 `suffix_of` l) as H1 by apply behind_suffix.
  assert (l2 `suffix_of` l1) as H2 by apply eat_suffix.
  assert (l3 `suffix_of` l2) as H3 by apply eat_suffix.
  assert (l4 `suffix_of` l3) as H4 by apply behind_suffix.
  assert (l3 `suffix_of` l) as H3l by (by do 2 (etrans; [|done])).
  assert (l4 `suffix_of` l) as H4l by (by etrans).
  destruct (Parser.is_alphanum (hd NUL l3)); [done|].
  destruct (Parser.is_lineend (hd NUL l4)) eqn:E; [done|].
  split; [done|].
  destruct (decide (length l4 < length l)) as [|Hge]; [done|exfalso].
  assert (l4 = l3) as E4.
  { apply suffix_same_length; [done|]. apply suffix_length in H3l. lia. }
  assert (l3 = l2) as E3.
  { apply suffix_same_length; [done|].
    apply suffix_length in H2, H1. rewrite <- E4. lia. }
  assert (l2 = l1) as E2.
  { apply suffix_same_length; [done|].
    apply suffix_length in H1. rewrite <- E3, <- E4. lia. }
  rewrite E4, E3, E2 in E. unfold l1 in E.
  pose proof (behind_hd in_line l eq_refl) as Hhd. unfold in_line in Hhd at 1.
  rewrite E in Hhd. done.
Qed.

Lemma read_name_behind l l' name :
  read_name l = Ok (l', name) →
  l' `suffix_of` l ∧ length l' < length l ∧ leading is_namechar l = name
  ∧ Parser.is_space (hd NUL l') = false
  ∧ ∃ sp, l = name ++ ":"%char :: sp ++ l' ∧ Forall (λ c, Parser.is_space c = true) sp.
Proof.
  unfold read_name. intros H.
  pose proof (leading_behind is_namechar l) as Hl.
  destruct (behind is_namechar l) as [|c l0]; [done|].
  destruct (Ascii.eqb_spec c ":") as [->|]; [|done].
  injection H as <- <-.
  pose proof (leading_behind Parser.is_space l0) as Hl0.
  assert (l = leading is_namechar l ++ ":"%char :: leading Parser.is_space l0
                ++ behind Parser.is_space l0) as El by (by rewrite Hl0).
  split_and!; [| |done|by apply behind_hd|].
  - exists (leading is_namechar l ++ ":"%char :: leading Parser.is_space l0).
    by rewrite <- app_assoc.
  - apply (f_equal length) in El. rewrite length_app in El. cbn [length] in El.
    rewrite length_app in El. lia.
  - eexists. split; [exact El|]. apply leading_Forall.
Qed.

(** ** What a value looks like *)

Lemma is_space_in_line c : Parser.is_space c = true → in_line c = true.
Proof.
  unfold Parser.is_space. intros H.
  destruct (Ascii.eqb_spec c SP) as [E|_]; [by rewrite E|].
  destruct (Ascii.eqb_spec c HT) as [E|_]; [by rewrite E|done].
Qed.

Lemma is_alphanum_in_line c : Parser.is_alphanum c = true → in_line c = true.
Proof.
  intros H. unfold in_line, Parser.is_lineend.
  destruct (Ascii.eqb_spec c CR) as [E|_]; [by rewrite E in H|].
  destruct (Ascii.eqb_spec c LF) as [E|_]; [by rewrite E in H|].
  destruct (Ascii.eqb_spec c NUL) as [E|_]; [by rewrite E in H|done].
Qed.

Lemma behind_app_all f pre l :
  Forall (λ c, f c = true) pre → behind f (pre ++ l) = behind f l.
Proof. induction 1 as [|c pre Hc _ IH]; cbn; [done|]. by rewrite Hc. Qed.

Lemma leading_app_all f pre l :
  Forall (λ c, f c = true) pre → leading f (pre ++ l) = pre ++ leading f l.
Proof. induction 1 as [|c pre Hc _ IH]; cbn; [done|]. rewrite Hc. by f_equal. Qed.

Lemma behind_id f l : f (hd NUL l) = false → f NUL = false → behind f l = l.
Proof. destruct l as [|c l]; cbn; [done|]. by intros ->. Qed.

Lemma leading_hd f l : f (hd NUL l) = true → f NUL = false
  → hd NUL (leading f l) = hd NUL l.
Proof.
  destruct l as [|c l]; cbn; [done|]. by intros ->.
Qed.

Lemma join_lines_snoc first more l :
  join_lines first more ++ LF :: l = join_lines first (more ++ [l]).
Proof.
  unfold join_lines. rewrite map_app, concat_app. cbn.
  by rewrite app_nil_r, <- app_assoc.
Qed.

Lemma hd_app_nonempty (l1 l2 l2' : list ascii) :
  hd NUL l2 = hd NUL l2' → (l2' = [] → l2 = [])
  → hd NUL (l1 ++ l2) = hd NUL (l1 ++ l2').
Proof. destruct l1 as [|c l1]; cbn; done. Qed.

Lemma value_inv_value l0 l pre val :
  value_inv l0 (l, pre, val) →
  ∃ more, val ++ pre ++ leading in_line l = join_lines (leading in_line l0) more
          ∧ Forall is_continuation more.
Proof.
  intros [_ [(-> & -> & ->)|(more & -> & Hmore & Hpre & Hl & Hsp & Hal)]].
  - exists []. unfold join_lines. cbn. by rewrite app_nil_r.
  - exists (more ++ [pre ++ leading in_line l]). split.
    + rewrite <- join_lines_snoc. by rewrite <- app_assoc.
    + apply Forall_app. split; [done|]. apply Forall_singleton.
      assert (hd NUL (leading in_line l) = hd NUL l) as Hhd
        by (by apply leading_hd).
      split_and!.
      * apply Forall_app. split; [|apply leading_Forall].
        eapply Forall_impl; [exact Hpre|]. apply is_space_in_line.
      * rewrite <- Hal. f_equal. apply hd_app_nonempty; [done|]. by intros ->.
      * rewrite behind_app_all by done. rewrite behind_id; [|by rewrite Hhd|done].
        by rewrite Hhd.
Qed.

Lemma value_turn_inv l0 s :
  value_inv l0 s →
  match value_turn s with
  | Again s' => value_inv l0 s' ∧ length (s'.1.1) < length (s.1.1)
  | Leave r => value_post l0 r
  end.
Proof.
  destruct s as [[l pre] val]. intros Hinv.
  pose proof (value_inv_value _ _ _ _ Hinv) as Hval.
  pose proof (value_turn_behind l pre val) as Hbehind.
  destruct Hinv as [Hsuf _].
  unfold value_turn in *.
  set (l3 := eat LF (eat CR (behind in_line l))) in *.
  destruct (Parser.is_alphanum (hd NUL l3)) eqn:Hal.
  { split_and!; [by etrans|by left|done]. }
  destruct (Parser.is_lineend (hd NUL (behind Parser.is_space l3))) eqn:Hle.
  { split_and!; [by etrans|by right|done]. }
  destruct Hbehind as [Hs Hlt]. split; [|done].
  split; [by etrans|]. right.
  destruct Hval as (more & -> & Hmore). exists more.
  split_and!; [done|done|apply leading_Forall| | |].
  - unfold in_line. by rewrite Hle.
  - by apply behind_hd.
  - by rewrite leading_behind.
Qed.

Lemma read_value_spec fuel l0 :
  length l0 < fuel →
  ∃ r, read_value fuel l0 = Ok r ∧ value_post l0 r.
Proof.
  intros Hlt. unfold read_value.
  pose proof (loop_total (value_inv l0) (value_post l0) (λ _, False)
                (λ s, length (s.1.1)) (λ s, Ok (value_turn s))) as H.
  specialize (H (λ s Hs, value_turn_inv l0 s Hs) fuel (l0, [], [])).
  assert (value_inv l0 (l0, [], [])) as H0 by (split; [done|by left]).
  destruct (loop _ _ _) as [r|e|].
  - exists r. split; [done|]. by apply H.
  - exfalso. by apply H.
  - exfalso. by apply H.
Qed.

(** ** What a paragraph and a document look like *)

Lemma find_None fields key : find fields key = None ↔ key ∉ fields.*1.
Proof.
  induction fields as [|[k v] fields IH]; cbn.
  - split; [intros _; apply not_elem_of_nil|done].
  - rewrite not_elem_of_cons. destruct (decide (k = key)) as [->|Hne].
    + split; [done|]. by intros [? _].
    + rewrite IH. split; [by intros ?|by intros [_ ?]].
Qed.

Lemma emplace_new fields key v :
  find fields key = None → emplace fields key v = fields ++ [(key, v)].
Proof. unfold emplace. by intros ->. Qed.

Lemma leading_nil_hd f l : f (hd NUL l) = false → leading f l = [].
Proof. destruct l as [|c l]; cbn; [done|]. by intros ->. Qed.

Lemma read_value_first l :
  Parser.is_space (hd NUL l) = false →
  is_line (leading in_line l) ∧ Parser.is_space (hd NUL (leading in_line l)) = false.
Proof.
  intros Hsp. split; [apply leading_Forall|].
  destruct (in_line (hd NUL l)) eqn:E.
  - by rewrite leading_hd.
  - by rewrite leading_nil_hd.
Qed.

Lemma is_alphanum_namechar c : Parser.is_alphanum c = true → is_namechar c = true.
Proof. unfold is_namechar. by intros ->. Qed.

Lemma fields_turn_inv fuel s l0 st :
  length s < fuel →
  fields_inv s l0 st →
  match fields_turn fuel st with
  | Ok (Again st') => fields_inv s l0 st' ∧ length (st'.1) < length (st.1)
  | Ok (Leave r) => fields_post s l0 r
  | Exit _ => True
  | Timeout => False
  end.
Proof.
  destruct st as [l fields]. intros Hfuel (Hsuf & (Hall & Hnodup & Htail) & Hfirst).
  unfold fields_turn.
  destruct (read_name l) as [[l1 name]|e|] eqn:Hname; cbn; [|done|].
  2:{ unfold read_name in Hname. destruct (behind is_namechar l); [done|].
      by destruct (Ascii.eqb _ _). }
  apply read_name_behind in Hname as (Hs1 & Hlt1 & Hlead & Hl1sp & sp & El & Hsp).
  destruct (find fields name) as [|] eqn:Hfind; [done|].
  assert (length l ≤ length s) as Hls by (by apply suffix_length).
  destruct (read_value_spec fuel l1) as ([l2 v] & -> & Hs2 & Hstop & more & -> & Hmore);
    [lia|]. cbn.
  rewrite emplace_new by done.
  assert (length l2 ≤ length l1) as Hl2 by (by apply suffix_length).
  assert (l2 `suffix_of` s) as Hs2s by (by do 2 (etrans; [|done])).
  assert (fields_ok s (fields ++ [(name, join_lines (leading in_line l1) more)])) as Hok.
  { split_and!.
    - apply Forall_app. split; [done|]. apply Forall_singleton. cbn. split.
      + split; [rewrite <- Hlead; apply leading_Forall|].
        destruct Hsuf as [before ->]. exists before, (sp ++ l1). by rewrite El.
      + destruct (read_value_first l1 Hl1sp) as [? ?]. by eexists _, _.
    - rewrite fmap_app. cbn. apply NoDup_app. split_and!; [done| |apply NoDup_singleton].
      intros k Hk ->%list_elem_of_singleton. by apply find_None in Hfind.
    - destruct Hfirst as [[-> ->]|(Hne & _ & Hal)]; [done|].
      destruct fields as [|e fields]; [done|]. cbn in *.
      apply Forall_app. split; [done|]. apply Forall_singleton. cbn.
      rewrite <- Hlead. rewrite leading_hd; [done| |done].
      by apply is_alphanum_namechar. }
  assert (length l2 < length l0) as Hlt0.
  { destruct Hfirst as [[_ ->]|(_ & ? & _)]; lia. }
  assert (fields ++ [(name, join_lines (leading in_line l1) more)] ≠ []) as Hne
    by (by destruct fields).
  destruct (in_line (hd NUL l2)) eqn:Hin.
  - split; [|cbn; lia]. split_and!; [done..|]. right. split_and!; [done..|].
    destruct Hstop as [?|Hend]; [done|]. unfold in_line in Hin. by rewrite Hend in Hin.
  - split_and!; [done..|]. unfold in_line in Hin. by destruct (Parser.is_lineend _).
Qed.

Lemma read_fields_spec fuel s l0 :
  length s < fuel → l0 `suffix_of` s →
  match read_fields fuel l0 with
  | Ok r => fields_post s l0 r
  | Exit _ => True
  | Timeout => False
  end.
Proof.
  intros Hfuel Hsuf. unfold read_fields.
  apply (loop_total (fields_inv s l0) (fields_post s l0) (λ _, True) (λ st, length (st.1))).
  - intros st Hst. by apply fields_turn_inv.
  - split_and!; [done| |by left]. split_and!; [done|apply NoDup_nil_2|done].
  - apply suffix_length in Hsuf. cbn. lia.
Qed.

Lemma doc_turn_inv fuel s st :
  length s < fuel →
  doc_inv s st →
  match doc_turn fuel st with
  | Ok (Again st') => doc_inv s st' ∧ length (st'.1) < length (st.1)
  | Ok (Leave r) => doc_inv s r
  | Exit _ => True
  | Timeout => False
  end.
Proof.
  destruct st as [l doc]. intros Hfuel [Hsuf Hdoc]. unfold doc_turn.
  destruct l as [|c l]; [done|].
  destruct (Ascii.eqb c NUL); [done|].
  destruct (Parser.is_blank c).
  { split; [|cbn; lia]. split; [|done]. by eapply suffix_cons_l. }
  pose proof (read_fields_spec fuel s (c :: l) Hfuel Hsuf) as H.
  destruct (read_fields fuel (c :: l)) as [[l' fields]|e|]; cbn; [|done..].
  destruct H as (Hs' & Hlt & Hok & Hne & _).
  split; [|done]. split; [done|]. apply Forall_app. split; [done|].
  by apply Forall_singleton.
Qed.

Lemma read_doc_spec fuel s :
  length s < fuel →
  match read_doc fuel s with
  | Ok (_, doc) => doc_ok s doc
  | Exit _ => True
  | Timeout => False
  end.
Proof.
  intros Hfuel. unfold read_doc.
  pose proof (loop_total (doc_inv s) (doc_inv s) (λ _, True) (λ st, length (st.1))
                (doc_turn fuel)) as H.
  specialize (H (λ st Hst, doc_turn_inv fuel s st Hfuel Hst) fuel (s, [])).
  destruct (loop _ _ _) as [[l doc]|e|]; [|done|].
  - apply H; [|done]. split; [done|]. constructor.
  - apply H; [|done]. split; [done|]. constructor.
Qed.

(** ** The parser computes [read_doc] *)

Lemma fields_turn_behind fuel l fields :
  length l < fuel →
  match fields_turn fuel (l, fields) with
  | Ok (Again (l', _)) | Ok (Leave (l', _)) => l' `suffix_of` l ∧ length l' < length l
  | _ => True
  end.
Proof.
  intros Hfuel. unfold fields_turn.
  destruct (read_name l) as [[l1 name]|e|] eqn:Hname; cbn; [|done..].
  apply read_name_behind in Hname as (Hs1 & Hlt1 & _).
  destruct (find fields name); [done|].
  destruct (read_value_spec fuel l1) as ([l2 v] & -> & Hs2 & _); [lia|]. cbn.
  assert (l2 `suffix_of` l ∧ length l2 < length l) as H.
  { split; [by etrans|]. apply suffix_length in Hs2. lia. }
  by destruct (in_line (hd NUL l2)).
Qed.

Lemma get_fieldvalue_at fuel l :
  length l < fuel →
  Parser.get_fieldvalue fuel (at_ l) = r ← read_value fuel l; Ok (at_with r).
Proof.
  intros Hfuel. unfold Parser.get_fieldvalue, read_value, at_ at 1. cbn [Parser.cur].
  change (Parser.mk l, Parser.peek (Parser.mk l), l, @nil ascii)
    with (at_value (l, [], [])).
  apply (loop_refine at_value at_with (Parser.get_fieldvalue_turn fuel)
           (λ s, Ok (value_turn s)) (λ s, length (s.1.1) < fuel)).
  - intros [[l1 pre] val] Hl1. by rewrite get_fieldvalue_turn_at.
  - intros [[l1 pre] val] [[l2 pre'] val'] Hl1 E.
    assert (value_turn (l1, pre, val) = Again (l2, pre', val')) as E' by congruence.
    pose proof (value_turn_behind l1 pre val) as Hb. rewrite E' in Hb. cbn in *. lia.
  - done.
Qed.

Lemma get_paragraph_at fuel l :
  length l < fuel →
  Parser.get_paragraph fuel (at_ l) = r ← read_fields fuel l; Ok (at_with r).
Proof.
  intros Hfuel. unfold Parser.get_paragraph, read_fields, do_while, at_ at 1.
  change (Parser.mk l, Parser.peek (Parser.mk l), @nil (list ascii * list ascii))
    with (at_with (l, @nil (list ascii * list ascii))).
  apply (loop_refine at_with at_with _ (fields_turn fuel)
           (λ s, length (s.1) < fuel)).
  - intros [l1 fields] Hl1. unfold Parser.get_paragraph_body, fields_turn.
    unfold at_with at 1, at_ at 1. cbn [fst snd].
    change (Parser.mk l1, _) with (at_ l1).
    rewrite get_fieldname_at by done.
    destruct (read_name l1) as [[l2 name]|e|] eqn:Hname;
      cbn -[Parser.get_fieldvalue read_value emplace in_line]; [|done..].
    apply read_name_behind in Hname as (_ & Hlt2 & _).
    destruct (find fields name); [done|].
    cbn in Hl1. change (Parser.mk l2, _) with (at_ l2).
    rewrite get_fieldvalue_at by lia.
    destruct (read_value fuel l2) as [[l3 v]|e|];
      cbn -[emplace in_line Parser.is_lineend]; [|done..].
    unfold in_line. change (Parser.peek _) with (hd NUL l3).
    by destruct (Parser.is_lineend _).
  - intros [l1 fields] [l2 fields'] Hl1 E.
    pose proof (fields_turn_behind fuel l1 fields Hl1) as Hb. rewrite E in Hb.
    cbn in *. lia.
  - done.
Qed.

Lemma doc_turn_behind fuel l doc :
  length l < fuel →
  match doc_turn fuel (l, doc) with
  | Ok (Again (l', _)) => l' `suffix_of` l ∧ length l' < length l
  | _ => True
  end.
Proof.
  intros Hfuel. unfold doc_turn. destruct l as [|c l]; [done|].
  destruct (Ascii.eqb c NUL); [done|].
  destruct (Parser.is_blank c); [split; [by apply suffix_cons_r|cbn; lia]|].
  pose proof (read_fields_spec fuel (c :: l) (c :: l) Hfuel (reflexivity _)) as H.
  destruct (read_fields _ _) as [[l' fields]|e|]; cbn; [|done..].
  by destruct H as (? & ? & _).
Qed.

Lemma is_blank_not_NUL c : Parser.is_blank c = true → Ascii.eqb c NUL = false.
Proof.
  intros H. destruct (Ascii.eqb_spec c NUL) as [E|_]; [by rewrite E in H|done].
Qed.

Lemma get_paragraphs_at fuel l :
  length l < fuel →
  Parser.get_paragraphs fuel (Parser.mk l) = r ← read_doc fuel l; Ok r.2.
Proof.
  intros Hfuel. unfold Parser.get_paragraphs, read_doc, while.
  pose proof (loop_refine at_with at_with
    (λ s, if (let '(p, ch, paragraphs) := s in negb (Ascii.eqb ch NUL))
          then s' ← Parser.get_paragraphs_body fuel s; mret (Again s')
          else mret (Leave s))
    (doc_turn fuel)
    (λ s, length (s.1) < fuel)) as H.
  change (Parser.mk l, Parser.peek (Parser.mk l), @nil fields_t)
    with (at_with (l, @nil fields_t)).
  rewrite H; clear H; [|..|done].
  - by destruct (loop _ _ _) as [[??]| |].
  - intros [l1 doc] Hl1. unfold doc_turn.
    destruct l1 as [|c l1]; [done|].
    unfold at_with, at_. cbn [fst snd Parser.peek Parser.cur].
    destruct (Ascii.eqb c NUL) eqn:Hc; [done|]. cbn [negb].
    unfold Parser.get_paragraphs_body.
    destruct (Parser.is_blank c); [done|].
    change (Parser.mk (c :: l1), c) with (at_ (c :: l1)).
    rewrite get_paragraph_at by done.
    by destruct (read_fields _ _) as [[??]| |].
  - intros [l1 doc] [l2 doc'] Hl1 E.
    pose proof (doc_turn_behind fuel l1 doc Hl1) as Hb. rewrite E in Hb.
    cbn in *. lia.
Qed.

Lemma run_parser_read_doc s :
  run_parser s = r ← read_doc (S (length s)) s; Ok r.2.
Proof. unfold run_parser. apply get_paragraphs_at. lia. Qed.

(** ** More fuel changes nothing *)

Lemma value_turn_again s s' :
  value_turn s = Again s' → length (s'.1.1) < length (s.1.1).
Proof.
  destruct s as [[l pre] val], s' as [[l' pre'] val']. intros E.
  pose proof (value_turn_behind l pre val) as H. rewrite E in H. by destruct H.
Qed.

Lemma value_loop_fuel k1 k2 s :
  length (s.1.1) < k1 → length (s.1.1) < k2 →
  loop k1 (λ s, Ok (value_turn s)) s = loop k2 (λ s, Ok (value_turn s)) s.
Proof.
  apply (loop_fuel (λ _, True) (λ s, length (s.1.1))); [done| |done].
  intros s1 s2 _ [= E]. split; [done|]. by apply value_turn_again.
Qed.

Lemma read_value_fuel k1 k2 l :
  length l < k1 → length l < k2 → read_value k1 l = read_value k2 l.
Proof. intros. by apply value_loop_fuel. Qed.

Lemma value_loop_unfold k s :
  length (s.1.1) < k →
  loop k (λ s, Ok (value_turn s)) s
  = match value_turn s with
    | Again s' => loop k (λ s, Ok (value_turn s)) s'
    | Leave r => Ok r
    end.
Proof.
  intros Hk.
  rewrite (loop_unfold (λ _, True) (λ s, length (s.1.1)) (λ s, Ok (value_turn s)));
    [done| |done|done].
  intros s1 s2 _ [= E]. split; [done|]. by apply value_turn_again.
Qed.

Lemma fields_turn_fuel k1 k2 s :
  length (s.1) < k1 → length (s.1) < k2 → fields_turn k1 s = fields_turn k2 s.
Proof.
  destruct s as [l fields]. cbn [fst]. intros H1 H2. unfold fields_turn.
  destruct (read_name l) as [[l1 name]|e|] eqn:Hname; cbn [mbind result_bind]; [|done..].
  apply read_name_behind in Hname as (_ & Hlt & _).
  destruct (find fields name); [done|].
  by rewrite (read_value_fuel k1 k2) by lia.
Qed.

Lemma fields_turn_again fuel s s' :
  length (s.1) < fuel → fields_turn fuel s = Ok (Again s') → length (s'.1) < length (s.1).
Proof.
  destruct s as [l fields], s' as [l' fields']. intros Hfuel E.
  pose proof (fields_turn_behind fuel l fields Hfuel) as H. rewrite E in H.
  by destruct H.
Qed.

Lemma fields_loop_fuel k1 k2 s :
  length (s.1) < k1 → length (s.1) < k2 →
  loop k1 (fields_turn k1) s = loop k2 (fields_turn k2) s.
Proof.
  intros H1 H2.
  apply (loop_fuel (λ s, length (s.1) < k1 ∧ length (s.1) < k2) (λ s, length (s.1)));
    [| |done..].
  - intros s1 [??]. by apply fields_turn_fuel.
  - intros s1 s2 [??] E. apply fields_turn_again in E; [|done]. lia.
Qed.

Lemma read_fields_fuel k1 k2 l :
  length l < k1 → length l < k2 → read_fields k1 l = read_fields k2 l.
Proof. intros. by apply fields_loop_fuel. Qed.

Lemma fields_loop_unfold k s :
  length (s.1) < k →
  loop k (fields_turn k) s
  = match fields_turn k s with
    | Ok (Again s') => loop k (fields_turn k) s'
    | Ok (Leave r) => Ok r
    | Exit e => Exit e
    | Timeout => Timeout
    end.
Proof.
  intros Hk.
  rewrite (loop_unfold (λ s, length (s.1) < k) (λ s, length (s.1)) (fields_turn k));
    [done| |done|done].
  intros s1 s2 ? E. apply fields_turn_again in E; [|done]. lia.
Qed.

Lemma doc_turn_fuel k1 k2 s :
  length (s.1) < k1 → length (s.1) < k2 → doc_turn k1 s = doc_turn k2 s.
Proof.
  destruct s as [l doc]. cbn [fst]. intros H1 H2. unfold doc_turn.
  destruct l as [|c l]; [done|].
  destruct (Ascii.eqb c NUL); [done|]. destruct (Parser.is_blank c); [done|].
  by rewrite (read_fields_fuel k1 k2).
Qed.

Lemma doc_turn_again fuel s s' :
  length (s.1) < fuel → doc_turn fuel s = Ok (Again s') → length (s'.1) < length (s.1).
Proof.
  destruct s as [l doc], s' as [l' doc']. intros Hfuel E.
  pose proof (doc_turn_behind fuel l doc Hfuel) as H. rewrite E in H.
  by destruct H.
Qed.

Lemma doc_loop_fuel k1 k2 s :
  length (s.1) < k1 → length (s.1) < k2 →
  loop k1 (doc_turn k1) s = loop k2 (doc_turn k2) s.
Proof.
  intros H1 H2.
  apply (loop_fuel (λ s, length (s.1) < k1 ∧ length (s.1) < k2) (λ s, length (s.1)));
    [| |done..].
  - intros s1 [??]. by apply doc_turn_fuel.
  - intros s1 s2 [??] E. apply doc_turn_again in E; [|done]. lia.
Qed.

Lemma doc_loop_unfold k s :
  length (s.1) < k →
  loop k (doc_turn k) s
  = match doc_turn k s with
    | Ok (Again s') => loop k (doc_turn k) s'
    | Ok (Leave r) => Ok r
    | Exit e => Exit e
    | Timeout => Timeout
    end.
Proof.
  intros Hk.
  rewrite (loop_unfold (λ s, length (s.1) < k) (λ s, length (s.1)) (doc_turn k));
    [done| |done|done].
  intros s1 s2 ? E. apply doc_turn_again in E; [|done]. lia.
Qed.

Lemma read_doc_fuel k1 k2 l :
  length l < k1 → length l < k2 → read_doc k1 l = read_doc k2 l.
Proof. intros. by apply doc_loop_fuel. Qed.

Lemma get_paragraphs_fuel fuel s :
  length s < fuel → Parser.get_paragraphs fuel (Parser.mk s) = run_parser s.
Proof.
  intros Hfuel. rewrite run_parser_read_doc, get_paragraphs_at by done.
  by rewrite (read_doc_fuel fuel (S (length s))) by lia.
Qed.

(** ** The parser on every input *)

Lemma run_parser_total s : run_parser s ≠ Timeout.
Proof.
  rewrite run_parser_read_doc.
  pose proof (read_doc_spec (S (length s)) s (Nat.lt_succ_diag_r _)) as H.
  by destruct (read_doc _ _) as [[??]| |].
Qed.

Lemma run_parser_ok s doc : run_parser s = Ok doc → doc_ok s doc.
Proof.
  rewrite run_parser_read_doc.
  pose proof (read_doc_spec (S (length s)) s (Nat.lt_succ_diag_r _)) as H.
  destruct (read_doc _ _) as [[??]| |]; [|done..]. by intros [= <-].
Qed.

Lemma parse_paragraphs_ok s doc :
  parse_paragraphs s = Ok (value doc) ↔ run_parser s = Ok doc.
Proof.
  unfold parse_paragraphs. destruct (run_parser s); cbn; [|done..].
  split; by intros [= ->].
Qed.

(** ** The shape of a stored value *)

Lemma is_continuation_nonempty l : is_continuation l → l ≠ [].
Proof. intros (_ & _ & H) ->. done. Qed.

Lemma join_lines_elem c first more :
  c ∈ join_lines first more →
  c ∈ first ∨ c = LF ∨ ∃ l, l ∈ more ∧ c ∈ l.
Proof.
  unfold join_lines. rewrite elem_of_app. intros [?|H]; [by left|right].
  induction more as [|l more IH]; cbn in H; [by apply elem_of_nil in H|].
  apply elem_of_cons in H as [->|H]; [by left|].
  apply elem_of_app in H as [H|H].
  - right. exists l. split; [apply list_elem_of_here|done].
  - destruct (IH H) as [?|(l' & ? & ?)]; [by left|right].
    exists l'. split; [by apply list_elem_of_further|done].
Qed.

Lemma value_ok_in_line v c :
  value_ok v → c ∈ v → c = LF ∨ in_line c = true.
Proof.
  intros (first & more & -> & Hfirst & _ & Hmore) Hc.
  apply join_lines_elem in Hc as [Hc|[->|(l & Hl & Hc)]]; [right|by left|right].
  - unfold is_line in Hfirst. rewrite Forall_forall in Hfirst. by apply Hfirst.
  - rewrite Forall_forall in Hmore. destruct (Hmore _ Hl) as (Hline & _).
    unfold is_line in Hline. rewrite Forall_forall in Hline. by apply Hline.
Qed.

Lemma value_ok_last v w c : value_ok v → v = w ++ [c] → in_line c = true.
Proof.
  intros (first & more & -> & Hfirst & _ & Hmore). revert w.
  induction more as [|l more IH] using rev_ind; intros w E.
  - unfold join_lines in E. cbn in E. rewrite app_nil_r in E. subst first.
    unfold is_line in Hfirst. rewrite Forall_app, Forall_singleton in Hfirst.
    by destruct Hfirst.
  - rewrite Forall_app, Forall_singleton in Hmore. destruct Hmore as [_ Hl].
    rewrite <- join_lines_snoc in E.
    pose proof (is_continuation_nonempty l Hl) as Hne.
    destruct Hl as (Hline & _).
    destruct (exists_last Hne) as (l' & c' & ->).
    change (LF :: l' ++ [c']) with ((LF :: l') ++ [c']) in E.
    rewrite app_assoc in E. apply app_inj_tail in E as [_ <-].
    unfold is_line in Hline. rewrite Forall_app, Forall_singleton in Hline.
    by destruct Hline.
Qed.

(** ** Reading well-formed text *)

Lemma leading_app_stop f a b :
  Forall (λ c, f c = true) a → f (hd NUL b) = false → f NUL = false →
  leading f (a ++ b) = a.
Proof.
  intros Ha Hb HN. rewrite leading_app_all by done.
  by rewrite leading_nil_hd, app_nil_r.
Qed.

Lemma behind_app_stop f a b :
  Forall (λ c, f c = true) a → f (hd NUL b) = false → f NUL = false →
  behind f (a ++ b) = b.
Proof. intros Ha Hb HN. rewrite behind_app_all by done. by apply behind_id. Qed.

Lemma behind_app_more f a b :
  behind f a ≠ [] → behind f (a ++ b) = behind f a ++ b.
Proof.
  induction a as [|c a IH]; cbn; [done|]. destruct (f c); [exact IH|done].
Qed.

Lemma leading_app_more f a b :
  behind f a ≠ [] → leading f (a ++ b) = leading f a.
Proof.
  induction a as [|c a IH]; cbn; [done|]. destruct (f c); [|done].
  intros H. by rewrite IH.
Qed.

Lemma hd_app_more (a b : list ascii) : a ≠ [] → hd NUL (a ++ b) = hd NUL a.
Proof. by destruct a. Qed.

Lemma eat_eol e next :
  eol_before e next → eat LF (eat CR (eol_text e ++ next)) = next.
Proof.
  intros He. destruct e; cbn [eol_text app eat]; try done.
  - change (Ascii.eqb CR CR) with true. cbn match.
    destruct next as [|c next]; [done|]. cbn [eat].
    destruct (Ascii.eqb_spec c LF) as [E|_]; [|done].
    exfalso. by apply He.
  - cbn in He. by rewrite He.
Qed.

Lemma eol_text_lineend e next :
  eol_before e next → Parser.is_lineend (hd NUL (eol_text e ++ next)) = true.
Proof. destruct e; try done. cbn. by intros ->. Qed.

Lemma eol_text_not_in_line e next :
  eol_before e next → in_line (hd NUL (eol_text e ++ next)) = false.
Proof. intros H. unfold in_line. by rewrite eol_text_lineend. Qed.

Lemma eol_before_in_line e next :
  e ≠ Eof → in_line (hd NUL next) = true → eol_before e next.
Proof.
  intros He H. destruct e; [done|done| |done].
  cbn. intros E. by rewrite E in H.
Qed.

(** A turn that starts inside a line does what the turn at the end of that
    line does. *)
Lemma value_turn_line line rest pre val :
  is_line line → Parser.is_lineend (hd NUL rest) = true →
  value_turn (line ++ rest, pre, val) = value_turn (rest, [], val ++ pre ++ line).
Proof.
  intros Hline Hrest.
  assert (in_line (hd NUL rest) = false) as Hrest' by (unfold in_line; by rewrite Hrest).
  unfold value_turn.
  rewrite leading_app_stop, behind_app_stop by done.
  rewrite (leading_nil_hd in_line rest), (behind_id in_line rest) by done.
  by rewrite !app_nil_r, <- !app_assoc.
Qed.

Lemma value_loop_line k line rest pre val :
  is_line line → Parser.is_lineend (hd NUL rest) = true →
  length (line ++ rest) < k →
  loop k (λ s, Ok (value_turn s)) (line ++ rest, pre, val)
  = loop k (λ s, Ok (value_turn s)) (rest, [], val ++ pre ++ line).
Proof.
  intros Hline Hrest Hk.
  rewrite (value_loop_unfold k (line ++ rest, pre, val)) by done.
  rewrite (value_loop_unfold k (rest, [], val ++ pre ++ line)).
  - by rewrite value_turn_line.
  - cbn. rewrite length_app in Hk. lia.
Qed.

(** The turn at the end of a line that a continuation follows. *)
Lemma value_turn_continue e c rest val :
  e ≠ Eof → is_continuation c →
  value_turn (eol_text e ++ c ++ rest, [], val)
  = Again (behind Parser.is_space c ++ rest, leading Parser.is_space c, val ++ [LF]).
Proof.
  intros He (Hline & Hal & Hsp).
  assert (behind Parser.is_space c ≠ []) as Hne by (by intros E; rewrite E in Hsp).
  assert (c ≠ []) as Hc by (by intros ->).
  assert (in_line (hd NUL c) = true) as Hhd.
  { destruct c as [|x c]; [done|]. by apply Forall_cons in Hline as [? _]. }
  assert (eol_before e (c ++ rest)) as Hbefore
    by (apply eol_before_in_line; [done|by rewrite hd_app_more]).
  unfold value_turn.
  rewrite (leading_nil_hd in_line), (behind_id in_line);
    [|first [by apply eol_text_not_in_line|done]..].
  rewrite eat_eol by done.
  rewrite hd_app_more, Hal by done.
  rewrite behind_app_more, leading_app_more by done.
  rewrite hd_app_more by done. unfold in_line in Hsp.
  destruct (Parser.is_lineend _); [done|]. by rewrite !app_nil_r.
Qed.

Lemma value_loop_lines k more : ∀ first rest pre val,
  is_line first → Forall (λ ec, ec.1 ≠ Eof ∧ is_continuation ec.2) more →
  Parser.is_lineend (hd NUL rest) = true →
  length (first ++ lines_text more ++ rest) < k →
  loop k (λ s, Ok (value_turn s)) (first ++ lines_text more ++ rest, pre, val)
  = loop k (λ s, Ok (value_turn s))
      (rest, [], val ++ pre ++ join_lines first (map snd more)).
Proof.
  induction more as [|[e c] more IH]; intros first rest pre val Hfirst Hmore Hrest Hk.
  - cbn. unfold join_lines. cbn. rewrite app_nil_r. by apply value_loop_line.
  - apply Forall_cons in Hmore as [[He Hc] Hmore]. cbn [fst snd] in He, Hc.
    assert (eol_before e (c ++ lines_text more ++ rest)) as Hbefore.
    { apply eol_before_in_line; [done|]. destruct Hc as (Hline & _ & Hsp).
      destruct c as [|x c]; [done|]. by apply Forall_cons in Hline as [? _]. }
    assert (lines_text ((e, c) :: more) = eol_text e ++ c ++ lines_text more) as Etext.
    { unfold lines_text. cbn. by rewrite <- app_assoc. }
    rewrite Etext in *. rewrite <- !app_assoc in *.
    rewrite !length_app in Hk.
    rewrite value_loop_line; [|done|by apply eol_text_lineend|rewrite !length_app; lia].
    rewrite value_loop_unfold by (cbn; rewrite !length_app; lia).
    rewrite value_turn_continue by done.
    pose proof Hc as (Hline & _ & _).
    pose proof (leading_behind Parser.is_space c) as Ec.
    assert (is_line (behind Parser.is_space c)) as Hb.
    { unfold is_line in *. rewrite <- Ec in Hline. by apply Forall_app in Hline as [_ ?]. }
    pose proof (behind_length Parser.is_space c).
    rewrite <- app_assoc.
    rewrite IH; [|done|done|done|rewrite !length_app; lia].
    f_equal. f_equal. cbn [map snd].
    unfold join_lines. cbn [map concat]. rewrite <- !app_assoc. cbn [app].
    do 3 f_equal. by rewrite (app_assoc (leading _ _)), Ec.
Qed.

Lemma value_loop_end k rest l' val :
  Parser.is_lineend (hd NUL rest) = true → value_end rest = Some l' →
  length rest < k →
  loop k (λ s, Ok (value_turn s)) (rest, [], val) = Ok (l', val).
Proof.
  intros Hrest Hend Hk. rewrite value_loop_unfold by done.
  unfold value_turn, value_end in *.
  rewrite (leading_nil_hd in_line), (behind_id in_line);
    [|first [by unfold in_line; rewrite Hrest|done]..].
  rewrite !app_nil_r. revert Hend.
  destruct (Parser.is_alphanum (hd NUL (eat LF (eat CR rest)))).
  { intros [= <-]. done. }
  destruct (Parser.is_lineend (hd NUL (behind Parser.is_space (eat LF (eat CR rest))))).
  { intros [= <-]. done. }
  done.
Qed.

(** The value of well-formed lines. *)
Lemma read_value_lines k first more rest l' :
  is_line first → Forall (λ ec, ec.1 ≠ Eof ∧ is_continuation ec.2) more →
  Parser.is_lineend (hd NUL rest) = true → value_end rest = Some l' →
  length (first ++ lines_text more ++ rest) < k →
  read_value k (first ++ lines_text more ++ rest)
  = Ok (l', join_lines first (map snd more)).
Proof.
  intros Hfirst Hmore Hrest Hend Hk. unfold read_value.
  rewrite value_loop_lines by done. cbn [app].
  apply value_loop_end; [done..|]. rewrite !length_app in Hk. lia.
Qed.

Lemma is_alphanum_not_blank c : Parser.is_alphanum c = true → Parser.is_blank c = false.
Proof.
  intros H. unfold Parser.is_blank.
  destruct (Ascii.eqb_spec c LF) as [E|_]; [by rewrite E in H|].
  destruct (Ascii.eqb_spec c CR) as [E|_]; [by rewrite E in H|].
  destruct (Ascii.eqb_spec c SP) as [E|_]; [by rewrite E in H|].
  destruct (Ascii.eqb_spec c HT) as [E|_]; [by rewrite E in H|done].
Qed.

Lemma is_blank_cases c :
  Parser.is_blank c = true → Parser.is_space c = true ∨ c = CR ∨ c = LF.
Proof.
  unfold Parser.is_blank, Parser.is_space.
  destruct (Ascii.eqb_spec c LF) as [E|_]; [by auto|].
  destruct (Ascii.eqb_spec c CR) as [E|_]; [by auto|].
  cbn. auto.
Qed.

Lemma is_blank_not_alphanum c : Parser.is_blank c = true → Parser.is_alphanum c = false.
Proof.
  intros H. destruct (Parser.is_alphanum c) eqn:E; [|done].
  apply is_alphanum_not_blank in E. congruence.
Qed.

Lemma is_lineend_not_space c : Parser.is_lineend c = true → Parser.is_space c = false.
Proof.
  intros H. destruct (Parser.is_space c) eqn:E; [|done].
  apply is_space_in_line in E. unfold in_line in E. by rewrite H in E.
Qed.

(** Behind the blanks of a gap there is nothing or a line break. *)
Lemma gap_behind_lineend gap :
  Forall (λ c, Parser.is_blank c = true) gap →
  Parser.is_lineend (hd NUL (behind Parser.is_space gap)) = true.
Proof.
  induction 1 as [|c gap Hc _ IH]; cbn [behind]; [done|].
  destruct (Parser.is_space c) eqn:E; [done|]. cbn [hd].
  destruct (is_blank_cases c Hc) as [?|[->| ->]]; [congruence|done..].
Qed.

Lemma gap_behind_blank gap :
  Forall (λ c, Parser.is_blank c = true) gap →
  Forall (λ c, Parser.is_blank c = true) (behind Parser.is_space gap).
Proof.
  intros H. rewrite <- (leading_behind Parser.is_space gap) in H.
  by apply Forall_app in H as [_ ?].
Qed.

Lemma value_end_field e next :
  eol_before e next → Parser.is_alphanum (hd NUL next) = true →
  value_end (eol_text e ++ next) = Some next.
Proof. intros He H. unfold value_end. rewrite eat_eol by done. by rewrite H. Qed.

Lemma value_end_gap e gap next :
  Forall (λ c, Parser.is_blank c = true) gap →
  eol_before e (gap ++ next) →
  (behind Parser.is_space gap = [] → next = []) →
  value_end (eol_text e ++ gap ++ next) = Some (behind Parser.is_space gap ++ next).
Proof.
  intros Hgap He Hnext. unfold value_end. rewrite eat_eol by done.
  pose proof (gap_behind_lineend gap Hgap) as Hle.
  destruct (behind Parser.is_space gap) as [|c l] eqn:Eb.
  - rewrite (Hnext eq_refl), app_nil_r in *. cbn [app].
    assert (Parser.is_alphanum (hd NUL gap) = false) as ->.
    { destruct Hgap as [|x gap Hx _]; [done|]. by apply is_blank_not_alphanum. }
    by rewrite Eb.
  - assert (behind Parser.is_space gap ≠ []) as Hne by (by rewrite Eb).
    rewrite behind_app_more by done. rewrite Eb in *.
    assert (Parser.is_alphanum (hd NUL (gap ++ next)) = false) as ->.
    { destruct Hgap as [|x gap Hx _]; [done|]. by apply is_blank_not_alphanum. }
    cbn [app hd] in *. by rewrite Hle.
Qed.

(** *** Fields *)

Lemma field_value_start f rest :
  field_wf f → Parser.is_lineend (hd NUL rest) = true →
  Parser.is_space (hd NUL (fs_first f ++ lines_text (fs_more f) ++ rest)) = false.
Proof.
  intros (_ & _ & _ & Hfirst & Hmore) Hrest.
  destruct (fs_first f) as [|c first]; [|done]. cbn [app].
  destruct Hmore as [|[e c] more [He _] _]; cbn.
  - by apply is_lineend_not_space.
  - unfold lines_text. cbn. by destruct e.
Qed.

Lemma read_name_field f rest :
  field_wf f → Parser.is_lineend (hd NUL rest) = true →
  read_name (field_text f ++ rest)
  = Ok (fs_first f ++ lines_text (fs_more f) ++ rest, fs_name f).
Proof.
  intros Hwf Hrest. pose proof (field_value_start f rest Hwf Hrest) as Hstart.
  destruct Hwf as (Hname & Hpad & _).
  unfold read_name, field_text. rewrite <- !app_assoc. cbn [app].
  rewrite leading_app_stop, behind_app_stop by done.
  change (Ascii.eqb ":" ":") with true. cbv iota.
  rewrite <- !app_assoc. by rewrite behind_app_stop.
Qed.

Lemma field_text_length f rest :
  length (fs_first f ++ lines_text (fs_more f) ++ rest) < length (field_text f ++ rest).
Proof. unfold field_text. rewrite !length_app. cbn. rewrite !length_app. lia. Qed.

Lemma fields_turn_field k f rest l' fields :
  field_wf f → fs_name f ∉ fields.*1 →
  Parser.is_lineend (hd NUL rest) = true → value_end rest = Some l' →
  length (field_text f ++ rest) < k →
  fields_turn k (field_text f ++ rest, fields)
  = Ok (if in_line (hd NUL l') then Again (l', fields ++ [field_entry f])
        else Leave (l', fields ++ [field_entry f])).
Proof.
  intros Hwf Hnew Hrest Hend Hk. unfold fields_turn.
  rewrite read_name_field by done. cbn [mbind result_bind].
  apply find_None in Hnew. rewrite Hnew.
  pose proof (field_text_length f rest).
  destruct Hwf as (_ & _ & Hfirst & _ & Hmore).
  rewrite (read_value_lines k _ _ _ l') by (done || lia). cbn [mbind result_bind].
  by rewrite emplace_new.
Qed.

(** *** Paragraphs *)

Lemma is_namechar_not_blank c :
  is_namechar c = true ∨ c = ":"%char → Parser.is_blank c = false ∧ c ≠ NUL.
Proof.
  intros H. split.
  - unfold Parser.is_blank.
    destruct (Ascii.eqb_spec c LF) as [E|_]; [rewrite E in H; by destruct H|].
    destruct (Ascii.eqb_spec c CR) as [E|_]; [rewrite E in H; by destruct H|].
    destruct (Ascii.eqb_spec c SP) as [E|_]; [rewrite E in H; by destruct H|].
    destruct (Ascii.eqb_spec c HT) as [E|_]; [rewrite E in H; by destruct H|done].
  - intros E. rewrite E in H. by destruct H.
Qed.

(** A field begins with a character of its name, or with the colon. *)
Lemma field_text_start f rest :
  field_wf f →
  Parser.is_blank (hd NUL (field_text f ++ rest)) = false
  ∧ hd NUL (field_text f ++ rest) ≠ NUL.
Proof.
  intros (Hname & _). unfold field_text. apply is_namechar_not_blank.
  destruct Hname as [|c name Hc _]; [by right|by left].
Qed.

Lemma field_text_begins f rest :
  begins_field f → Parser.is_alphanum (hd NUL (field_text f ++ rest)) = true.
Proof.
  unfold begins_field, field_text. by destruct (fs_name f) as [|c name].
Qed.

Lemma par_text_cons f e p :
  par_text ((f, e) :: p) = field_text f ++ eol_text e ++ par_text p.
Proof. unfold par_text. cbn. by rewrite <- app_assoc. Qed.

Lemma par_text_hd p next :
  Forall (λ fe, begins_field fe.1) p → Parser.is_alphanum (hd NUL next) = true →
  Parser.is_alphanum (hd NUL (par_text p ++ next)) = true.
Proof.
  intros Hp Hnext. destruct Hp as [|[f e] p Hf _]; [done|].
  rewrite par_text_cons, <- app_assoc. by apply field_text_begins.
Qed.

Lemma par_eols_ok_app next p1 p2 :
  par_eols_ok next (p1 ++ p2) ↔ par_eols_ok (par_text p2 ++ next) p1 ∧ par_eols_ok next p2.
Proof.
  induction p1 as [|[f e] p1 IH]; cbn [app par_eols_ok]; [tauto|].
  rewrite IH. unfold par_text. rewrite map_app, concat_app, <- app_assoc. tauto.
Qed.

(** The fields in front of another field are read one after the other. *)
Lemma fields_loop_prefix k p : ∀ next fields,
  fields_wf p → NoDup (fields.*1 ++ par_names p) →
  par_eols_ok next p →
  Parser.is_alphanum (hd NUL next) = true →
  length (par_text p ++ next) < k →
  loop k (fields_turn k) (par_text p ++ next, fields)
  = loop k (fields_turn k) (next, fields ++ par_entries p).
Proof.
  induction p as [|[f e] p IH]; intros next fields [Hwf Hbegin] Hnodup Heols Hnext Hk.
  - cbn. by rewrite app_nil_r.
  - apply Forall_cons in Hwf as [Hf Hwf]. cbn [fst tail] in Hf, Hbegin.
    destruct Heols as [He Heols].
    rewrite par_text_cons, <- !app_assoc in *.
    pose proof (par_text_hd p next Hbegin Hnext) as Hhd.
    assert (fs_name f ∉ fields.*1) as Hnew.
    { apply NoDup_app in Hnodup as (_ & Hdisj & _). intros Hin.
      apply (Hdisj _ Hin). cbn. apply list_elem_of_here. }
    rewrite fields_loop_unfold by done.
    rewrite (fields_turn_field k f _ (par_text p ++ next));
      [|done|done|by apply eol_text_lineend|by apply value_end_field|done].
    rewrite (is_alphanum_in_line _ Hhd).
    rewrite IH; [| | |done|done|].
    + cbn. by rewrite <- app_assoc.
    + split; [done|]. by apply Forall_tail.
    + rewrite fmap_app. cbn. rewrite <- app_assoc. exact Hnodup.
    + rewrite !length_app in Hk. rewrite length_app. lia.
Qed.

Lemma fields_wf_snoc p f e :
  fields_wf (p ++ [(f, e)]) →
  fields_wf p ∧ field_wf f ∧ (p ≠ [] → begins_field f).
Proof.
  intros [Hwf Hbegin]. rewrite Forall_app, Forall_singleton in Hwf.
  destruct Hwf as [Hwf Hf]. destruct p as [|fe p]; [by split_and!|].
  cbn [app tail] in Hbegin. rewrite Forall_app, Forall_singleton in Hbegin.
  destruct Hbegin as [Hbegin Hbf]. by split_and!.
Qed.

Lemma read_fields_par k p gap next :
  par_wf p → par_eols_ok (gap ++ next) p →
  Forall (λ c, Parser.is_blank c = true) gap →
  (behind Parser.is_space gap = [] → next = []) →
  length (par_text p ++ gap ++ next) < k →
  read_fields k (par_text p ++ gap ++ next)
  = Ok (behind Parser.is_space gap ++ next, par_entries p).
Proof.
  intros (Hne & Hwf & Hnodup) Heols Hgap Hnext Hk.
  destruct (exists_last Hne) as (p0 & [f e] & ->).
  apply par_eols_ok_app in Heols as [Heols0 [He _]].
  unfold par_text in Heols0, He. cbn [map concat app] in Heols0, He.
  rewrite app_nil_r, <- app_assoc in Heols0.
  apply fields_wf_snoc in Hwf as (Hwf0 & Hf & Hbf).
  assert (par_text (p0 ++ [(f, e)]) = par_text p0 ++ field_text f ++ eol_text e) as Etext.
  { unfold par_text. rewrite map_app, concat_app. cbn. by rewrite app_nil_r. }
  rewrite Etext, <- !app_assoc in *.
  unfold par_names in Hnodup. rewrite map_app in Hnodup.
  unfold read_fields.
  assert (loop k (fields_turn k)
            (par_text p0 ++ field_text f ++ eol_text e ++ gap ++ next, [])
          = loop k (fields_turn k)
              (field_text f ++ eol_text e ++ gap ++ next, par_entries p0)) as ->.
  { destruct p0 as [|fe0 p0]; [done|].
    rewrite fields_loop_prefix; [done|done| |done| |done].
    - cbn [fmap list_fmap app]. by apply NoDup_app in Hnodup as (? & _ & _).
    - by apply field_text_begins, Hbf. }
  rewrite !length_app in Hk.
  rewrite fields_loop_unfold by (cbn; rewrite !length_app; lia).
  rewrite (fields_turn_field k f _ (behind Parser.is_space gap ++ next));
    [|done| |by apply eol_text_lineend| |rewrite !length_app; lia].
  - assert (in_line (hd NUL (behind Parser.is_space gap ++ next)) = false) as ->; [|
      unfold par_entries; by rewrite map_app].
    pose proof (gap_behind_lineend gap Hgap) as Hle.
    destruct (behind Parser.is_space gap) as [|c l] eqn:Eb.
    + by rewrite (Hnext eq_refl).
    + cbn in *. unfold in_line. by rewrite Hle.
  - apply NoDup_app in Hnodup as (_ & Hdisj & _). intros Hin.
    unfold par_entries in Hin. rewrite <- list_fmap_compose in Hin.
    apply (Hdisj (fs_name f)); [exact Hin|]. cbn. apply list_elem_of_here.
  - by apply value_end_gap.
Qed.

(** *** Documents *)

Lemma doc_loop_blank k gap : ∀ next doc,
  Forall (λ c, Parser.is_blank c = true) gap →
  length (gap ++ next) < k →
  loop k (doc_turn k) (gap ++ next, doc) = loop k (doc_turn k) (next, doc).
Proof.
  induction gap as [|c gap IH]; intros next doc Hgap Hk; [done|].
  apply Forall_cons in Hgap as [Hc Hgap].
  rewrite doc_loop_unfold by done. cbn [app doc_turn].
  rewrite (is_blank_not_NUL c Hc), Hc. apply IH; [done|]. cbn in Hk. lia.
Qed.

Lemma par_text_start p rest :
  par_wf p →
  Parser.is_blank (hd NUL (par_text p ++ rest)) = false
  ∧ hd NUL (par_text p ++ rest) ≠ NUL.
Proof.
  intros (Hne & [Hwf _] & _). destruct Hwf as [|[f e] p Hf _]; [done|].
  rewrite par_text_cons, <- !app_assoc. by apply field_text_start.
Qed.

Lemma doc_turn_fields k l doc :
  Parser.is_blank (hd NUL l) = false → hd NUL l ≠ NUL →
  doc_turn k (l, doc)
  = '(l', fields) ← read_fields k l; Ok (Again (l', doc ++ [fields])).
Proof.
  intros Hblank Hnul. unfold doc_turn. destruct l as [|c l]; [done|].
  cbn in *. destruct (Ascii.eqb_spec c NUL) as [E|_]; [done|]. by rewrite Hblank.
Qed.

Lemma doc_loop_par k p gap next doc :
  par_wf p → par_eols_ok (gap ++ next) p →
  Forall (λ c, Parser.is_blank c = true) gap →
  (behind Parser.is_space gap = [] → next = []) →
  length (par_text p ++ gap ++ next) < k →
  loop k (doc_turn k) (par_text p ++ gap ++ next, doc)
  = loop k (doc_turn k) (next, doc ++ [par_entries p]).
Proof.
  intros Hp Heols Hgap Hnext Hk.
  rewrite doc_loop_unfold by done.
  pose proof (read_fields_par k p gap next Hp Heols Hgap Hnext Hk) as Hread.
  assert (length (behind Parser.is_space gap ++ next) < k) as Hk'.
  { rewrite !length_app in Hk. pose proof (behind_length Parser.is_space gap).
    rewrite length_app. lia. }
  destruct (par_text_start p (gap ++ next) Hp) as [Hblank Hnul].
  rewrite doc_turn_fields, Hread by done.
  cbn [mbind result_bind].
  apply doc_loop_blank; [by apply gap_behind_blank|done].
Qed.

Lemma doc_loop_doc k d : ∀ rest doc,
  doc_wf rest d →
  length (doc_text d ++ rest) < k →
  loop k (doc_turn k) (doc_text d ++ rest, doc)
  = loop k (doc_turn k) (rest, doc ++ doc_entries d).
Proof.
  induction d as [|[p gap] d IH]; intros rest doc Hwf Hk.
  - cbn. by rewrite app_nil_r.
  - destruct Hwf as (Hp & Heols & Hgap & Hnext & Hd).
    cbn [doc_text] in *. rewrite <- !app_assoc in *.
    rewrite doc_loop_par by done.
    rewrite IH; [|done|rewrite !length_app in *; lia].
    cbn. by rewrite <- app_assoc.
Qed.

(** The parser on a well-formed document, with anything behind it. *)
Lemma read_doc_prefix k lead d rest :
  Forall (λ c, Parser.is_blank c = true) lead → doc_wf rest d →
  length (lead ++ doc_text d ++ rest) < k →
  read_doc k (lead ++ doc_text d ++ rest)
  = loop k (doc_turn k) (rest, doc_entries d).
Proof.
  intros Hlead Hwf Hk. unfold read_doc.
  rewrite doc_loop_blank by done.
  rewrite doc_loop_doc; [done|done|]. rewrite length_app in Hk. lia.
Qed.

Lemma run_parser_doc lead d :
  Forall (λ c, Parser.is_blank c = true) lead → doc_wf [] d →
  run_parser (lead ++ doc_text d) = Ok (doc_entries d).
Proof.
  intros Hlead Hwf. rewrite run_parser_read_doc.
  rewrite <- (app_nil_r (doc_text d)) at 2.
  rewrite read_doc_prefix; [done|done|done|].
  rewrite app_nil_r. lia.
Qed.

(** Well-formedness of a text that is given in full. *)
Ltac solve_wf :=
  cbn; repeat first [ done | by apply (bool_decide_unpack _) | split | constructor ].

(** A document whose first paragraph begins with ['-'] and has a value
    with an empty first line, and whose last line ends with the input. *)
Example three_terminators :
  run_parser
    ([LF; SP] ++ str "-x:" ++ [CR; LF; HT] ++ str "more" ++ [CR] ++ str "B:  2" ++ [LF]
     ++ [SP; LF; LF] ++ str ": v")
  = Ok [[(str "-x", [LF; HT] ++ str "more"); (str "B", str "2")]; [([], str "v")]].
Proof.
  apply (run_parser_doc [LF; SP]
    [([(mk_field (str "-x") [] [] [(CrLf, HT :: str "more")], Cr);
       (mk_field (str "B") [SP; SP] (str "2") [], Lf)], [SP; LF; LF]);
     ([(mk_field [] [SP] (str "v") [], Eof)], [])]); solve_wf.
Qed.

(** ** A last line of blanks *)

Lemma get_fieldvalue_blank_tail fuel line e ws :
  e ≠ Eof → is_line line → Forall (λ c, Parser.is_space c = true) ws →
  length (line ++ eol_text e ++ ws) < fuel →
  Parser.get_fieldvalue fuel (at_ (line ++ eol_text e ++ ws)) = Ok (at_ [], line).
Proof.
  intros He Hline Hws Hfuel. rewrite get_fieldvalue_at by done.
  assert (eol_before e ws) as Hbefore.
  { destruct e; [done|done| |done]. destruct Hws as [|c ws Hc _]; [done|].
    cbn. by intros ->. }
  pose proof (read_value_lines fuel line [] (eol_text e ++ ws) []) as H.
  cbn [lines_text map concat app] in H. rewrite H; [|done|constructor| | |done].
  - cbn. unfold join_lines. cbn. by rewrite app_nil_r.
  - by apply eol_text_lineend.
  - assert (Forall (λ c, Parser.is_blank c = true) ws) as Hblank.
    { eapply Forall_impl; [exact Hws|]. intros c Hc. unfold Parser.is_blank.
      unfold Parser.is_space in Hc. by destruct (Ascii.eqb c LF), (Ascii.eqb c CR). }
    assert (behind Parser.is_space ws = []) as Eb.
    { clear -Hws. induction Hws as [|c ws Hc _ IH]; cbn; [done|]. by rewrite Hc. }
    pose proof (value_end_gap e ws [] Hblank) as Hend.
    rewrite Eb, !app_nil_r in Hend. by apply Hend.
Qed.

(** ** Where a check fails *)

Lemma read_name_colon name rest :
  Forall (λ c, is_namechar c = true) name →
  read_name (name ++ ":"%char :: rest) = Ok (behind Parser.is_space rest, name).
Proof.
  intros Hname. unfold read_name.
  by rewrite leading_app_stop, behind_app_stop.
Qed.

Lemma read_name_no_colon run rest :
  Forall (λ c, is_namechar c = true) run →
  is_namechar (hd NUL rest) = false → hd NUL rest ≠ ":"%char →
  read_name (run ++ rest) = Exit Expected_colon.
Proof.
  intros Hrun Hrest Hcolon. unfold read_name.
  rewrite behind_app_stop by done.
  destruct rest as [|c rest]; [done|]. cbn in Hcolon.
  by destruct (Ascii.eqb_spec c ":").
Qed.

Lemma par_names_entries p : (par_entries p).*1 = par_names p.
Proof. unfold par_entries, par_names. by rewrite <- list_fmap_compose. Qed.

Lemma par_name_wf p name :
  Forall (λ fe, field_wf fe.1) p → name ∈ par_names p →
  Forall (λ c, is_namechar c = true) name.
Proof.
  intros Hwf Hin. unfold par_names in Hin.
  apply list_elem_of_fmap in Hin as ([f e] & -> & Hin).
  rewrite Forall_forall in Hwf. by destruct (Hwf _ Hin) as (? & _).
Qed.

Lemma is_alphanum_hd_app (a b : list ascii) :
  Parser.is_alphanum (hd NUL a) = true → Parser.is_alphanum (hd NUL (a ++ b)) = true.
Proof. by destruct a. Qed.

(** In a paragraph whose fields so far are well formed, the parser reads
    them and comes to what follows them, if that begins a field. *)
Lemma read_fields_prefix k p next :
  fields_wf p → NoDup (par_names p) →
  par_eols_ok next p →
  Parser.is_alphanum (hd NUL next) = true →
  length (par_text p ++ next) < k →
  read_fields k (par_text p ++ next) = loop k (fields_turn k) (next, par_entries p).
Proof.
  intros Hwf Hnodup Heols Hnext Hk. unfold read_fields.
  by rewrite fields_loop_prefix.
Qed.

Lemma fields_text_start p next :
  fields_wf p → field_start p next →
  Parser.is_blank (hd NUL (par_text p ++ next)) = false
  ∧ hd NUL (par_text p ++ next) ≠ NUL.
Proof.
  intros [Hwf _] Hstart. destruct Hwf as [|[f e] p Hf _]; [done|].
  rewrite par_text_cons, <- !app_assoc. by apply field_text_start.
Qed.

(** ** NUL in the input *)

Section nul.
Variable junk : list ascii.

Lemma leading_cut f l : f NUL = false → leading f (l ++ NUL :: junk) = leading f l.
Proof.
  intros HN. induction l as [|c l IH]; cbn; [by rewrite HN|].
  destruct (f c); [by rewrite IH|done].
Qed.

Lemma behind_cut f l :
  f NUL = false → behind f (l ++ NUL :: junk) = behind f l ++ NUL :: junk.
Proof.
  intros HN. induction l as [|c l IH]; cbn; [by rewrite HN|].
  by destruct (f c).
Qed.

Lemma eat_cut c l : c ≠ NUL → eat c (l ++ NUL :: junk) = eat c l ++ NUL :: junk.
Proof.
  intros Hc. destruct l as [|c' l]; cbn [app eat].
  - destruct (Ascii.eqb_spec NUL c); [congruence|done].
  - by destruct (Ascii.eqb c' c).
Qed.

Lemma hd_cut l : hd NUL (l ++ NUL :: junk) = hd NUL l.
Proof. by destruct l. Qed.

Lemma value_turn_cut l pre val :
  value_turn (l ++ NUL :: junk, pre, val)
  = turn_map (λ s, (s.1.1 ++ NUL :: junk, s.1.2, s.2)) (λ r, (r.1 ++ NUL :: junk, r.2))
      (value_turn (l, pre, val)).
Proof.
  unfold value_turn.
  rewrite leading_cut, behind_cut, !eat_cut, hd_cut by done.
  destruct (Parser.is_alphanum _); [done|].
  rewrite leading_cut, behind_cut, hd_cut by done.
  by destruct (Parser.is_lineend _).
Qed.

Lemma read_value_cut k l :
  read_value k (l ++ NUL :: junk) = r ← read_value k l; Ok (r.1 ++ NUL :: junk, r.2).
Proof.
  unfold read_value.
  refine (loop_refine (λ s, (s.1.1 ++ NUL :: junk, s.1.2, s.2))
            (λ r, (r.1 ++ NUL :: junk, r.2))
            (λ s, Ok (value_turn s)) (λ s, Ok (value_turn s)) (λ _, True)
            _ _ k (l, [], []) _).
  - intros [[l1 pre] val] _. cbn [fst snd]. by rewrite value_turn_cut.
  - done.
  - done.
Qed.

Lemma read_name_cut l :
  read_name (l ++ NUL :: junk) = r ← read_name l; Ok (r.1 ++ NUL :: junk, r.2).
Proof.
  unfold read_name. rewrite leading_cut, behind_cut by done.
  destruct (behind is_namechar l) as [|c l']; [done|]. cbn [app].
  destruct (Ascii.eqb c ":"); [|done]. cbn [mbind result_bind fst snd].
  by rewrite behind_cut.
Qed.

Lemma fields_turn_cut k l fields :
  fields_turn k (l ++ NUL :: junk, fields)
  = t ← fields_turn k (l, fields);
    Ok (turn_map (λ s, (s.1 ++ NUL :: junk, s.2)) (λ r, (r.1 ++ NUL :: junk, r.2)) t).
Proof.
  unfold fields_turn. rewrite read_name_cut.
  destruct (read_name l) as [[l1 name]|e|]; cbn [mbind result_bind fst snd]; [|done..].
  destruct (find fields name); [done|].
  rewrite read_value_cut.
  destruct (read_value k l1) as [[l2 v]|e|]; cbn [mbind result_bind fst snd]; [|done..].
  rewrite hd_cut. by destruct (in_line _).
Qed.

Lemma read_fields_cut k l :
  read_fields k (l ++ NUL :: junk) = r ← read_fields k l; Ok (r.1 ++ NUL :: junk, r.2).
Proof.
  unfold read_fields.
  refine (loop_refine (λ s, (s.1 ++ NUL :: junk, s.2)) (λ r, (r.1 ++ NUL :: junk, r.2))
            (fields_turn k) (fields_turn k) (λ _, True) _ _ k (l, []) _).
  - intros [l1 fields] _. cbn [fst snd]. by rewrite fields_turn_cut.
  - done.
  - done.
Qed.

Lemma doc_turn_cut k l doc :
  NUL ∉ l →
  doc_turn k (l ++ NUL :: junk, doc)
  = t ← doc_turn k (l, doc);
    Ok (turn_map (λ s, (s.1 ++ NUL :: junk, s.2)) (λ r, (r.1 ++ NUL :: junk, r.2)) t).
Proof.
  intros Hl. unfold doc_turn. destruct l as [|c l]; [done|]. cbn [app].
  destruct (Ascii.eqb c NUL); [done|]. destruct (Parser.is_blank c); [done|].
  change (c :: l ++ NUL :: junk) with ((c :: l) ++ NUL :: junk).
  rewrite read_fields_cut.
  by destruct (read_fields k (c :: l)) as [[l2 fields]|e|].
Qed.

Lemma read_doc_cut k l :
  NUL ∉ l → length l < k →
  read_doc k (l ++ NUL :: junk) = r ← read_doc k l; Ok (r.1 ++ NUL :: junk, r.2).
Proof.
  intros Hl Hk. unfold read_doc.
  refine (loop_refine (λ s, (s.1 ++ NUL :: junk, s.2)) (λ r, (r.1 ++ NUL :: junk, r.2))
            (doc_turn k) (doc_turn k) (λ s, (NUL ∉ s.1) ∧ length (s.1) < k)
            _ _ k (l, []) _).
  - intros [l1 doc] [? _]. cbn [fst snd]. by apply doc_turn_cut.
  - intros [l1 doc] [l2 doc'] [Hl1 Hk1] E. cbn [fst] in *.
    pose proof (doc_turn_behind k l1 doc Hk1) as H. rewrite E in H.
    destruct H as [[pre ->] Hlt]. split; [|lia].
    intros Hin. apply Hl1. apply elem_of_app. by right.
  - done.
Qed.
End nul.

(** ** Carriage returns in front of the line feeds *)

Section with_cr.
Variable which : nat → bool.

Local Abbreviation cr := (with_cr which).

Lemma with_cr_cons c l : c ≠ LF → cr (c :: l) = c :: cr l.
Proof. intros H. cbn. by destruct (Ascii.eqb_spec c LF). Qed.

Lemma with_cr_LF l :
  cr (LF :: l) = if which (length l) then CR :: LF :: cr l else LF :: cr l.
Proof. done. Qed.

Lemma with_cr_length l : length l ≤ length (cr l).
Proof.
  induction l as [|c l IH]; cbn; [done|].
  destruct (Ascii.eqb c LF && which (length l)); cbn; lia.
Qed.

Lemma with_cr_suffix l' l : l' `suffix_of` l → length (cr l') ≤ length (cr l).
Proof.
  intros [pre ->]. induction pre as [|c pre IH]; cbn; [done|].
  destruct (Ascii.eqb c LF && which _); cbn; lia.
Qed.

Lemma leading_with_cr f l :
  f LF = false → f CR = false → leading f (cr l) = leading f l.
Proof.
  intros HLF HCR. induction l as [|c l IH]; [done|].
  destruct (Ascii.eqb_spec c LF) as [->|Hne].
  - rewrite with_cr_LF. cbn. rewrite HLF. by destruct (which _); cbn; rewrite ?HCR, ?HLF.
  - rewrite with_cr_cons by done. cbn. destruct (f c); [by rewrite IH|done].
Qed.

Lemma behind_with_cr f l :
  f LF = false → f CR = false → behind f (cr l) = cr (behind f l).
Proof.
  intros HLF HCR. induction l as [|c l IH]; [done|].
  destruct (Ascii.eqb_spec c LF) as [->|Hne].
  - cbn [behind]. rewrite HLF, with_cr_LF.
    by destruct (which _); cbn [behind]; rewrite ?HCR, ?HLF.
  - rewrite with_cr_cons by done. cbn [behind].
    destruct (f c); [done|]. by rewrite with_cr_cons.
Qed.

Lemma eat_with_cr l : CR ∉ l → eat LF (eat CR (cr l)) = cr (eat LF (eat CR l)).
Proof.
  intros Hl. destruct l as [|c l]; [done|].
  destruct (Ascii.eqb_spec c LF) as [->|Hne].
  - rewrite with_cr_LF. by destruct (which _).
  - rewrite with_cr_cons by done. cbn [eat].
    destruct (Ascii.eqb_spec c CR) as [->|_].
    + exfalso. apply Hl, list_elem_of_here.
    + cbn [eat]. destruct (Ascii.eqb_spec c LF); [done|]. by rewrite with_cr_cons.
Qed.

(** No test of the scanner tells the first character of [cr l] from the
    first character of [l]. *)
Lemma hd_with_cr (f : ascii → bool) l :
  f CR = f LF → f (hd NUL (cr l)) = f (hd NUL l).
Proof.
  intros Hf. destruct l as [|c l]; [done|].
  destruct (Ascii.eqb_spec c LF) as [->|Hne].
  - rewrite with_cr_LF. by destruct (which _).
  - by rewrite with_cr_cons.
Qed.

Lemma not_elem_of_suffix (c : ascii) (l' l : list ascii) :
  l' `suffix_of` l → c ∉ l → c ∉ l'.
Proof. intros [pre ->] H Hin. apply H, elem_of_app. by right. Qed.

Lemma value_turn_with_cr l pre val :
  CR ∉ l →
  value_turn (cr l, pre, val)
  = turn_map (λ s, (cr s.1.1, s.1.2, s.2)) (λ r, (cr r.1, r.2))
      (value_turn (l, pre, val)).
Proof.
  intros Hl. unfold value_turn.
  rewrite leading_with_cr, behind_with_cr by done.
  rewrite eat_with_cr by (eapply not_elem_of_suffix; [apply behind_suffix|done]).
  rewrite (hd_with_cr Parser.is_alphanum) by done.
  destruct (Parser.is_alphanum _); [done|].
  rewrite leading_with_cr, behind_with_cr by done.
  rewrite (hd_with_cr Parser.is_lineend) by done.
  by destruct (Parser.is_lineend _).
Qed.

Lemma value_turn_no_CR s s' :
  CR ∉ s.1.1 → value_turn s = Again s' → CR ∉ s'.1.1.
Proof.
  destruct s as [[l pre] val], s' as [[l' pre'] val']. cbn [fst]. intros Hl E.
  pose proof (value_turn_behind l pre val) as H. rewrite E in H.
  destruct H as [H _]. by eapply not_elem_of_suffix.
Qed.

Lemma read_value_with_cr k l :
  CR ∉ l → read_value k (cr l) = r ← read_value k l; Ok (cr r.1, r.2).
Proof.
  intros Hl. unfold read_value.
  refine (loop_refine (λ s, (cr s.1.1, s.1.2, s.2)) (λ r, (cr r.1, r.2))
            (λ s, Ok (value_turn s)) (λ s, Ok (value_turn s)) (λ s, CR ∉ s.1.1)
            _ _ k (l, [], []) _).
  - intros [[l1 pre] val] H1. cbn [fst snd] in *. by rewrite value_turn_with_cr.
  - intros s s' H1 [= E]. by eapply value_turn_no_CR.
  - done.
Qed.

Lemma read_name_with_cr l :
  CR ∉ l → read_name (cr l) = r ← read_name l; Ok (cr r.1, r.2).
Proof.
  intros Hl. unfold read_name. rewrite leading_with_cr, behind_with_cr by done.
  destruct (behind is_namechar l) as [|c l']; [done|].
  destruct (Ascii.eqb_spec c LF) as [->|Hne].
  - rewrite with_cr_LF. by destruct (which _).
  - rewrite with_cr_cons by done.
    destruct (Ascii.eqb c ":"); [|done]. cbn [mbind result_bind fst snd].
    by rewrite behind_with_cr.
Qed.

Lemma fields_turn_with_cr k l fields :
  CR ∉ l →
  fields_turn k (cr l, fields)
  = t ← fields_turn k (l, fields);
    Ok (turn_map (λ s, (cr s.1, s.2)) (λ r, (cr r.1, r.2)) t).
Proof.
  intros Hl. unfold fields_turn. rewrite read_name_with_cr by done.
  destruct (read_name l) as [[l1 name]|e|] eqn:Hname;
    cbn [mbind result_bind fst snd]; [|done..].
  apply read_name_behind in Hname as (Hs1 & _).
  destruct (find fields name); [done|].
  rewrite read_value_with_cr by (by eapply not_elem_of_suffix).
  destruct (read_value k l1) as [[l2 v]|e|]; cbn [mbind result_bind fst snd]; [|done..].
  rewrite (hd_with_cr in_line) by done. by destruct (in_line _).
Qed.

Lemma read_fields_with_cr k l :
  CR ∉ l → length l < k →
  read_fields k (cr l) = r ← read_fields k l; Ok (cr r.1, r.2).
Proof.
  intros Hl Hk. unfold read_fields.
  refine (loop_refine (λ s, (cr s.1, s.2)) (λ r, (cr r.1, r.2))
            (fields_turn k) (fields_turn k) (λ s, (CR ∉ s.1) ∧ length (s.1) < k)
            _ _ k (l, []) _).
  - intros [l1 fields] [H1 _]. cbn [fst snd] in *. by rewrite fields_turn_with_cr.
  - intros [l1 fields] [l2 fields'] [H1 Hk1] E. cbn [fst] in *.
    pose proof (fields_turn_behind k l1 fields Hk1) as H. rewrite E in H.
    destruct H as [Hs Hlt]. split; [by eapply not_elem_of_suffix|lia].
  - done.
Qed.

(** The document loop takes two turns over ["\r\n"] where it takes one
    over ['\n']. *)
Lemma doc_loop_with_cr k n : ∀ l doc,
  length l < n → CR ∉ l → length (cr l) < k →
  loop k (doc_turn k) (cr l, doc)
  = r ← loop k (doc_turn k) (l, doc); Ok (cr r.1, r.2).
Proof.
  induction n as [|n IH]; intros l doc Hn Hl Hk; [lia|].
  pose proof (with_cr_length l) as Hlen.
  rewrite (doc_loop_unfold k (l, doc)) by (cbn; lia).
  destruct l as [|c l].
  { rewrite doc_loop_unfold by (cbn in *; lia). reflexivity. }
  assert (CR ∉ l) as Hl' by (by apply not_elem_of_cons in Hl as [_ ?]).
  cbn [length] in Hn.
  destruct (Ascii.eqb_spec c LF) as [->|Hne].
  - rewrite with_cr_LF in *. cbn [doc_turn].
    change (Ascii.eqb LF NUL) with false. change (Parser.is_blank LF) with true.
    cbv iota. destruct (which (length l)); cbn [length] in Hk.
    + rewrite doc_loop_unfold by (cbn; lia). cbn [doc_turn].
      change (Ascii.eqb CR NUL) with false. change (Parser.is_blank CR) with true.
      cbv iota. rewrite doc_loop_unfold by (cbn; lia). cbn [doc_turn].
      change (Ascii.eqb LF NUL) with false. change (Parser.is_blank LF) with true.
      cbv iota. apply IH; [lia|done|lia].
    + rewrite doc_loop_unfold by (cbn; lia). cbn [doc_turn].
      change (Ascii.eqb LF NUL) with false. change (Parser.is_blank LF) with true.
      cbv iota. apply IH; [lia|done|lia].
  - rewrite with_cr_cons in * by done. cbn [length] in Hk.
    rewrite doc_loop_unfold by (cbn; lia). cbn [doc_turn].
    destruct (Ascii.eqb c NUL);
      [cbn [mbind result_bind fst snd]; by rewrite with_cr_cons|].
    destruct (Parser.is_blank c); [apply IH; [lia|done|lia]|].
    rewrite <- (with_cr_cons c l) by done.
    cbn [length] in Hlen.
    rewrite read_fields_with_cr by (done || (cbn [length]; lia)).
    pose proof (read_fields_spec k (c :: l) (c :: l)) as Hspec.
    destruct (read_fields k (c :: l)) as [[l2 fields]|e|];
      cbn [mbind result_bind fst snd]; [|done..].
    destruct Hspec as (Hs & Hlt & _); [cbn; lia|done|]. cbn [length] in Hlt.
    pose proof (suffix_length _ _ Hs) as Hle. cbn [length] in Hle.
    apply IH; [lia|by eapply not_elem_of_suffix|].
    pose proof (with_cr_suffix _ _ Hs) as Hle'.
    rewrite with_cr_cons in Hle' by done. cbn [length] in Hle'. lia.
Qed.

Lemma run_parser_with_cr s : CR ∉ s → run_parser (cr s) = run_parser s.
Proof.
  intros Hs. rewrite !run_parser_read_doc. unfold read_doc.
  pose proof (with_cr_length s) as Hlen.
  rewrite (doc_loop_with_cr _ (S (length s))) by (done || lia).
  fold (read_doc (S (length (cr s))) s).
  rewrite (read_doc_fuel _ (S (length s))) by lia.
  unfold read_doc. by destruct (loop _ _ _) as [[l' doc]|e|].
Qed.
End with_cr.

(** ** Further lemmas *)

(** ** Two loops side by side *)

Lemma loop_rel {S1 R1 S2 R2 : Type} (RS : S1 → S2 → Prop) (RR : R1 → R2 → Prop)
    (body1 : S1 → result (turn S1 R1)) (body2 : S2 → result (turn S2 R2)) :
  (∀ s1 s2, RS s1 s2 → result_rel (turn_rel RS RR) (body1 s1) (body2 s2)) →
  ∀ k s1 s2, RS s1 s2 → result_rel RR (loop k body1 s1) (loop k body2 s2).
Proof.
  intros Hbody k. induction k as [|k IH]; intros s1 s2 Hs; [done|].
  cbn [loop]. specialize (Hbody s1 s2 Hs).
  destruct (body1 s1) as [[s1'|r1]|e1|], (body2 s2) as [[s2'|r2]|e2|]; try done.
  by apply IH.
Qed.

(** ** The paragraphs read so far are kept *)

Lemma doc_turn_acc k l doc0 doc :
  doc_turn k (l, doc0 ++ doc)
  = t ← doc_turn k (l, doc);
    Ok (turn_map (λ s, (s.1, doc0 ++ s.2)) (λ r, (r.1, doc0 ++ r.2)) t).
Proof.
  unfold doc_turn. destruct l as [|c l]; [done|].
  destruct (Ascii.eqb c NUL); [done|]. destruct (Parser.is_blank c); [done|].
  destruct (read_fields k (c :: l)) as [[l' fields]|e|]; cbn; [|done..].
  by rewrite app_assoc.
Qed.

Lemma doc_loop_acc k l doc0 doc :
  loop k (doc_turn k) (l, doc0 ++ doc)
  = r ← loop k (doc_turn k) (l, doc); Ok (r.1, doc0 ++ r.2).
Proof.
  refine (loop_refine (λ s, (s.1, doc0 ++ s.2)) (λ r, (r.1, doc0 ++ r.2))
            (doc_turn k) (doc_turn k) (λ _, True) _ _ k (l, doc) _).
  - intros [l1 doc1] _. cbn [fst snd]. apply doc_turn_acc.
  - done.
  - done.
Qed.

Lemma doc_loop_from k l doc :
  loop k (doc_turn k) (l, doc) = r ← read_doc k l; Ok (r.1, doc ++ r.2).
Proof.
  unfold read_doc. rewrite <- doc_loop_acc. by rewrite app_nil_r.
Qed.

Lemma value_turn_next_line l pre val :
  value_turn (l, pre, val)
  = next_line (eat LF (eat CR (behind in_line l))) (val ++ pre ++ leading in_line l).
Proof. done. Qed.

Lemma is_space_blank c : Parser.is_space c = true → Parser.is_blank c = true.
Proof.
  unfold Parser.is_space, Parser.is_blank.
  destruct (Ascii.eqb c SP), (Ascii.eqb c HT); try done; by rewrite ?orb_true_r.
Qed.

Lemma next_line_nil val : next_line [] val = Leave ([], val).
Proof. done. Qed.

(** ** A text in front of a blank line *)

Section behind_text.
Variable e : eol.
Variable tail : list ascii.
Hypothesis He : e ≠ Eof.
Hypothesis Hbefore : eol_before e tail.
Hypothesis Htail : blank_line_first tail.

Local Abbreviation sep := (eol_text e ++ tail).

Lemma sep_cons : ∃ c rest, sep = c :: rest ∧ (c = CR ∨ c = LF).
Proof using He. clear Hbefore. destruct e; [| | |done]; cbn; eauto. Qed.

Lemma leading_sep f l :
  f CR = false → f LF = false → leading f (l ++ sep) = leading f l.
Proof using He.
  intros HCR HLF. destruct sep_cons as (c & rest & -> & Hc).
  induction l as [|c' l IH]; cbn.
  - by destruct Hc as [-> | ->]; rewrite ?HCR, ?HLF.
  - destruct (f c'); [by rewrite IH|done].
Qed.

Lemma behind_sep f l :
  f CR = false → f LF = false → behind f (l ++ sep) = behind f l ++ sep.
Proof using He.
  intros HCR HLF. destruct sep_cons as (c & rest & -> & Hc).
  induction l as [|c' l IH]; cbn.
  - by destruct Hc as [-> | ->]; rewrite ?HCR, ?HLF.
  - by destruct (f c').
Qed.

Lemma sep_blank : Forall (λ c, Parser.is_blank c = true) (eol_text e).
Proof. clear He Hbefore. destruct e; cbn; repeat constructor. Qed.

Lemma tail_not_alphanum : Parser.is_alphanum (hd NUL tail) = false.
Proof using Htail.
  clear He Hbefore. unfold blank_line_first in Htail. destruct tail as [|c t]; [done|].
  cbn [behind hd] in *. destruct (Parser.is_space c) eqn:E.
  - apply is_blank_not_alphanum. by apply is_space_blank.
  - cbn [hd] in Htail. destruct (Parser.is_alphanum c) eqn:Ea; [|done].
    apply is_alphanum_in_line in Ea. unfold in_line in Ea. by rewrite Htail in Ea.
Qed.

Lemma next_line_tail val : next_line tail val = Leave (behind Parser.is_space tail, val).
Proof using Htail.
  unfold next_line. rewrite tail_not_alphanum.
  unfold blank_line_first in Htail. by rewrite Htail.
Qed.

Lemma eat_sep l :
  eat LF (eat CR (l ++ sep)) = eat LF (eat CR l) ++ sep
  ∨ (eat LF (eat CR l) = [] ∧ eat LF (eat CR (l ++ sep)) = tail).
Proof using He Hbefore.
  destruct l as [|c l].
  - right. split; [done|]. by apply eat_eol.
  - cbn [app eat]. destruct (Ascii.eqb c CR).
    + destruct l as [|c' l].
      * cbn [app eat]. destruct e; [| | |done].
        -- right. done.
        -- left. done.
        -- left. done.
      * cbn [app eat]. left. by destruct (Ascii.eqb c' LF).
    + left. cbn [eat]. by destruct (Ascii.eqb c LF).
Qed.

Lemma next_line_sep l val :
  turn_rel (λ s sc, sc = (s.1.1 ++ sep, s.1.2, s.2))
           (λ r rc, joined e tail r.1 rc.1 ∧ rc.2 = r.2)
           (next_line l val) (next_line (l ++ sep) val).
Proof using He.
  assert (∀ val', next_line sep val' = Leave (sep, val')) as Hsep.
  { intros val'. unfold next_line. destruct sep_cons as (c & rest & -> & Hc).
    by destruct Hc as [-> | ->]. }
  destruct l as [|c l].
  - cbn [app]. rewrite Hsep. cbn. split; [by left|done].
  - unfold next_line. cbn [app hd].
    destruct (Parser.is_alphanum c).
    { cbn. split; [by left|done]. }
    change (c :: l ++ sep) with ((c :: l) ++ sep).
    rewrite behind_sep, leading_sep by done.
    destruct (behind Parser.is_space (c :: l)) as [|z l'].
    + cbn [app hd]. change (Parser.is_lineend NUL) with true. cbn match.
      assert (Parser.is_lineend (hd NUL sep) = true) as ->.
      { destruct sep_cons as (c0 & rest & -> & Hc). by destruct Hc as [-> | ->]. }
      cbn. split; [by left|done].
    + cbn [app hd]. destruct (Parser.is_lineend z); cbn; [|done].
      split; [by left|done].
Qed.

Lemma value_turn_sep l pre val :
  turn_rel (λ s sc, sc = (s.1.1 ++ sep, s.1.2, s.2))
           (λ r rc, joined e tail r.1 rc.1 ∧ rc.2 = r.2)
           (value_turn (l, pre, val)) (value_turn (l ++ sep, pre, val)).
Proof using He Hbefore Htail.
  rewrite !value_turn_next_line, leading_sep, behind_sep by done.
  destruct (eat_sep (behind in_line l)) as [-> | [E ->]].
  - apply next_line_sep.
  - rewrite E, next_line_nil, next_line_tail. cbn. split; [by right|done].
Qed.

Lemma read_value_sep k l :
  result_rel (λ r rc, joined e tail r.1 rc.1 ∧ rc.2 = r.2)
             (read_value k l) (read_value k (l ++ sep)).
Proof using He Hbefore Htail.
  unfold read_value.
  apply (loop_rel (λ s sc, sc = (s.1.1 ++ sep, s.1.2, s.2))); [|done].
  intros [[l1 pre] val] sc ->. cbn [fst snd result_rel]. apply value_turn_sep.
Qed.

Lemma read_name_sep l :
  read_name (l ++ sep) = r ← read_name l; Ok (r.1 ++ sep, r.2).
Proof using He.
  unfold read_name. rewrite leading_sep, behind_sep by done.
  destruct (behind is_namechar l) as [|c l'].
  - cbn [app]. destruct sep_cons as (c0 & rest & -> & Hc).
    by destruct Hc as [-> | ->].
  - cbn [app]. destruct (Ascii.eqb c ":"); [|done].
    cbn [mbind result_bind fst snd]. by rewrite behind_sep.
Qed.

Lemma sep_not_in_line : in_line (hd NUL sep) = false.
Proof using He.
  destruct sep_cons as (c0 & rest & -> & Hc). by destruct Hc as [-> | ->].
Qed.

Lemma fields_turn_sep k l fields :
  result_rel (turn_rel (λ s sc, sc = (s.1 ++ sep, s.2))
                       (λ r rc, joined e tail r.1 rc.1 ∧ rc.2 = r.2))
             (fields_turn k (l, fields)) (fields_turn k (l ++ sep, fields)).
Proof using He Hbefore Htail.
  unfold fields_turn. rewrite read_name_sep.
  destruct (read_name l) as [[l1 name]|e0|]; cbn [mbind result_bind fst snd]; [|done..].
  destruct (find fields name); [done|].
  pose proof (read_value_sep k l1) as H.
  destruct (read_value k l1) as [[l2 v]|e1|],
           (read_value k (l1 ++ sep)) as [[lc vc]|e2|]; cbn in H; try done.
  cbn [mbind result_bind]. destruct H as [Hj ->]. destruct Hj as [-> | [-> ->]].
  - destruct l2 as [|c l2].
    + cbn [app hd]. rewrite sep_not_in_line.
      change (in_line NUL) with false. cbn. split; [by left|done].
    + cbn [app hd]. destruct (in_line c); cbn; [done|]. split; [by left|done].
  - change (in_line (hd NUL [])) with false.
    unfold blank_line_first in Htail. unfold in_line. rewrite Htail.
    cbn. split; [by right|done].
Qed.

Lemma read_fields_sep k l :
  result_rel (λ r rc, joined e tail r.1 rc.1 ∧ rc.2 = r.2)
             (read_fields k l) (read_fields k (l ++ sep)).
Proof using He Hbefore Htail.
  unfold read_fields.
  apply (loop_rel (λ s sc, sc = (s.1 ++ sep, s.2))); [|done].
  intros [l1 fields] sc ->. cbn [fst snd]. apply fields_turn_sep.
Qed.

Lemma doc_loop_tail k lc doc :
  joined e tail [] lc → length sep < k →
  loop k (doc_turn k) (lc, doc) = loop k (doc_turn k) (tail, doc).
Proof using He.
  intros [-> | [_ ->]] Hk.
  - cbn [app]. apply doc_loop_blank; [apply sep_blank|done].
  - rewrite <- (leading_behind Parser.is_space tail) at 2.
    symmetry. apply doc_loop_blank.
    + eapply Forall_impl; [apply leading_Forall|]. apply is_space_blank.
    + rewrite leading_behind. rewrite length_app in Hk. lia.
Qed.

Lemma doc_loop_sep k : ∀ n l doc,
  length l ≤ n → NUL ∉ l → length (l ++ sep) < k →
  loop k (doc_turn k) (l ++ sep, doc)
  = r ← loop k (doc_turn k) (l, doc); loop k (doc_turn k) (tail, r.2).
Proof using He Hbefore Htail.
  induction n as [|n IH]; intros l doc Hn Hl Hk.
  - destruct l; [|cbn in Hn; lia].
    rewrite (doc_loop_unfold k ([], doc)) by (cbn; lia). cbn [doc_turn mbind result_bind snd].
    apply doc_loop_tail; [by left|done].
  - destruct l as [|c l].
    { rewrite (doc_loop_unfold k ([], doc)) by (cbn; lia).
      cbn [doc_turn mbind result_bind snd]. apply doc_loop_tail; [by left|done]. }
    assert (length (c :: l) < k) as Hk' by (rewrite length_app in Hk; lia).
    rewrite (doc_loop_unfold k ((c :: l) ++ sep, doc)) by done.
    rewrite (doc_loop_unfold k (c :: l, doc)) by done.
    cbn [app doc_turn].
    destruct (Ascii.eqb_spec c NUL) as [Ec|_].
    { exfalso. apply Hl. rewrite Ec. apply list_elem_of_here. }
    destruct (Parser.is_blank c).
    { apply IH; [cbn in Hn; lia| |cbn in Hk; lia].
      intros Hin. apply Hl. by apply list_elem_of_further. }
    change (c :: l ++ sep) with ((c :: l) ++ sep).
    pose proof (read_fields_sep k (c :: l)) as H.
    pose proof (read_fields_spec k (c :: l) (c :: l) Hk' (reflexivity _)) as Hspec.
    destruct (read_fields k (c :: l)) as [[l2 fields]|e1|],
             (read_fields k ((c :: l) ++ sep)) as [[lc fc]|e2|]; cbn in H; try done.
    + cbn [mbind result_bind]. destruct H as [Hj ->].
      destruct Hspec as (Hsuf & Hlt & _).
      destruct Hj as [-> | [-> ->]].
      * apply IH; [cbn in Hlt, Hn; lia| |].
        -- destruct Hsuf as [pre E]. intros Hin. apply Hl. rewrite E.
           apply elem_of_app. by right.
        -- rewrite length_app in *. cbn in Hlt, Hk. lia.
      * rewrite (doc_loop_unfold k ([], doc ++ [fields])) by (cbn; lia).
        cbn [doc_turn mbind result_bind snd].
        apply doc_loop_tail; [by right|].
        rewrite length_app in Hk. lia.
    + by rewrite H.
Qed.

(** The parser on a text without NUL that a blank line follows. *)
Lemma run_parser_sep a :
  NUL ∉ a →
  run_parser (a ++ sep) = da ← run_parser a; dt ← run_parser tail; Ok (da ++ dt).
Proof using He Hbefore Htail.
  intros Ha. rewrite !run_parser_read_doc. unfold read_doc at 1.
  set (k := S (length (a ++ sep))).
  assert (length a < k ∧ length tail < k) as [Hka Hkt].
  { unfold k. rewrite !length_app. lia. }
  rewrite (doc_loop_sep k (length a)) by (done || lia).
  change (loop k (doc_turn k) (a, [])) with (read_doc k a).
  rewrite (read_doc_fuel k (S (length a))) by lia.
  destruct (read_doc (S (length a)) a) as [[l' da]|e1|]; cbn [mbind result_bind snd]; [|done..].
  rewrite doc_loop_from. rewrite (read_doc_fuel k (S (length tail))) by lia.
  by destruct (read_doc (S (length tail)) tail) as [[l'' dt]|e2|].
Qed.

End behind_text.

(** ** Blank text in front of the first paragraph *)

Lemma run_parser_lead lead s :
  Forall (λ c, Parser.is_blank c = true) lead →
  run_parser (lead ++ s) = run_parser s.
Proof.
  intros Hlead. rewrite !run_parser_read_doc. unfold read_doc.
  rewrite doc_loop_blank by (done || lia).
  rewrite (doc_loop_fuel _ (S (length s))); [done| |cbn; lia].
  cbn. rewrite length_app. lia.
Qed.

Lemma run_parser_at_end s : hd NUL s = NUL → run_parser s = Ok [].
Proof.
  intros Hs. rewrite run_parser_read_doc. unfold read_doc.
  rewrite doc_loop_unfold by (cbn; lia).
  destruct s as [|c s]; [done|]. cbn in Hs. by rewrite Hs.
Qed.

Lemma run_parser_blank s :
  Forall (λ c, Parser.is_blank c = true) s → run_parser s = Ok [].
Proof.
  intros Hs. rewrite <- (app_nil_r s). rewrite run_parser_lead by done.
  by apply run_parser_at_end.
Qed.

(** The parser returns the paragraph under the cursor in front of the
    others. *)
Lemma run_parser_first s :
  Parser.is_blank (hd NUL s) = false → hd NUL s ≠ NUL →
  run_parser s
  = '(l, fields) ← read_fields (S (length s)) s;
    r ← read_doc (S (length s)) l; Ok (fields :: r.2).
Proof.
  intros Hblank Hnul. rewrite run_parser_read_doc. unfold read_doc at 1.
  rewrite doc_loop_unfold by (cbn; lia).
  rewrite doc_turn_fields by done.
  destruct (read_fields _ s) as [[l fields]|e|]; cbn [mbind result_bind]; [|done..].
  rewrite doc_loop_from.
  by destruct (read_doc _ l) as [[l' doc]|e|].
Qed.

Lemma blank_line_first_blank trail :
  Forall (λ c, Parser.is_blank c = true) trail → blank_line_first trail.
Proof.
  intros H%gap_behind_blank. unfold blank_line_first.
  destruct (behind Parser.is_space trail) as [|c l] eqn:E; [done|].
  apply Forall_cons in H as [Hc _]. cbn.
  pose proof (behind_hd Parser.is_space trail eq_refl) as Hsp. rewrite E in Hsp.
  cbn in Hsp. destruct (is_blank_cases c Hc) as [?|[-> | ->]]; [congruence|done..].
Qed.

Lemma blank_line_first_eol e b : e ≠ Eof → blank_line_first (eol_text e ++ b).
Proof. intros He. unfold blank_line_first. by destruct e. Qed.

(** ** Names and versions *)

Section ports.
Context {version_t : Type}.
Implicit Types (ports : list (SourceParagraph.t version_t)).
Implicit Types (m : gmap (list ascii) version_t).

Lemma extract_from m ports n :
  foldl (λ m port, map_emplace m (SourceParagraph.name port)
                     (SourceParagraph.version port)) m ports !! n
  = match m !! n with
    | Some v => Some v
    | None => first_version n ports
    end.
Proof.
  revert m. induction ports as [|port ports IH]; intros m; cbn.
  - by destruct (m !! n).
  - rewrite IH. unfold map_emplace.
    destruct (m !! SourceParagraph.name port) eqn:E.
    + destruct (m !! n) eqn:En; [done|].
      destruct (decide _) as [<-|]; [congruence|done].
    + destruct (decide (SourceParagraph.name port = n)) as [<-|Hne].
      * by rewrite lookup_insert_eq, E.
      * by rewrite lookup_insert_ne.
Qed.

Lemma extract_lookup ports n :
  extract_port_names_and_versions ports !! n = first_version n ports.
Proof. unfold extract_port_names_and_versions. by rewrite extract_from, lookup_empty. Qed.

Lemma first_version_None ports n :
  first_version n ports = None ↔ n ∉ SourceParagraph.name <$> ports.
Proof.
  induction ports as [|port ports IH]; cbn.
  - split; [|done]. intros _. apply not_elem_of_nil.
  - rewrite not_elem_of_cons. destruct (decide _) as [E|Hne].
    + split; [done|]. by intros [? _].
    + rewrite IH. split; [by intros ?|by intros [_ ?]].
Qed.

Lemma first_version_app ports1 ports2 n :
  first_version n (ports1 ++ ports2)
  = match first_version n ports1 with
    | Some v => Some v
    | None => first_version n ports2
    end.
Proof.
  induction ports1 as [|port ports1 IH]; cbn; [done|].
  by destruct (decide _).
Qed.

Lemma size_names (names : list (list ascii)) :
  size (list_to_set (C := gset (list ascii)) names) ≤ length names
  ∧ (size (list_to_set (C := gset (list ascii)) names) = length names → NoDup names).
Proof.
  induction names as [|n names [IH1 IH2]]; cbn [list_to_set length].
  - split; [by rewrite size_empty|]. intros _. apply NoDup_nil_2.
  - destruct (decide (n ∈ names)) as [Hin|Hin].
    + assert ({[n]} ∪ list_to_set names = list_to_set (C := gset (list ascii)) names) as ->.
      { apply set_eq. intros x. rewrite elem_of_union, elem_of_singleton, elem_of_list_to_set.
        split; [|by right]. by intros [->|?]. }
      split; lia.
    + rewrite size_union, size_singleton.
      * split; [lia|]. intros E. apply NoDup_cons_2; [done|]. apply IH2. lia.
      * apply disjoint_singleton_l. by rewrite elem_of_list_to_set.
Qed.
End ports.

(** ** The loaders *)

Lemma for_each_app {F S X : Type} (body : S → X → outcome F S) s xs1 xs2 :
  for_each body s (xs1 ++ xs2) = s' ← for_each body s xs1; for_each body s' xs2.
Proof.
  revert s. induction xs1 as [|x xs1 IH]; intros s; cbn; [done|].
  destruct (body s x) as [s'| |]; cbn; [apply IH|done..].
Qed.

Lemma load_with_run {F A : Type} (ctor : fields_t → F + A) control :
  load_with ctor control
  = match control with
    | error ec => Returned (error ec)
    | value s =>
        match run_parser s with
        | Ok [p] =>
            match ctor p with
            | inr a => Returned (value a)
            | inl f => Exited (constructor_check f)
            end
        | Ok _ => Returned (error (parse_error EXPECTED_ONE_PARAGRAPH))
        | Exit e => Exited (parser_check e)
        | Timeout => Unfinished
        end
    end.
Proof.
  unfold load_with. destruct control as [s|ec]; [|done].
  cbn [get_single_paragraph]. unfold parse_single_paragraph.
  destruct (run_parser s) as [[|p [|p' doc]]|e|]; try done.
  cbn. by destruct (ctor p).
Qed.

Ltac load_inv :=
  repeat match goal with
         | H : ∃ _, _ |- _ => destruct H as [? H]
         | H : _ ∧ _ |- _ => destruct H as [? ?]
         | H : _ ∨ _ |- _ => destruct H as [H|H]
         | H : value _ = value _ |- _ => injection H as <-
         | H : Returned _ = Returned _ |- _ => injection H as H
         | H : Exited _ = Exited _ |- _ => injection H as H
         | H : error _ = error _ |- _ => injection H as H
         | H : parse_paragraphs ?s = _, E : run_parser ?s = _ |- _ =>
             unfold parse_paragraphs in H; rewrite E in H;
             cbv beta iota delta [mbind result_bind mret result_ret] in H
         | H : Ok _ = Ok _ |- _ => injection H as H
         | H : Exit _ = Exit _ |- _ => injection H as H
         end;
  subst; try done; try congruence;
  try (exfalso; match goal with H : length _ ≠ 1 |- _ => by apply H end).

Lemma load_cases {F A : Type} (ctor : fields_t → F + A) (control : expected (list ascii)) :
  (∀ ec, load_with ctor control = Returned (error ec)
         ↔ control = error ec
           ∨ (ec = parse_error EXPECTED_ONE_PARAGRAPH
              ∧ ∃ s doc, control = value s ∧ parse_paragraphs s = Ok (value doc)
                         ∧ length doc ≠ 1))
  ∧ (∀ a, load_with ctor control = Returned (value a)
          ↔ ∃ s p, control = value s ∧ parse_paragraphs s = Ok (value [p])
                   ∧ ctor p = inr a)
  ∧ (∀ e, load_with ctor control = Exited (parser_check e)
          ↔ ∃ s, control = value s ∧ parse_paragraphs s = Exit e)
  ∧ (∀ f, load_with ctor control = Exited (constructor_check f)
          ↔ ∃ s p, control = value s ∧ parse_paragraphs s = Ok (value [p])
                   ∧ ctor p = inl f)
  ∧ load_with ctor control ≠ Unfinished.
Proof.
  rewrite load_with_run. destruct control as [s|ec0].
  2:{ split_and!; [intros ec|intros a|intros e|intros f|done]; split; intros H;
        load_inv. by left. }
  pose proof (run_parser_total s) as Htotal.
  assert (∀ doc, run_parser s = Ok doc → parse_paragraphs s = Ok (value doc)) as Hok.
  { intros doc E. unfold parse_paragraphs. by rewrite E. }
  assert (∀ e, run_parser s = Exit e → parse_paragraphs s = Exit e) as Hexit.
  { intros e E. unfold parse_paragraphs. by rewrite E. }
  destruct (run_parser s) as [[|p [|p' doc]]|e0|] eqn:Erun; [| | | |done].
  - split_and!; [intros ec|intros a|intros e|intros f|done]; split; intros H;
      load_inv. right. split; [done|]. exists s, []. by rewrite (Hok [] eq_refl).
  - destruct (ctor p) as [f0|a0] eqn:Ector;
      (split_and!; [intros ec|intros a|intros e|intros f|done]; split; intros H;
       load_inv).
    + exists s, p. by rewrite (Hok [p] eq_refl).
    + exists s, p. by rewrite (Hok [p] eq_refl).
  - split_and!; [intros ec|intros a|intros e|intros f|done]; split; intros H;
      load_inv. right. split; [done|]. exists s, (p :: p' :: doc).
    by rewrite (Hok (p :: p' :: doc) eq_refl).
  - split_and!; [intros ec|intros a|intros e|intros f|done]; split; intros H;
      load_inv. exists s. split; [done|]. by apply Hexit.
Qed.

Lemma first_version_Some {version_t : Type}
    (ports : list (SourceParagraph.t version_t)) n v :
  first_version n ports = Some v
  ↔ ∃ ports1 port ports2, ports = ports1 ++ port :: ports2
      ∧ SourceParagraph.name port = n ∧ SourceParagraph.version port = v
      ∧ n ∉ SourceParagraph.name <$> ports1.
Proof.
  induction ports as [|p ports IH]; cbn.
  - split; [done|]. intros ([|??] & ? & ? & ? & _); done.
  - destruct (decide (SourceParagraph.name p = n)) as [E|Hne].
    + split.
      * intros [= <-]. exists [], p, ports. split_and!; [done..|apply not_elem_of_nil].
      * intros ([|p1 ports1] & port & ports2 & Hl & Hn & Hv & Hnot).
        -- injection Hl as <- <-. by rewrite Hv.
        -- injection Hl as <- ->. exfalso. apply Hnot. rewrite fmap_cons, E.
           apply list_elem_of_here.
    + rewrite IH. split.
      * intros (ports1 & port & ports2 & -> & Hn & Hv & Hnot).
        exists (p :: ports1), port, ports2. split_and!; [done..|].
        rewrite fmap_cons, not_elem_of_cons. done.
      * intros ([|p1 ports1] & port & ports2 & Hl & Hn & Hv & Hnot).
        -- injection Hl as <- <-. done.
        -- injection Hl as <- ->. exists ports1, port, ports2.
           split_and!; [done..|]. rewrite fmap_cons, not_elem_of_cons in Hnot.
           by destruct Hnot.
Qed.

Lemma omap_split {A B : Type} (f : A → option B) l l1' y l2' :
  omap f l = l1' ++ y :: l2' →
  ∃ l1 x l2, l = l1 ++ x :: l2 ∧ f x = Some y ∧ omap f l1 = l1' ∧ omap f l2 = l2'.
Proof.
  revert l1'. induction l as [|a l IH]; intros l1' E; cbn in E.
  - by destruct l1'.
  - destruct (f a) as [b|] eqn:Ea.
    + destruct l1' as [|b' l1'].
      * injection E as -> E. exists [], a, l. done.
      * injection E as -> E. destruct (IH _ E) as (l1 & x & l2 & -> & Hx & H1 & H2).
        exists (a :: l1), x, l2. split_and!; [done|done| |done].
        cbn. by rewrite Ea, H1.
    + destruct (IH _ E) as (l1 & x & l2 & -> & Hx & H1 & H2).
      exists (a :: l1), x, l2. split_and!; [done|done| |done].
      cbn. by rewrite Ea.
Qed.

Section loading.
Context {path F version_t : Type}.
Context (read_contents : path → expected (list ascii)).
Context (slash : path → list ascii → path).
Context (SourceParagraph_of : fields_t → F + SourceParagraph.t version_t).

Local Abbreviation load_port := (try_load_port read_contents slash SourceParagraph_of).
Local Abbreviation body := (load_all_ports_body read_contents slash SourceParagraph_of).
Local Abbreviation port := (port_of read_contents slash SourceParagraph_of).
Local Abbreviation returns := (returns read_contents slash SourceParagraph_of).

Lemma load_all_ports_body_run output dir :
  body output dir
  = r ← load_port dir;
    Returned (output ++ match r with value sp => [sp] | error _ => [] end).
Proof.
  unfold load_all_ports_body.
  destruct (load_port dir) as [[sp|ec]| |]; cbn; by rewrite ?app_nil_r.
Qed.

Lemma port_of_run dir r :
  load_port dir = Returned r
  → port dir = match r with value sp => Some sp | error _ => None end.
Proof. unfold port_of. by intros ->. Qed.

Lemma load_port_finished dir : load_port dir ≠ Unfinished.
Proof.
  apply (load_cases SourceParagraph_of (read_contents (slash dir (str "CONTROL")))).
Qed.

Lemma for_each_returns output l :
  returns l → for_each body output l = Returned (output ++ omap port l).
Proof.
  revert output. induction l as [|dir l IH]; intros output Hl; cbn [for_each omap list_omap].
  - by rewrite app_nil_r.
  - destruct (Hl dir) as [r Hr]; [apply list_elem_of_here|].
    assert (returns l) as Hl' by (intros d Hd; apply Hl; by apply list_elem_of_further).
    cbn [list_omap]. rewrite load_all_ports_body_run, (port_of_run dir r), Hr by done.
    cbn [mbind outcome_bind]. rewrite IH by done.
    destruct r as [sp|ec]; [by rewrite <- app_assoc|by rewrite app_nil_r].
Qed.

Lemma for_each_returned output l out :
  for_each body output l = Returned out → returns l.
Proof.
  revert output. induction l as [|dir l IH]; intros output E d Hd.
  - by apply elem_of_nil in Hd.
  - cbn [for_each] in E. rewrite load_all_ports_body_run in E.
    destruct (load_port dir) as [r| |] eqn:Hr; cbn [mbind outcome_bind] in E; [|done..].
    apply elem_of_cons in Hd as [->|Hd]; [by exists r|]. by eapply IH.
Qed.

Lemma for_each_exits output l x :
  for_each body output l = Exited x
  ↔ ∃ l1 dir l2, l = l1 ++ dir :: l2 ∧ returns l1 ∧ load_port dir = Exited x.
Proof.
  split.
  - revert output. induction l as [|dir l IH]; intros output E; [done|].
    cbn [for_each] in E. rewrite load_all_ports_body_run in E.
    destruct (load_port dir) as [r|x0|] eqn:Hr; cbn [mbind outcome_bind] in E; [| |done].
    + destruct (IH _ E) as (l1 & d & l2 & -> & Hl1 & Hd).
      exists (dir :: l1), d, l2. split_and!; [done| |done].
      intros d' [->|?]%elem_of_cons; [by exists r|by apply Hl1].
    + injection E as ->. exists [], dir, l. split_and!; [done| |done].
      intros d' Hd'. by apply elem_of_nil in Hd'.
  - intros (l1 & dir & l2 & -> & Hl1 & Hd).
    rewrite for_each_app, for_each_returns by done.
    cbn [mbind outcome_bind for_each]. by rewrite load_all_ports_body_run, Hd.
Qed.

Lemma for_each_finished output l : for_each body output l ≠ Unfinished.
Proof.
  revert output. induction l as [|dir l IH]; intros output; [done|].
  cbn [for_each]. rewrite load_all_ports_body_run.
  pose proof (load_port_finished dir) as Hfin.
  destruct (load_port dir) as [r|x0|]; cbn [mbind outcome_bind]; [apply IH|done|done].
Qed.

End loading.

Lemma load_all_ports_run {path F version_t : Type}
    (read_contents : path → expected (list ascii)) (slash : path → list ascii → path)
    (directory_iterator : path → list path)
    (SourceParagraph_of : fields_t → F + SourceParagraph.t version_t) ports_dir :
  load_all_ports read_contents slash directory_iterator SourceParagraph_of ports_dir
  = for_each (load_all_ports_body read_contents slash SourceParagraph_of) []
      (directory_iterator ports_dir).
Proof. done. Qed.

Lemma port_of_Some {path F version_t : Type}
    (read_contents : path → expected (list ascii)) (slash : path → list ascii → path)
    (SourceParagraph_of : fields_t → F + SourceParagraph.t version_t) dir sp :
  port_of read_contents slash SourceParagraph_of dir = Some sp
  ↔ try_load_port read_contents slash SourceParagraph_of dir = Returned (value sp).
Proof.
  unfold port_of.
  destruct (try_load_port _ _ _ dir) as [[sp'|ec]|x|]; split; try done; by intros [= ->].
Qed.

(** ** The text that was read *)

(** *** Values *)

Lemma eaten_eol l :
  NUL ∉ l → in_line (hd NUL l) = false →
  ∃ e, l = eol_text e ++ eat LF (eat CR l) ∧ eol_before e (eat LF (eat CR l))
       ∧ (e = Eof → l = []).
Proof.
  intros Hl Hhd. destruct l as [|c l].
  { by exists Eof. }
  cbn [hd] in Hhd. unfold in_line, Parser.is_lineend in Hhd. cbn [eat].
  destruct (Ascii.eqb_spec c CR) as [->|Hcr].
  - destruct l as [|c' l].
    + by exists Cr.
    + cbn [eat]. destruct (Ascii.eqb_spec c' LF) as [->|Hlf].
      * by exists CrLf.
      * by exists Cr.
  - cbn [eat]. destruct (Ascii.eqb_spec c LF) as [->|Hlf].
    + by exists Lf.
    + destruct (Ascii.eqb_spec c NUL) as [->|Hnul]; [|done].
      exfalso. apply Hl. apply list_elem_of_here.
Qed.

Lemma value_end_next_line e l val :
  eol_before e l →
  match next_line l val with
  | Leave (l', _) => value_end (eol_text e ++ l) = Some l'
  | Again _ => value_end (eol_text e ++ l) = None
  end.
Proof.
  intros He. unfold value_end, next_line. rewrite eat_eol by done.
  destruct (Parser.is_alphanum _); [done|]. by destruct (Parser.is_lineend _).
Qed.

Lemma continuation_behind_blanks l :
  Parser.is_alphanum (hd NUL l) = false →
  Parser.is_lineend (hd NUL (behind Parser.is_space l)) = false →
  is_continuation (leading Parser.is_space l
                   ++ leading in_line (behind Parser.is_space l)).
Proof.
  intros Hal Hend.
  set (b := behind Parser.is_space l) in *.
  assert (in_line (hd NUL b) = true) as Hin by (unfold in_line; by rewrite Hend).
  assert (Parser.is_space (hd NUL b) = false) as Hsp by (by apply behind_hd).
  assert (hd NUL (leading in_line b) = hd NUL b) as Hhd by (by apply leading_hd).
  split_and!.
  - apply Forall_app. split; [|apply leading_Forall].
    eapply Forall_impl; [apply leading_Forall|]. apply is_space_in_line.
  - rewrite (hd_app_nonempty _ _ b); [by unfold b; rewrite leading_behind|done|].
    intros ->. done.
  - rewrite behind_app_all by apply leading_Forall.
    rewrite behind_id; [by rewrite Hhd|by rewrite Hhd|done].
Qed.

Lemma lines_text_snoc more e c :
  lines_text (more ++ [(e, c)]) = lines_text more ++ eol_text e ++ c.
Proof.
  unfold lines_text. rewrite map_app, concat_app. cbn. by rewrite app_nil_r.
Qed.

Lemma value_turn_src l0 s :
  value_src_inv l0 s →
  match value_turn s with
  | Again s' => value_src_inv l0 s' ∧ length (s'.1.1) < length (s.1.1)
  | Leave r => value_src_post l0 r
  end.
Proof.
  destruct s as [[l pre] val]. intros (Hl & more & Hl0 & Hval & Hmore).
  pose proof (value_turn_behind l pre val) as Hbehind.
  rewrite value_turn_next_line in *. rewrite Hval.
  set (first := leading in_line l0) in *.
  assert (NUL ∉ behind in_line l) as Hx.
  { intros Hin. apply Hl. destruct (behind_suffix in_line l) as [p E].
    rewrite E. apply elem_of_app. by right. }
  destruct (eaten_eol (behind in_line l) Hx) as (e & Ex & Hbefore & Heof).
  { by apply behind_hd. }
  set (y := eat LF (eat CR (behind in_line l))) in *.
  pose proof (value_end_next_line e y (join_lines first (map snd more)) Hbefore) as Hend.
  unfold next_line in *.
  destruct (Parser.is_alphanum (hd NUL y)) eqn:Hal.
  { unfold value_src_post. exists more, e, y.
    split_and!; [by rewrite <- Ex|done..]. }
  destruct (Parser.is_lineend (hd NUL (behind Parser.is_space y))) eqn:Hle.
  { unfold value_src_post. exists more, e, y.
    split_and!; [by rewrite <- Ex|done..]. }
  destruct Hbehind as [Hsuf Hlt]. split; [|done]. unfold value_src_inv.
  split.
  { intros Hin. apply Hl. destruct Hsuf as [p E]. rewrite E.
    apply elem_of_app. by right. }
  set (c := leading Parser.is_space y ++ leading in_line (behind Parser.is_space y)).
  exists (more ++ [(e, c)]). split_and!.
  - rewrite lines_text_snoc. rewrite Hl0 at 1. rewrite Ex.
    rewrite <- (leading_behind Parser.is_space y) at 1.
    rewrite <- (leading_behind in_line (behind Parser.is_space y)) at 1.
    unfold c. by rewrite <- !app_assoc.
  - rewrite map_app. cbn [map snd]. rewrite <- join_lines_snoc.
    by rewrite <- !app_assoc.
  - apply Forall_app. split; [done|]. apply Forall_singleton. cbn [fst snd]. split.
    + intros ->. unfold y in Hle. rewrite Heof in Hle by done. done.
    + by apply continuation_behind_blanks.
Qed.

Lemma read_value_src k l0 :
  length l0 < k → NUL ∉ l0 →
  match read_value k l0 with
  | Ok r => value_src_post l0 r
  | _ => False
  end.
Proof.
  intros Hk Hl0. unfold read_value.
  pose proof (loop_total (value_src_inv l0) (value_src_post l0) (λ _, False)
                (λ s, length (s.1.1)) (λ s, Ok (value_turn s))) as H.
  assert (value_src_inv l0 (l0, [], [])) as Hinit.
  { split; [done|]. exists []. split_and!; [| |done].
    - unfold lines_text. cbn [map concat app]. by rewrite leading_behind.
    - unfold join_lines. cbn [map concat app]. by rewrite app_nil_r. }
  specialize (H (value_turn_src l0) k (l0, [], []) Hinit Hk).
  by destruct (loop k _ _) as [r|e|].
Qed.

(** *** Fields *)

Lemma read_name_exit l e :
  read_name l = Exit e →
  e = Expected_colon
  ∧ is_namechar (hd NUL (behind is_namechar l)) = false
  ∧ hd NUL (behind is_namechar l) ≠ ":"%char.
Proof.
  unfold read_name. intros H.
  pose proof (behind_hd is_namechar l eq_refl) as Hhd.
  destruct (behind is_namechar l) as [|c l']; [by injection H as <-|].
  destruct (Ascii.eqb_spec c ":") as [->|Hc]; [done|]. by injection H as <-.
Qed.

Lemma par_text_snoc p f e :
  par_text (p ++ [(f, e)]) = par_text p ++ field_text f ++ eol_text e.
Proof.
  unfold par_text. rewrite map_app, concat_app. cbn. by rewrite app_nil_r.
Qed.

Lemma par_entries_snoc p f e :
  par_entries (p ++ [(f, e)]) = par_entries p ++ [field_entry f].
Proof. unfold par_entries. by rewrite map_app. Qed.

Lemma par_names_snoc p f e : par_names (p ++ [(f, e)]) = par_names p ++ [fs_name f].
Proof. unfold par_names. by rewrite map_app. Qed.

Lemma par_eols_ok_snoc next p f e :
  par_eols_ok (field_text f ++ eol_text e ++ next) p → eol_before e next →
  par_eols_ok next (p ++ [(f, e)]).
Proof.
  intros Hp He. apply par_eols_ok_app. split.
  - rewrite par_text_cons. cbn. by rewrite <- !app_assoc.
  - cbn. done.
Qed.

Lemma fields_wf_snoc_2 p f e :
  fields_wf p → field_wf f → (p ≠ [] → begins_field f) → fields_wf (p ++ [(f, e)]).
Proof.
  intros [Hall Htail] Hf Hb. split.
  - apply Forall_app. split; [done|]. by apply Forall_singleton.
  - destruct p as [|fe p]; [done|]. cbn [app tail] in *.
    apply Forall_app. split; [done|]. apply Forall_singleton. by apply Hb.
Qed.

(** The first character of a name in front of its colon. *)
Lemma name_hd_alphanum name rest :
  Parser.is_alphanum (hd NUL (name ++ ":"%char :: rest)) = true →
  Parser.is_alphanum (hd NUL name) = true.
Proof. by destruct name. Qed.

Lemma not_elem_of_suffix_of (c : ascii) (l' l : list ascii) :
  l' `suffix_of` l → c ∉ l → c ∉ l'.
Proof. intros [p ->] Hc Hin. apply Hc. apply elem_of_app. by right. Qed.

Lemma fields_turn_src k l0 st :
  fields_src_inv l0 st → length (st.1) < k →
  match fields_turn k st with
  | Ok (Again st') => fields_src_inv l0 st' ∧ length (st'.1) < length (st.1)
  | Ok (Leave r) => fields_src_post l0 r
  | Exit e => fields_src_exit l0 e
  | Timeout => False
  end.
Proof.
  destruct st as [l fields]. intros (Hl & p & Hl0 & -> & Hwf & Hnodup & Heols & Hstart) Hk.
  cbn [fst] in Hk.
  pose proof (fields_turn_behind k l (par_entries p) Hk) as Hbehind.
  unfold fields_turn in *.
  destruct (read_name l) as [[l1 name]|e|] eqn:Hname; cbn [mbind result_bind] in *.
  3:{ unfold read_name in Hname. destruct (behind is_namechar l) as [|c ?]; [done|].
      by destruct (Ascii.eqb c ":"). }
  2:{ apply read_name_exit in Hname as (-> & Hrest & Hcolon).
      exists p, l. split_and!; [done..|].
      exists (leading is_namechar l), (behind is_namechar l).
      split_and!; [by rewrite leading_behind|apply leading_Forall|done|done]. }
  apply read_name_behind in Hname as (Hsuf1 & Hlt1 & Ename & Hsp & sp & El & Hpad).
  assert (p ≠ [] → Parser.is_alphanum (hd NUL name) = true) as Hbegins.
  { intros Hp. destruct p; [done|]. cbn in Hstart. rewrite El in Hstart.
    by eapply name_hd_alphanum. }
  destruct (find (par_entries p) name) as [v0|] eqn:Hfind.
  { exists p, l. split_and!; [done..|].
    exists name, (sp ++ l1).
    assert (name ∈ par_names p) as Hin.
    { rewrite <- par_names_entries.
      destruct (decide (name ∈ (par_entries p).*1)) as [|Hnot]; [done|].
      apply find_None in Hnot. congruence. }
    split_and!; [done|done|]. apply Hbegins. intros ->. by apply elem_of_nil in Hin. }
  apply find_None in Hfind. rewrite par_names_entries in Hfind.
  assert (NUL ∉ l1) as Hl1 by (by eapply not_elem_of_suffix_of).
  pose proof (read_value_src k l1 ltac:(lia) Hl1) as Hvalue.
  destruct (read_value k l1) as [[l2 v]|e|]; [|done..].
  cbn [mbind result_bind] in *.
  destruct Hvalue as (more & e & rest & El1 & Hmore & Hbefore & Hend & ->).
  destruct (read_value_first l1 Hsp) as [Hfirst Hfirst_sp].
  set (first := leading in_line l1) in *.
  set (f := mk_field name sp first more).
  assert (l = field_text f ++ eol_text e ++ rest) as Ef.
  { unfold field_text, f. cbn [fs_name fs_pad fs_first fs_more].
    transitivity (name ++ ":"%char :: sp ++ l1); [exact El|].
    rewrite <- app_assoc. f_equal. cbn [app]. f_equal.
    rewrite <- !app_assoc. f_equal. exact El1. }
  assert (field_wf f) as Hf.
  { unfold field_wf, f. cbn [fs_name fs_pad fs_first fs_more].
    split_and!; [|done..]. rewrite <- Ename. apply leading_Forall. }
  assert (emplace (par_entries p) name (join_lines first (map snd more))
          = par_entries (p ++ [(f, e)])) as ->.
  { rewrite emplace_new, par_entries_snoc; [done|].
    apply find_None. by rewrite par_names_entries. }
  assert (NUL ∉ rest) as Hrest.
  { intros Hin. apply Hl. rewrite Ef. rewrite !elem_of_app. auto. }
  assert (fields_wf (p ++ [(f, e)])) as Hwf' by (by apply fields_wf_snoc_2).
  assert (NoDup (par_names (p ++ [(f, e)]))) as Hnodup'.
  { rewrite par_names_snoc. apply NoDup_app. split_and!; [done| |apply NoDup_singleton].
    intros n Hn [->|[]%elem_of_nil]%elem_of_cons. done. }
  assert (par_eols_ok rest (p ++ [(f, e)])) as Heols'.
  { apply par_eols_ok_snoc; [by rewrite <- Ef|done]. }
  assert (l0 = par_text (p ++ [(f, e)]) ++ rest) as El0.
  { rewrite par_text_snoc, Hl0, Ef. by rewrite <- !app_assoc. }
  unfold value_end in Hend. rewrite eat_eol in Hend by done.
  destruct (Parser.is_alphanum (hd NUL rest)) eqn:Hal.
  - injection Hend as <-. rewrite (is_alphanum_in_line _ Hal) in *.
    split; [|by destruct Hbehind]. unfold fields_src_inv. split; [done|].
    exists (p ++ [(f, e)]). split_and!; [done..|].
    by destruct (p ++ [(f, e)]) eqn:E; [destruct p|].
  - destruct (Parser.is_lineend (hd NUL (behind Parser.is_space rest))) eqn:Hle; [|done].
    injection Hend as <-. unfold in_line. rewrite Hle. cbn [negb].
    unfold fields_src_post.
    split; [by eapply not_elem_of_suffix_of; [apply behind_suffix|]|].
    exists (p ++ [(f, e)]), (leading Parser.is_space rest).
    rewrite leading_behind. split_and!; [done|done| |done|apply leading_Forall|done].
    split_and!; [|done|done]. by destruct p.
Qed.

Lemma read_fields_src k l0 :
  length l0 < k → NUL ∉ l0 →
  Parser.is_blank (hd NUL l0) = false → hd NUL l0 ≠ NUL →
  match read_fields k l0 with
  | Ok r => fields_src_post l0 r
  | Exit e => fields_src_exit l0 e
  | Timeout => False
  end.
Proof.
  intros Hk Hl0 Hblank Hnul. unfold read_fields.
  apply (loop_total (λ st, fields_src_inv l0 st ∧ length (st.1) < k)
           (fields_src_post l0) (fields_src_exit l0) (λ st, length (st.1))).
  - intros st [Hst Hlen]. pose proof (fields_turn_src k l0 st Hst Hlen) as H.
    destruct (fields_turn k st) as [[st'|r]|e|]; [|done..].
    destruct H as [? ?]. split_and!; [done|lia|done].
  - split; [|done]. split; [done|]. exists []. split_and!; try done.
    apply NoDup_nil_2.
  - done.
Qed.

(** *** Documents *)

Lemma behind_nil_Forall f (l : list ascii) :
  behind f l = [] → Forall (λ c, f c = true) l.
Proof.
  induction l as [|c l IH]; cbn; [by constructor|].
  destruct (f c) eqn:E; [|done]. intros H. constructor; auto.
Qed.

Lemma is_lineend_cases c :
  Parser.is_lineend c = true → Parser.is_blank c = true ∨ c = NUL.
Proof.
  unfold Parser.is_lineend, Parser.is_blank.
  destruct (Ascii.eqb_spec c CR) as [->|_]; [by left|].
  destruct (Ascii.eqb_spec c LF) as [->|_]; [by left|].
  destruct (Ascii.eqb_spec c NUL) as [->|_]; [by right|done].
Qed.

(** The blanks between a paragraph and the text [t] of the next have a
    line break in them. *)
Lemma gap_line_break gap lead t :
  Forall (λ c, Parser.is_space c = true) gap →
  Parser.is_lineend (hd NUL (lead ++ t)) = true →
  (t = [] ∨ (Parser.is_blank (hd NUL t) = false ∧ hd NUL t ≠ NUL)) →
  behind Parser.is_space (gap ++ lead) = [] → t = [].
Proof.
  intros Hgap Hend Ht Hb. rewrite behind_app_all in Hb by done.
  apply behind_nil_Forall in Hb. destruct Ht as [|[Hblank Hnul]]; [done|].
  exfalso. destruct lead as [|c lead].
  - cbn [app] in Hend. destruct (is_lineend_cases _ Hend); congruence.
  - apply Forall_cons in Hb as [Hc _]. cbn in Hend.
    by rewrite (is_lineend_not_space _ Hend) in Hc.
Qed.

Lemma doc_text_start d rest :
  doc_wf rest d →
  d = [] ∨ (Parser.is_blank (hd NUL (doc_text d ++ rest)) = false
            ∧ hd NUL (doc_text d ++ rest) ≠ NUL).
Proof.
  destruct d as [|[p gap] d]; [by left|]. intros (Hp & _). right.
  cbn [doc_text]. rewrite <- !app_assoc. by apply par_text_start.
Qed.

Lemma fields_text_start_or p x :
  fields_wf p → field_start p x →
  Parser.is_blank (hd NUL (par_text p ++ x)) = false ∧ hd NUL (par_text p ++ x) ≠ NUL.
Proof.
  intros [Hwf _] Hstart. destruct p as [|[f e] p]; [done|].
  apply Forall_cons in Hwf as [Hf _]. rewrite par_text_cons, <- !app_assoc.
  by apply field_text_start.
Qed.

Lemma read_doc_nil k : 0 < k → read_doc k [] = Ok ([], []).
Proof. intros Hk. unfold read_doc. by rewrite doc_loop_unfold by done. Qed.

Lemma read_doc_src k : ∀ n l,
  length l ≤ n → length l < k → NUL ∉ l →
  match read_doc k l with
  | Ok r => doc_src_ok l r.2
  | Exit e => doc_src_exit l e
  | Timeout => False
  end.
Proof.
  induction n as [|n IH]; intros l Hn Hk Hl.
  { destruct l; [|cbn in Hn; lia]. rewrite read_doc_nil by done.
    exists [], []. by split_and!. }
  pose proof (leading_behind Parser.is_blank l) as El.
  pose proof (leading_Forall Parser.is_blank l) as Hlead.
  pose proof (behind_hd Parser.is_blank l eq_refl) as Hblank.
  pose proof (behind_length Parser.is_blank l) as Hlen.
  assert (NUL ∉ behind Parser.is_blank l) as Hl1
    by (eapply not_elem_of_suffix_of; [apply behind_suffix|done]).
  set (lead := leading Parser.is_blank l) in *.
  assert (read_doc k l = read_doc k (behind Parser.is_blank l)) as ->.
  { unfold read_doc. rewrite <- El at 1. apply doc_loop_blank; [done|].
    by rewrite El. }
  destruct (behind Parser.is_blank l) as [|c l1] eqn:El1.
  { rewrite read_doc_nil by lia. exists lead, []. by split_and!. }
  cbn [hd] in Hblank.
  assert (c ≠ NUL) as Hc by (intros ->; apply Hl1, list_elem_of_here).
  unfold read_doc. rewrite doc_loop_unfold by (cbn [fst]; lia).
  rewrite doc_turn_fields by done.
  pose proof (read_fields_src k (c :: l1) ltac:(lia) Hl1 Hblank Hc) as Hsrc.
  pose proof (read_fields_spec k (c :: l1) (c :: l1) ltac:(lia) (reflexivity _)) as Hspec.
  destruct (read_fields k (c :: l1)) as [[l' fields]|e|]; cbn [mbind result_bind];
    [| |done].
  2:{ destruct Hsrc as (p & x & Ex & Hwf & Hnodup & Heols & Hstart & Hfail).
      exists lead, [], p, x. cbn [doc_text doc_wf app].
      split_and!; [by rewrite <- Ex|done..]. }
  destruct Hsrc as (Hl' & p & gap & Ep & -> & Hp & Heols & Hgap & Hend).
  destruct Hspec as (_ & Hlt & _).
  rewrite doc_loop_from.
  specialize (IH l' ltac:(cbn in *; lia) ltac:(cbn in *; lia) Hl').
  assert (Forall (λ c, Parser.is_blank c = true) gap) as Hgap'.
  { eapply Forall_impl; [exact Hgap|]. apply is_space_blank. }
  destruct (read_doc k l') as [[l'' doc']|e|]; cbn [mbind result_bind fst snd app];
    [| |done].
  - cbn [snd] in IH. destruct IH as (lead' & d' & El' & Hlead' & Hd' & <-).
    exists lead, ((p, gap ++ lead') :: d'). cbn [doc_text doc_wf doc_entries map fst].
    rewrite !app_nil_r. split_and!; try done.
    + rewrite <- El, Ep, El'. by rewrite <- !app_assoc.
    + rewrite <- app_assoc, <- El'. done.
    + by apply Forall_app.
    + apply (gap_line_break gap lead' (doc_text d')); [done|by rewrite <- El'|].
      destruct (doc_text_start d' [] Hd') as [->|H]; [by left|].
      right. by rewrite app_nil_r in H.
  - destruct IH as (lead' & d' & p' & x & El' & Hlead' & Hd' & Hwf' & Hnodup' & Heols'
                    & Hstart' & Hfail').
    exists lead, ((p, gap ++ lead') :: d'), p', x. cbn [doc_text doc_wf].
    split_and!; try done.
    + rewrite <- El, Ep, El'. by rewrite <- !app_assoc.
    + rewrite <- app_assoc, <- El'. done.
    + by apply Forall_app.
    + apply (gap_line_break gap lead'); [done|by rewrite <- El'|].
      right. destruct (doc_text_start d' _ Hd') as [->|H]; [|done].
      by apply fields_text_start_or.
Qed.

(** The parser on a text without NUL: what it returns tells how the text
    is made. *)
Lemma run_parser_src s :
  NUL ∉ s →
  match run_parser s with
  | Ok doc => doc_src_ok s doc
  | Exit e => doc_src_exit s e
  | Timeout => False
  end.
Proof.
  intros Hs. rewrite run_parser_read_doc.
  pose proof (read_doc_src (S (length s)) (length s) s (Nat.le_refl _)
                (Nat.lt_succ_diag_r _) Hs) as H.
  by destruct (read_doc _ s) as [[l doc]|e|].
Qed.

Lemma parse_paragraphs_exit s e :
  parse_paragraphs s = Exit e ↔ run_parser s = Exit e.
Proof.
  unfold parse_paragraphs.
  destruct (run_parser s) as [doc|e0|]; cbn; split; intros H;
    first [discriminate H|by injection H as ->].
Qed.

(** ** A document written out *)

Lemma lines_text_Lf more :
  lines_text (map (λ c, (Lf, c)) more) = concat (map (cons LF) more).
Proof. unfold lines_text. rewrite map_map. done. Qed.

Lemma write_fields_src s fields :
  Forall (λ e, name_ok s e.1 ∧ value_ok e.2) fields →
  ∃ p, par_text p = concat (map write_field fields)
    ∧ par_entries p = fields
    ∧ Forall (λ fe, field_wf fe.1) p
    ∧ Forall (λ fe, fe.2 = Lf) p.
Proof.
  induction 1 as [|[k v] fields [[Hk _] Hv] _ (p & Htext & Hentries & Hwf & Hlf)].
  { by exists []. }
  cbn [fst snd] in *. destruct Hv as (first & more & -> & Hfirst & Hsp & Hmore).
  set (f := mk_field k [SP] first (map (λ c, (Lf, c)) more)).
  exists ((f, Lf) :: p). split_and!.
  - rewrite par_text_cons, Htext. cbn [map concat]. rewrite app_assoc. f_equal.
    unfold write_field, field_text, f, join_lines.
    cbn [fs_name fs_pad fs_first fs_more fst snd eol_text].
    rewrite lines_text_Lf. rewrite <- !app_assoc. cbn [app]. by rewrite <- !app_assoc.
  - cbn [par_entries map]. f_equal; [|done].
    unfold field_entry, f. cbn [fs_name fs_first fs_more fst]. by rewrite map_map, map_id.
  - constructor; [|done]. unfold field_wf, f. cbn [fs_name fs_pad fs_first fs_more fst].
    split_and!; [done|by repeat constructor|done|done|].
    apply Forall_fmap. eapply Forall_impl; [exact Hmore|]. by intros c Hc.
  - by constructor.
Qed.

Lemma par_eols_ok_Lf next p : Forall (λ fe, fe.2 = Lf) p → par_eols_ok next p.
Proof.
  induction 1 as [|[f e] p He _ IH]; [done|]. cbn in He. subst e. by split.
Qed.

Lemma write_document_src s doc :
  doc_ok s doc →
  ∃ d, doc_text d = write_document doc ∧ doc_wf [] d ∧ doc_entries d = doc.
Proof.
  induction 1 as [|fields doc [(Hall & Hnodup & Htail) Hne] _ (d & Htext & Hd & Hentries)].
  { by exists []. }
  destruct (write_fields_src s fields Hall) as (p & Hp & Ep & Hwf & Hlf).
  exists ((p, [LF]) :: d). split_and!.
  - cbn [doc_text]. rewrite Htext, Hp. unfold write_document, write_paragraph.
    cbn [map concat]. by rewrite <- !app_assoc.
  - cbn [doc_wf]. split_and!; [| |by repeat constructor|done|done].
    + split_and!.
      * intros ->. by subst fields.
      * split; [done|]. subst fields. unfold par_entries in Htail.
        rewrite <- (fmap_tail (λ fe, field_entry fe.1)) in Htail.
        apply Forall_fmap in Htail. eapply Forall_impl; [exact Htail|]. by intros [f e].
      * by rewrite <- par_names_entries, Ep.
    + by apply par_eols_ok_Lf.
  - cbn [doc_entries map fst]. by rewrite Ep, <- Hentries.
Qed.

(** ** Ports with names of their own *)

Lemma first_version_NoDup {version_t : Type}
    (ports : list (SourceParagraph.t version_t)) n v :
  NoDup (SourceParagraph.name <$> ports) →
  first_version n ports = Some v
  ↔ ∃ port, port ∈ ports ∧ SourceParagraph.name port = n
            ∧ SourceParagraph.version port = v.
Proof.
  intros Hnodup. rewrite first_version_Some. split.
  - intros (ports1 & port & ports2 & -> & Hn & Hv & _). exists port.
    split_and!; [|done|done]. apply elem_of_app. right. apply list_elem_of_here.
  - intros (port & Hin & Hn & Hv).
    apply list_elem_of_split in Hin as (ports1 & ports2 & ->).
    exists ports1, port, ports2. split_and!; [done..|].
    rewrite fmap_app, fmap_cons in Hnodup.
    apply NoDup_app in Hnodup as (_ & Hnot & _).
    intros Hin. apply (Hnot _ Hin). rewrite Hn. apply list_elem_of_here.
Qed.

(** ** The input up to its first NUL *)

Lemma run_parser_cut l junk :
  NUL ∉ l → run_parser (l ++ NUL :: junk) = run_parser l.
Proof.
  intros Hl. rewrite !run_parser_read_doc.
  rewrite read_doc_cut; [|done|rewrite length_app; lia].
  rewrite (read_doc_fuel _ (S (length l))); [|rewrite length_app; lia|lia].
  by destruct (read_doc _ l) as [[l' doc]|e|].
Qed.

Lemma cut_at_NUL s :
  ∃ t junk, s = t ++ junk ∧ (NUL ∉ t) ∧ hd NUL junk = NUL
            ∧ run_parser s = run_parser t.
Proof.
  set (f := λ c, negb (Ascii.eqb c NUL)).
  exists (leading f s), (behind f s).
  pose proof (leading_Forall f s) as Ht.
  pose proof (behind_hd f s eq_refl) as Hj.
  assert (NUL ∉ leading f s) as Hnot.
  { intros Hin. rewrite Forall_forall in Ht. by specialize (Ht _ Hin). }
  assert (hd NUL (behind f s) = NUL) as Hhd.
  { unfold f in Hj at 1. cbv beta in Hj.
    destruct (Ascii.eqb_spec (hd NUL (behind f s)) NUL) as [E|_]; [done|].
    discriminate Hj. }
  split_and!; [by rewrite leading_behind|done|done|].
  rewrite <- (leading_behind f s) at 1.
  destruct (behind f s) as [|c junk]; [by rewrite app_nil_r|].
  cbn in Hhd. subst c. by apply run_parser_cut.
Qed.

Lemma doc_wf_par rest d1 p gap d2 : doc_wf rest (d1 ++ (p, gap) :: d2) → par_wf p.
Proof.
  induction d1 as [|[p' gap'] d1 IH]; cbn [app doc_wf].
  - by intros (? & _).
  - intros (_ & _ & _ & _ & ?). by apply IH.
Qed.

(** A field of a parsed document in the text. *)
Lemma field_in_text s doc fields k v :
  run_parser s = Ok doc → fields ∈ doc → (k, v) ∈ fields →
  ∃ lead d1 p1 f e p2 gap d2 junk,
    s = lead ++ doc_text (d1 ++ (p1 ++ (f, e) :: p2, gap) :: d2) ++ junk
    ∧ Forall (λ c, Parser.is_blank c = true) lead
    ∧ doc_wf [] (d1 ++ (p1 ++ (f, e) :: p2, gap) :: d2)
    ∧ hd NUL junk = NUL
    ∧ doc_entries (d1 ++ (p1 ++ (f, e) :: p2, gap) :: d2) = doc
    ∧ par_entries (p1 ++ (f, e) :: p2) = fields
    ∧ field_wf f
    ∧ fs_name f = k
    ∧ Forall (λ ec, ec.1 = Lf ∨ ec.1 = CrLf ∨ ec.1 = Cr) (fs_more f)
    ∧ v = fs_first f ++ concat (map (λ ec, LF :: ec.2) (fs_more f)).
Proof.
  intros Hrun Hin Hkv.
  destruct (cut_at_NUL s) as (t & junk & -> & Ht & Hjunk & Erun).
  rewrite Erun in Hrun. pose proof (run_parser_src t Ht) as Hsrc.
  rewrite Hrun in Hsrc. destruct Hsrc as (lead & d & -> & Hlead & Hd & <-).
  unfold doc_entries in Hin.
  apply list_elem_of_fmap in Hin as ([p gap] & -> & Hin). cbn [fst] in Hkv.
  apply list_elem_of_split in Hin as (d1 & d2 & ->).
  unfold par_entries in Hkv.
  apply list_elem_of_fmap in Hkv as ([f e] & Hentry & Hin). cbn [fst] in Hentry.
  apply list_elem_of_split in Hin as (p1 & p2 & ->).
  unfold field_entry in Hentry. injection Hentry as -> ->.
  pose proof (doc_wf_par _ _ _ _ _ Hd) as (_ & [Hwf _] & _).
  rewrite Forall_app, Forall_cons in Hwf. destruct Hwf as (_ & Hf & _).
  cbn [fst] in Hf.
  exists lead, d1, p1, f, e, p2, gap, d2, junk.
  split_and!; try done.
  - by rewrite <- app_assoc.
  - destruct Hf as (_ & _ & _ & _ & Hmore).
    eapply Forall_impl; [exact Hmore|]. intros [e' c] [He' _]. cbn [fst] in *.
    destruct e'; auto. done.
  - unfold join_lines. by rewrite map_map.
Qed.

(** * Part III: the claims *)

(** C1: in a well-formed document every field is parsed to its name and
    to its first line, without the blanks between the colon and that line,
    followed by the lines that continue it, each as it stands in the input
    with its own leading blanks, and each behind one ['\n'] whatever
    terminator the line before it has. *)
Theorem continuation_lines_joined (lead : list ascii) (d : doc_src) :
  Forall (λ c, Parser.is_blank c = true) lead → doc_wf [] d →
  parse_paragraphs (lead ++ doc_text d) = Ok (value (doc_entries d)).
Proof.
  intros Hlead Hwf. apply parse_paragraphs_ok. by apply run_parser_doc.
Qed.

Lemma continuation_lines_joined_witness :
  parse_paragraphs (str "Name: foo" ++ [LF] ++ str " bar" ++ [LF])
  = Ok (value [[(str "Name", str "foo" ++ [LF] ++ str " bar")]]).
Proof.
  apply (continuation_lines_joined []
           [([(mk_field (str "Name") [SP] (str "foo") [(Lf, str " bar")], Lf)], [])]);
    solve_wf.
Defined.

(** C2: with a bound above the length of the input the parser comes to
    an end, and with the same end whatever the bound: the document, or the
    one check that failed.  The value loop stops at a last line of blanks
    that no terminator follows, and [skip_spaces] stops at the end of the
    input. *)
Theorem parsing_terminates (s : list ascii) (fuel : nat)
    (line : list ascii) (e : eol) (ws : list ascii) :
  length s < fuel →
  ((∃ doc, parse_paragraphs s = Ok (value doc)
           ∧ Parser.get_paragraphs fuel (Parser.mk s) = Ok doc)
   ∨ (∃ failed, parse_paragraphs s = Exit failed
                ∧ Parser.get_paragraphs fuel (Parser.mk s) = Exit failed))
  ∧ (s = line ++ eol_text e ++ ws → e ≠ Eof → is_line line →
     Forall (λ c, Parser.is_space c = true) ws →
     Parser.get_fieldvalue fuel (at_ s) = Ok (at_ [], line)
     ∧ Parser.skip_spaces fuel (at_ ws) = Ok (at_ [])).
Proof.
  intros Hfuel. split.
  - rewrite get_paragraphs_fuel by done. unfold parse_paragraphs.
    pose proof (run_parser_total s) as Htotal.
    destruct (run_parser s) as [doc|failed|]; [left|right|done].
    + by exists doc.
    + by exists failed.
  - intros -> He Hline Hws. split; [by apply get_fieldvalue_blank_tail|].
    rewrite skip_spaces_at by (rewrite !length_app in Hfuel; lia).
    f_equal. f_equal. clear -Hws.
    induction Hws as [|c ws Hc _ IH]; cbn; [done|]. by rewrite Hc.
Qed.

Lemma parsing_terminates_witness :
  let s := str "A: 1" ++ [LF; SP; HT] in
  ((∃ doc, parse_paragraphs s = Ok (value doc)
           ∧ Parser.get_paragraphs 8 (Parser.mk s) = Ok doc)
   ∨ (∃ failed, parse_paragraphs s = Exit failed
                ∧ Parser.get_paragraphs 8 (Parser.mk s) = Exit failed))
  ∧ (s = str "A: 1" ++ eol_text Lf ++ [SP; HT] → Lf ≠ Eof → is_line (str "A: 1") →
     Forall (λ c, Parser.is_space c = true) [SP; HT] →
     Parser.get_fieldvalue 8 (at_ s) = Ok (at_ [], str "A: 1")
     ∧ Parser.skip_spaces 8 (at_ [SP; HT]) = Ok (at_ [])).
Proof.
  apply (parsing_terminates (str "A: 1" ++ [LF; SP; HT]) 8 (str "A: 1") Lf [SP; HT]).
  vm_compute. lia.
Defined.

(** C3, as the claim has it: every name is non-empty.  A paragraph that
    begins with the colon has a field with the empty name. *)
Lemma empty_field_name :
  parse_paragraphs (str ": foo") = Ok (value [[([], str "foo")]])
  ∧ ¬ (∀ s doc fields k v,
         parse_paragraphs s = Ok (value doc) → fields ∈ doc → (k, v) ∈ fields →
         k ≠ [] ∧ Forall (λ c, is_namechar c = true) k
         ∧ ∃ before after, s = before ++ k ++ ":"%char :: after).
Proof.
  assert (parse_paragraphs (str ": foo") = Ok (value [[([], str "foo")]])) as E
    by (vm_compute; reflexivity).
  split; [exact E|]. intros H.
  destruct (H _ _ [([], str "foo")] [] (str "foo") E) as [Hne _].
  - apply list_elem_of_singleton. reflexivity.
  - apply list_elem_of_singleton. reflexivity.
  - by apply Hne.
Qed.

(** C3, amended: every field name of a parsed document is made of the
    characters [[A-Za-z0-9-]] only and stands in the input with the colon
    right behind it; every name but the first of its paragraph begins with
    a letter or a digit, so only the first name of a paragraph can be
    empty. *)
Theorem field_names_wellformed (s : list ascii) (doc : list fields_t)
    (fields : fields_t) (k v : list ascii) :
  parse_paragraphs s = Ok (value doc) → fields ∈ doc → (k, v) ∈ fields →
  Forall (λ c, is_namechar c = true) k
  ∧ (∃ before after, s = before ++ k ++ ":"%char :: after)
  ∧ ((k, v) ∈ tail fields → k ≠ [] ∧ Parser.is_alphanum (hd NUL k) = true).
Proof.
  intros Hparse%parse_paragraphs_ok%run_parser_ok Hin Hkv.
  unfold doc_ok in Hparse. rewrite Forall_forall in Hparse.
  destruct (Hparse _ Hin) as [(Hall & _ & Htail) _].
  rewrite Forall_forall in Hall. destruct (Hall _ Hkv) as [[Hchars Hinput] _].
  split_and!; [done|done|].
  intros Hkv'. rewrite Forall_forall in Htail.
  specialize (Htail _ Hkv'). cbn in Htail. split; [|done].
  by intros ->.
Qed.

Lemma field_names_wellformed_witness :
  Forall (λ c, is_namechar c = true) (str "B-2")
  ∧ (∃ before after,
       str "A: 1" ++ [LF] ++ str "B-2:x" = before ++ str "B-2" ++ ":"%char :: after)
  ∧ ((str "B-2", str "x") ∈ tail [(str "A", str "1"); (str "B-2", str "x")] →
     str "B-2" ≠ [] ∧ Parser.is_alphanum (hd NUL (str "B-2")) = true).
Proof.
  apply (field_names_wellformed (str "A: 1" ++ [LF] ++ str "B-2:x")
           [[(str "A", str "1"); (str "B-2", str "x")]]).
  - vm_compute. reflexivity.
  - apply list_elem_of_here.
  - apply list_elem_of_further, list_elem_of_here.
Defined.

(** C4: a field whose name an earlier field of the same paragraph bears
    ends the parse with the failed check "Duplicate field", whatever
    follows the name and its colon; and the names of a paragraph the parser
    returns are pairwise different. *)
Theorem duplicate_field_rejected (lead : list ascii) (d : doc_src) (p : par_src)
    (name rest s : list ascii) (doc : list fields_t) (fields : fields_t) :
  (Forall (λ c, Parser.is_blank c = true) lead →
   doc_wf (par_text p ++ name ++ ":"%char :: rest) d →
   fields_wf p → par_eols_ok (name ++ ":"%char :: rest) p →
   NoDup (par_names p) → name ∈ par_names p →
   Parser.is_alphanum (hd NUL name) = true →
   parse_paragraphs (lead ++ doc_text d ++ par_text p ++ name ++ ":"%char :: rest)
   = Exit Duplicate_field)
  ∧ (parse_paragraphs s = Ok (value doc) → fields ∈ doc → NoDup fields.*1).
Proof.
  split.
  - intros Hlead Hd Hwf Heols Hnodup Hin Hal.
    pose proof (par_name_wf p name (proj1 Hwf) Hin) as Hname.
    unfold parse_paragraphs. rewrite run_parser_read_doc.
    set (next := name ++ ":"%char :: rest) in *.
    set (k := S (length (lead ++ doc_text d ++ par_text p ++ next))).
    assert (length (par_text p ++ next) < k) as Hk.
    { unfold k. rewrite !length_app. lia. }
    assert (Parser.is_alphanum (hd NUL next) = true) as Hnext
      by (by apply is_alphanum_hd_app).
    rewrite read_doc_prefix by (done || lia).
    rewrite doc_loop_unfold by done.
    destruct (fields_text_start p next Hwf) as [? ?].
    { destruct p; [|done]. by apply elem_of_nil in Hin. }
    rewrite doc_turn_fields, read_fields_prefix by done.
    rewrite fields_loop_unfold by (cbn; rewrite length_app in Hk; lia).
    unfold fields_turn, next. rewrite read_name_colon by done.
    cbn [mbind result_bind].
    destruct (find (par_entries p) name) eqn:E; [done|].
    apply find_None in E. by rewrite par_names_entries in E.
  - intros Hparse%parse_paragraphs_ok%run_parser_ok Hin.
    unfold doc_ok in Hparse. rewrite Forall_forall in Hparse.
    by destruct (Hparse _ Hin) as [(_ & ? & _) _].
Qed.

Lemma duplicate_field_rejected_witness :
  parse_paragraphs (str "A: 1" ++ [LF] ++ str "A: 2" ++ [LF]) = Exit Duplicate_field
  ∧ NoDup [str "A"; str "B"].
Proof.
  pose proof (duplicate_field_rejected [] []
                [(mk_field (str "A") [SP] (str "1") [], Lf)]
                (str "A") (str " 2" ++ [LF])
                (str "A: 1" ++ [LF] ++ str "B: 2" ++ [LF])
                [[(str "A", str "1"); (str "B", str "2")]]
                [(str "A", str "1"); (str "B", str "2")]) as [H1 H2].
  split.
  - apply H1; solve_wf.
  - apply H2; [vm_compute; reflexivity|apply list_elem_of_here].
Defined.

(** C5: where the parser looks for a field name and the run of letters,
    digits and ['-'] ends with another character than the colon, or with
    the input, the parse ends with the failed check "Expected ':'". *)
Theorem malformed_field_name_rejected (lead : list ascii) (d : doc_src) (p : par_src)
    (run rest : list ascii) :
  Forall (λ c, Parser.is_blank c = true) lead →
  doc_wf (par_text p ++ run ++ rest) d →
  fields_wf p → par_eols_ok (run ++ rest) p →
  NoDup (par_names p) →
  field_start p (run ++ rest) →
  Forall (λ c, is_namechar c = true) run →
  is_namechar (hd NUL rest) = false → hd NUL rest ≠ ":"%char →
  parse_paragraphs (lead ++ doc_text d ++ par_text p ++ run ++ rest)
  = Exit Expected_colon.
Proof.
  intros Hlead Hd Hwf Heols Hnodup Hstart Hrun Hrest Hcolon.
  unfold parse_paragraphs. rewrite run_parser_read_doc.
  set (next := run ++ rest) in *.
  set (k := S (length (lead ++ doc_text d ++ par_text p ++ next))).
  assert (length (par_text p ++ next) < k) as Hk.
  { unfold k. rewrite !length_app. lia. }
  rewrite read_doc_prefix by (done || lia).
  rewrite doc_loop_unfold by done.
  destruct p as [|fe p].
  - destruct Hstart as [Hblank Hnul]. cbn [par_text map concat app] in *.
    rewrite doc_turn_fields by done.
    unfold read_fields. rewrite fields_loop_unfold by done.
    unfold fields_turn, next. by rewrite read_name_no_colon.
  - cbn in Hstart.
    destruct (fields_text_start (fe :: p) next Hwf) as [? ?]; [done|].
    rewrite doc_turn_fields, read_fields_prefix by done.
    rewrite fields_loop_unfold by (cbn; rewrite length_app in Hk; lia).
    unfold fields_turn, next. by rewrite read_name_no_colon.
Qed.

Lemma malformed_field_name_rejected_witness :
  parse_paragraphs (str "A 1" ++ [LF]) = Exit Expected_colon.
Proof.
  apply (malformed_field_name_rejected [] [] [] (str "A") (str " 1" ++ [LF]));
    solve_wf.
Defined.

(** C6: an input without ['\r'] and the same input with ["\r\n"] for
    ['\n'], be it for every ['\n'] or for some of them only, have the same
    parse: the same document with the same names and values, or the same
    failed check. *)
Theorem crlf_same_document (s : list ascii) (which : nat → bool) :
  CR ∉ s →
  parse_paragraphs (crlf s) = parse_paragraphs s
  ∧ parse_paragraphs (with_cr which s) = parse_paragraphs s.
Proof.
  intros Hs. unfold parse_paragraphs, crlf. by rewrite !run_parser_with_cr.
Qed.

Lemma crlf_same_document_witness :
  let lf := str "A: 1" ++ [LF] ++ str " b" ++ [LF; LF] ++ str "B: 2" ++ [LF] in
  parse_paragraphs (str "A: 1" ++ [CR; LF] ++ str " b" ++ [CR; LF; CR; LF]
                    ++ str "B: 2" ++ [CR; LF])
  = parse_paragraphs lf
  ∧ parse_paragraphs (str "A: 1" ++ [LF] ++ str " b" ++ [CR; LF; LF]
                      ++ str "B: 2" ++ [CR; LF])
    = parse_paragraphs lf.
Proof.
  apply (crlf_same_document
           (str "A: 1" ++ [LF] ++ str " b" ++ [LF; LF] ++ str "B: 2" ++ [LF])
           (λ n, Nat.even n)).
  vm_compute. intros H.
  repeat (apply elem_of_cons in H as [H|H]; [discriminate H|]).
  by apply elem_of_nil in H.
Defined.

(** C7: a stored value has no ['\r'] (and no NUL) in it and does not end
    with a line terminator; it is the field's first line and the lines that
    continue it, none of which has a terminator in it, joined by one ['\n']
    each, and no line that continues it is empty, so no two ['\n'] follow
    each other.  These lines are the physical lines of the field in the
    input: up to its end or its first NUL the input is a well-formed
    document [d] whose entries are the document returned, the value belongs
    to a field [f] of a paragraph of [d], and it is the first line of [f]
    followed, for every line of [fs_more f], by one ['\n'] in the place of
    the terminator in front of that line, ["\n"], ["\r\n"] or ['\r'], and
    by the line; the terminator [e] at the end of the field's last line is
    not stored. *)
Theorem values_normalised (s : list ascii) (doc : list fields_t)
    (fields : fields_t) (k v : list ascii) :
  parse_paragraphs s = Ok (value doc) → fields ∈ doc → (k, v) ∈ fields →
  (CR ∉ v) ∧ (NUL ∉ v)
  ∧ (∀ w c, v = w ++ [c] → Parser.is_lineend c = false)
  ∧ (∃ first more, v = join_lines first more
      ∧ Forall (λ c, Parser.is_lineend c = false) first
      ∧ Forall (λ l, Forall (λ c, Parser.is_lineend c = false) l ∧ l ≠ []) more)
  ∧ ∃ lead d1 p1 f e p2 gap d2 junk,
      s = lead ++ doc_text (d1 ++ (p1 ++ (f, e) :: p2, gap) :: d2) ++ junk
      ∧ Forall (λ c, Parser.is_blank c = true) lead
      ∧ doc_wf [] (d1 ++ (p1 ++ (f, e) :: p2, gap) :: d2)
      ∧ hd NUL junk = NUL
      ∧ doc_entries (d1 ++ (p1 ++ (f, e) :: p2, gap) :: d2) = doc
      ∧ par_entries (p1 ++ (f, e) :: p2) = fields
      ∧ field_wf f
      ∧ fs_name f = k
      ∧ Forall (λ ec, ec.1 = Lf ∨ ec.1 = CrLf ∨ ec.1 = Cr) (fs_more f)
      ∧ v = fs_first f ++ concat (map (λ ec, LF :: ec.2) (fs_more f)).
Proof.
  intros Hparse Hin Hkv.
  pose proof Hparse as Hok%parse_paragraphs_ok%run_parser_ok.
  unfold doc_ok in Hok. rewrite Forall_forall in Hok.
  destruct (Hok _ Hin) as [(Hall & Hnodup & _) _]. rewrite Forall_forall in Hall.
  destruct (Hall _ Hkv) as [_ Hv]. cbn in Hv.
  assert (∀ c, in_line c = true → Parser.is_lineend c = false) as Hneg.
  { intros c. unfold in_line. by destruct (Parser.is_lineend c). }
  split_and!.
  - intros Hc. by destruct (value_ok_in_line _ _ Hv Hc).
  - intros Hc. by destruct (value_ok_in_line _ _ Hv Hc).
  - intros w c E. apply Hneg. by eapply value_ok_last.
  - destruct Hv as (first & more & -> & Hfirst & _ & Hmore).
    exists first, more. split_and!; [done| |].
    + eapply Forall_impl; [exact Hfirst|]. apply Hneg.
    + eapply Forall_impl; [exact Hmore|]. intros l Hl. split.
      * destruct Hl as (Hline & _). eapply Forall_impl; [exact Hline|]. apply Hneg.
      * by apply is_continuation_nonempty.
  - apply parse_paragraphs_ok in Hparse.
    destruct (field_in_text s doc fields k v Hparse Hin Hkv)
      as (lead & d1 & p1 & f & e & p2 & gap & d2 & junk & H).
    by exists lead, d1, p1, f, e, p2, gap, d2, junk.
Qed.

Lemma values_normalised_witness :
  let s := str "A: 1" ++ [CR; LF] ++ str " 2" ++ [CR] ++ str "-3" ++ [LF] in
  let v := str "1" ++ [LF] ++ str " 2" ++ [LF] ++ str "-3" in
  let doc := [[(str "A", v)]] in
  (CR ∉ v) ∧ (NUL ∉ v)
  ∧ (∀ w c, v = w ++ [c] → Parser.is_lineend c = false)
  ∧ (∃ first more, v = join_lines first more
      ∧ Forall (λ c, Parser.is_lineend c = false) first
      ∧ Forall (λ l, Forall (λ c, Parser.is_lineend c = false) l ∧ l ≠ []) more)
  ∧ ∃ lead d1 p1 f e p2 gap d2 junk,
      s = lead ++ doc_text (d1 ++ (p1 ++ (f, e) :: p2, gap) :: d2) ++ junk
      ∧ Forall (λ c, Parser.is_blank c = true) lead
      ∧ doc_wf [] (d1 ++ (p1 ++ (f, e) :: p2, gap) :: d2)
      ∧ hd NUL junk = NUL
      ∧ doc_entries (d1 ++ (p1 ++ (f, e) :: p2, gap) :: d2) = doc
      ∧ par_entries (p1 ++ (f, e) :: p2) = [(str "A", v)]
      ∧ field_wf f
      ∧ fs_name f = str "A"
      ∧ Forall (λ ec, ec.1 = Lf ∨ ec.1 = CrLf ∨ ec.1 = Cr) (fs_more f)
      ∧ v = fs_first f ++ concat (map (λ ec, LF :: ec.2) (fs_more f)).
Proof.
  apply (values_normalised
           (str "A: 1" ++ [CR; LF] ++ str " 2" ++ [CR] ++ str "-3" ++ [LF])
           [[(str "A", str "1" ++ [LF] ++ str " 2" ++ [LF] ++ str "-3")]]
           [(str "A", str "1" ++ [LF] ++ str " 2" ++ [LF] ++ str "-3")]
           (str "A")).
  - vm_compute. reflexivity.
  - apply list_elem_of_here.
  - apply list_elem_of_here.
Defined.

(** C8: [parse_single_paragraph] answers with the paragraph exactly when
    the parser returns a document of that one paragraph, and with
    [EXPECTED_ONE_PARAGRAPH] exactly when the parser returns a document of
    none or of several; [get_single_paragraph] does the same on the text it
    was read, and hands on the reader's error otherwise. *)
Theorem single_paragraph (s : list ascii) :
  (∀ p, parse_single_paragraph s = Ok (value p) ↔ parse_paragraphs s = Ok (value [p]))
  ∧ (parse_single_paragraph s = Ok (error (parse_error EXPECTED_ONE_PARAGRAPH))
     ↔ ∃ doc, parse_paragraphs s = Ok (value doc) ∧ length doc ≠ 1)
  ∧ get_single_paragraph (value s) = parse_single_paragraph s
  ∧ ∀ ec, get_single_paragraph (error ec) = Ok (error ec).
Proof.
  unfold get_single_paragraph, parse_single_paragraph, parse_paragraphs.
  destruct (run_parser s) as [doc|e|]; cbn.
  - split_and!; [| |done|done].
    + intros p. destruct doc as [|p0 [|p1 doc]]; cbn; [done| |done].
      split; by intros [= ->].
    + destruct doc as [|p0 [|p1 doc]]; cbn.
      * split; [|done]. intros _. by exists [].
      * split; [done|]. by intros (doc & [= <-] & H).
      * split; [|done]. intros _. by exists (p0 :: p1 :: doc).
  - split_and!; [done| |done|done].
    split; [done|]. by intros (doc & ? & _).
  - split_and!; [done| |done|done].
    split; [done|]. by intros (doc & ? & _).
Qed.

(** ** Port names and versions *)

Section ports.
Context {version_t : Type}.
Implicit Types (ports : list (SourceParagraph.t version_t)).
Implicit Types (m : gmap (list ascii) version_t).

(** C9: the map has, under every name, the version of the first port of
    the sequence that bears it; a port whose name an earlier port bears
    changes nothing. *)
Theorem first_port_wins ports :
  (∀ n, extract_port_names_and_versions ports !! n = first_version n ports)
  ∧ (∀ ports1 port ports2, ports = ports1 ++ port :: ports2 →
       SourceParagraph.name port ∈ SourceParagraph.name <$> ports1 →
       extract_port_names_and_versions ports
       = extract_port_names_and_versions (ports1 ++ ports2)).
Proof.
  assert (∀ ports n, extract_port_names_and_versions ports !! n
                     = first_version n ports) as Hfirst.
  { intros ps n. unfold extract_port_names_and_versions.
    by rewrite extract_from, lookup_empty. }
  split; [apply Hfirst|].
  intros ports1 port ports2 -> Hin. apply map_eq. intros n.
  rewrite !Hfirst. clear Hfirst.
  induction ports1 as [|p ports1 IH]; [by apply elem_of_nil in Hin|].
  cbn in *. destruct (decide (SourceParagraph.name p = n)) as [E|Hne]; [done|].
  apply elem_of_cons in Hin as [Hin|Hin]; [|by apply IH].
  clear IH. induction ports1 as [|q ports1 IH]; cbn.
  - destruct (decide _) as [E|]; [congruence|done].
  - by destruct (decide _).
Qed.
End ports.

Lemma first_port_wins_witness :
  extract_port_names_and_versions
    [SourceParagraph.mk (str "x") 1; SourceParagraph.mk (str "y") 2;
     SourceParagraph.mk (str "x") 3]
  = extract_port_names_and_versions
      [SourceParagraph.mk (str "x") 1; SourceParagraph.mk (str "y") 2].
Proof.
  apply (proj2 (first_port_wins _)
           [SourceParagraph.mk (str "x") 1; SourceParagraph.mk (str "y") 2]
           (SourceParagraph.mk (str "x") 3) []).
  - reflexivity.
  - cbn. apply list_elem_of_here.
Defined.

(** C10: the parser reads an input that has a NUL in it as it reads the
    part in front of the first NUL; what stands behind it changes
    nothing. *)
Theorem nul_ends_input (l junk : list ascii) :
  NUL ∉ l →
  parse_paragraphs (l ++ NUL :: junk) = parse_paragraphs l.
Proof.
  intros Hl. unfold parse_paragraphs. f_equal.
  rewrite !run_parser_read_doc.
  rewrite read_doc_cut; [|done|rewrite length_app; lia].
  rewrite (read_doc_fuel _ (S (length l))); [|rewrite length_app; lia|lia].
  by destruct (read_doc _ l) as [[l' doc]|e|].
Qed.

Lemma nul_ends_input_witness :
  parse_paragraphs (str "A: 1" ++ [LF] ++ NUL :: str "B: 2" ++ [LF])
  = parse_paragraphs (str "A: 1" ++ [LF]).
Proof.
  apply (nul_ends_input (str "A: 1" ++ [LF]) (str "B: 2" ++ [LF])).
  vm_compute. intros H.
  repeat (apply elem_of_cons in H as [H|H]; [discriminate H|]).
  by apply elem_of_nil in H.
Defined.

(** * Part IV: further properties of the parser and of the loaders *)

(** ** The paragraphs of a document *)

(** X1: [get_paragraph] reads a field before it tests for the end of the
    paragraph, so no paragraph of a parsed document is empty: every one has
    a first field. *)
Theorem paragraph_has_a_field (s : list ascii) (doc : list fields_t)
    (fields : fields_t) :
  parse_paragraphs s = Ok (value doc) → fields ∈ doc →
  ∃ entry rest, fields = entry :: rest.
Proof.
  intros Hparse%parse_paragraphs_ok%run_parser_ok Hin.
  unfold doc_ok in Hparse. rewrite Forall_forall in Hparse.
  destruct (Hparse _ Hin) as [_ Hne]. destruct fields as [|entry rest]; [done|].
  by exists entry, rest.
Qed.

Lemma paragraph_has_a_field_witness :
  ∃ entry rest, [(str "A", @nil ascii)] = entry :: rest.
Proof.
  apply (paragraph_has_a_field (str "A:") [[(str "A", [])]]).
  - vm_compute. reflexivity.
  - apply list_elem_of_here.
Defined.

(** X2: [get_fieldname] skips the blanks behind the colon, so no value
    of a parsed document begins with a space or a tab. *)
Theorem value_begins_behind_blanks (s : list ascii) (doc : list fields_t)
    (fields : fields_t) (k v : list ascii) :
  parse_paragraphs s = Ok (value doc) → fields ∈ doc → (k, v) ∈ fields →
  Parser.is_space (hd NUL v) = false.
Proof.
  intros Hparse%parse_paragraphs_ok%run_parser_ok Hin Hkv.
  unfold doc_ok in Hparse. rewrite Forall_forall in Hparse.
  destruct (Hparse _ Hin) as [(Hall & _) _]. rewrite Forall_forall in Hall.
  destruct (Hall _ Hkv) as [_ Hv]. cbn in Hv.
  destruct Hv as (first & more & -> & _ & Hfirst & _).
  unfold join_lines. destruct first as [|c first]; [|done].
  by destruct more.
Qed.

Lemma value_begins_behind_blanks_witness :
  Parser.is_space (hd NUL (str "1 ")) = false.
Proof.
  apply (value_begins_behind_blanks (str "A: " ++ [HT] ++ str " 1 ")
           [[(str "A", str "1 ")]] [(str "A", str "1 ")] (str "A")).
  - vm_compute. reflexivity.
  - apply list_elem_of_here.
  - apply list_elem_of_here.
Defined.

(** X3: the parser returns the document without paragraphs exactly for
    the inputs that are blank up to their end or up to a NUL: spaces, tabs
    and line terminators only. *)
Theorem no_paragraph_iff_blank (s : list ascii) :
  parse_paragraphs s = Ok (value [])
  ↔ ∃ lead rest, s = lead ++ rest
      ∧ Forall (λ c, Parser.is_blank c = true) lead ∧ hd NUL rest = NUL.
Proof.
  rewrite parse_paragraphs_ok. split.
  - intros Hrun. exists (leading Parser.is_blank s), (behind Parser.is_blank s).
    split_and!; [by rewrite leading_behind|apply leading_Forall|].
    rewrite <- (leading_behind Parser.is_blank s) in Hrun.
    rewrite run_parser_lead in Hrun by apply leading_Forall.
    pose proof (behind_hd Parser.is_blank s eq_refl) as Hblank.
    destruct (decide (hd NUL (behind Parser.is_blank s) = NUL)) as [|Hnul]; [done|].
    rewrite run_parser_first in Hrun by done.
    destruct (read_fields _ _) as [[l fields]|e|]; cbn [mbind result_bind] in Hrun;
      [|done..].
    by destruct (read_doc _ l) as [[l' doc]|e|].
  - intros (lead & rest & -> & Hlead & Hrest).
    rewrite run_parser_lead by done. by apply run_parser_at_end.
Qed.

(** X4: blank text in front of the first paragraph, line terminators,
    spaces and tabs, changes nothing in what the parser returns. *)
Theorem leading_blanks_skipped (lead s : list ascii) :
  Forall (λ c, Parser.is_blank c = true) lead →
  parse_paragraphs (lead ++ s) = parse_paragraphs s.
Proof. intros Hlead. unfold parse_paragraphs. by rewrite run_parser_lead. Qed.

Lemma leading_blanks_skipped_witness :
  parse_paragraphs ([LF; SP; CR; LF; HT] ++ str "A 1")
  = parse_paragraphs (str "A 1").
Proof.
  apply (leading_blanks_skipped [LF; SP; CR; LF; HT] (str "A 1")).
  repeat constructor.
Defined.

(** X5: two texts with a blank line between them, the first one without
    NUL, are parsed to the paragraphs of the first followed by those of the
    second; a check that fails in the first, or else in the second, fails
    in the whole.  The blank line is two line terminators of any kind. *)
Theorem blank_line_joins_documents (a b : list ascii) (e1 e2 : eol) :
  NUL ∉ a → e1 ≠ Eof → e2 ≠ Eof → eol_before e1 (eol_text e2 ++ b) →
  parse_paragraphs (a ++ eol_text e1 ++ eol_text e2 ++ b)
  = da ← run_parser a; db ← run_parser b; Ok (value (da ++ db)).
Proof.
  intros Ha He1 He2 Hbefore. unfold parse_paragraphs.
  rewrite run_parser_sep; [|done|done|by apply blank_line_first_eol|done].
  rewrite (run_parser_lead (eol_text e2)) by apply sep_blank.
  destruct (run_parser a) as [da|e|]; cbn [mbind result_bind]; [|done..].
  by destruct (run_parser b) as [db|e|].
Qed.

Lemma blank_line_joins_documents_witness :
  parse_paragraphs (str "A: 1" ++ eol_text Lf ++ eol_text CrLf ++ str "A: 2")
  = da ← run_parser (str "A: 1"); db ← run_parser (str "A: 2"); Ok (value (da ++ db)).
Proof.
  apply (blank_line_joins_documents (str "A: 1") (str "A: 2") Lf CrLf);
    [|done..].
  vm_compute. intros H.
  repeat (apply elem_of_cons in H as [H|H]; [discriminate H|]).
  by apply elem_of_nil in H.
Defined.

(** X6: blank text behind a text without NUL changes nothing in what the
    parser returns when it begins with a line terminator: blank lines at
    the end of the input are ignored (blanks that stand in the last line
    are not: they belong to its value). *)
Theorem trailing_blank_lines_ignored (s trail : list ascii) :
  NUL ∉ s → Forall (λ c, Parser.is_blank c = true) trail →
  Parser.is_lineend (hd NUL trail) = true →
  parse_paragraphs (s ++ trail) = parse_paragraphs s.
Proof.
  intros Hs Htrail Hhd. unfold parse_paragraphs. f_equal.
  destruct trail as [|c trail]; [by rewrite app_nil_r|].
  apply Forall_cons in Htrail as [Hc Htrail]. cbn in Hhd.
  assert (∃ e tail, c :: trail = eol_text e ++ tail ∧ e ≠ Eof ∧ eol_before e tail
                    ∧ Forall (λ c, Parser.is_blank c = true) tail)
    as (e & tail & -> & He & Hbefore & Htail).
  { destruct (is_blank_cases c Hc) as [Hsp|[-> | ->]].
    - by rewrite (is_lineend_not_space c Hhd) in Hsp.
    - destruct trail as [|c' trail].
      + by exists Cr, [].
      + destruct (decide (c' = LF)) as [->|Hne].
        * exists CrLf, trail. apply Forall_cons in Htrail as [_ ?]. done.
        * by exists Cr, (c' :: trail).
    - by exists Lf, trail. }
  rewrite run_parser_sep; [|done|done|by apply blank_line_first_blank|done].
  rewrite (run_parser_blank tail) by done.
  destruct (run_parser s) as [ds|e0|]; cbn [mbind result_bind]; [|done..].
  by rewrite app_nil_r.
Qed.

Lemma trailing_blank_lines_ignored_witness :
  parse_paragraphs (str "A: 1 " ++ [CR; LF; SP; LF; HT])
  = parse_paragraphs (str "A: 1 ").
Proof.
  apply (trailing_blank_lines_ignored (str "A: 1 ") [CR; LF; SP; LF; HT]).
  - vm_compute. intros H.
    repeat (apply elem_of_cons in H as [H|H]; [discriminate H|]).
    by apply elem_of_nil in H.
  - repeat constructor.
  - reflexivity.
Defined.

(** ** The texts the parser accepts, and the texts it rejects *)

(** X7: a text without NUL is parsed to a document exactly when it is
    a well-formed document, blank text in front of paragraphs of fields
    with the blank text between them, and the document the parser returns
    is made of the entries of its fields. *)
Theorem parsed_text_is_wellformed (s : list ascii) (doc : list fields_t) :
  NUL ∉ s →
  (parse_paragraphs s = Ok (value doc)
   ↔ ∃ lead d, s = lead ++ doc_text d
       ∧ Forall (λ c, Parser.is_blank c = true) lead
       ∧ doc_wf [] d ∧ doc_entries d = doc).
Proof.
  intros Hs. rewrite parse_paragraphs_ok. split.
  - intros Hrun. pose proof (run_parser_src s Hs) as H. by rewrite Hrun in H.
  - intros (lead & d & -> & Hlead & Hd & <-). by apply run_parser_doc.
Qed.

Lemma parsed_text_is_wellformed_witness :
  parse_paragraphs ([LF] ++ str "A: 1" ++ [CR; LF] ++ str " b" ++ [LF; LF] ++ str "B:")
  = Ok (value [[(str "A", str "1" ++ [LF] ++ str " b")]; [(str "B", [])]])
  ↔ ∃ lead d,
      [LF] ++ str "A: 1" ++ [CR; LF] ++ str " b" ++ [LF; LF] ++ str "B:"
      = lead ++ doc_text d
      ∧ Forall (λ c, Parser.is_blank c = true) lead
      ∧ doc_wf [] d
      ∧ doc_entries d = [[(str "A", str "1" ++ [LF] ++ str " b")]; [(str "B", [])]].
Proof.
  apply (parsed_text_is_wellformed
           ([LF] ++ str "A: 1" ++ [CR; LF] ++ str " b" ++ [LF; LF] ++ str "B:")).
  vm_compute. intros H.
  repeat (apply elem_of_cons in H as [H|H]; [discriminate H|]).
  by apply elem_of_nil in H.
Defined.

(** X8: the check "Duplicate field" fails on a text without NUL only
    where, behind well-formed paragraphs and the well-formed fields of a
    paragraph, a line begins with the name of one of these fields and the
    colon. *)
Theorem duplicate_field_has_a_place (s : list ascii) :
  NUL ∉ s → parse_paragraphs s = Exit Duplicate_field →
  ∃ lead d p name rest,
    s = lead ++ doc_text d ++ par_text p ++ name ++ ":"%char :: rest
    ∧ Forall (λ c, Parser.is_blank c = true) lead
    ∧ doc_wf (par_text p ++ name ++ ":"%char :: rest) d
    ∧ fields_wf p ∧ par_eols_ok (name ++ ":"%char :: rest) p
    ∧ NoDup (par_names p) ∧ name ∈ par_names p
    ∧ Parser.is_alphanum (hd NUL name) = true.
Proof.
  intros Hs Hrun%parse_paragraphs_exit.
  pose proof (run_parser_src s Hs) as H. rewrite Hrun in H.
  destruct H as (lead & d & p & x & -> & Hlead & Hd & Hwf & Hnodup & Heols & _
                 & name & rest & -> & Hin & Hal).
  by exists lead, d, p, name, rest.
Qed.

Lemma duplicate_field_has_a_place_witness :
  ∃ lead d p name rest,
    str "A: 1" ++ [LF] ++ str "B: 2" ++ [LF] ++ str "A: 3"
    = lead ++ doc_text d ++ par_text p ++ name ++ ":"%char :: rest
    ∧ Forall (λ c, Parser.is_blank c = true) lead
    ∧ doc_wf (par_text p ++ name ++ ":"%char :: rest) d
    ∧ fields_wf p ∧ par_eols_ok (name ++ ":"%char :: rest) p
    ∧ NoDup (par_names p) ∧ name ∈ par_names p
    ∧ Parser.is_alphanum (hd NUL name) = true.
Proof.
  apply (duplicate_field_has_a_place
           (str "A: 1" ++ [LF] ++ str "B: 2" ++ [LF] ++ str "A: 3")).
  - vm_compute. intros H.
    repeat (apply elem_of_cons in H as [H|H]; [discriminate H|]).
    by apply elem_of_nil in H.
  - vm_compute. reflexivity.
Defined.

(** X9: the check "Expected ':'" fails on a text without NUL only
    where, behind well-formed paragraphs and the well-formed fields of a
    paragraph, the parser looks for a field name and the run of letters,
    digits and ['-'] ends with another character than the colon, or with
    the text. *)
Theorem expected_colon_has_a_place (s : list ascii) :
  NUL ∉ s → parse_paragraphs s = Exit Expected_colon →
  ∃ lead d p run rest,
    s = lead ++ doc_text d ++ par_text p ++ run ++ rest
    ∧ Forall (λ c, Parser.is_blank c = true) lead
    ∧ doc_wf (par_text p ++ run ++ rest) d
    ∧ fields_wf p ∧ par_eols_ok (run ++ rest) p
    ∧ NoDup (par_names p)
    ∧ field_start p (run ++ rest)
    ∧ Forall (λ c, is_namechar c = true) run
    ∧ is_namechar (hd NUL rest) = false ∧ hd NUL rest ≠ ":"%char.
Proof.
  intros Hs Hrun%parse_paragraphs_exit.
  pose proof (run_parser_src s Hs) as H. rewrite Hrun in H.
  destruct H as (lead & d & p & x & -> & Hlead & Hd & Hwf & Hnodup & Heols & Hstart
                 & run & rest & -> & Hrun' & Hrest & Hcolon).
  by exists lead, d, p, run, rest.
Qed.

Lemma expected_colon_has_a_place_witness :
  ∃ lead d p run rest,
    str "A: 1" ++ [LF; LF] ++ str "B-2 : 3"
    = lead ++ doc_text d ++ par_text p ++ run ++ rest
    ∧ Forall (λ c, Parser.is_blank c = true) lead
    ∧ doc_wf (par_text p ++ run ++ rest) d
    ∧ fields_wf p ∧ par_eols_ok (run ++ rest) p
    ∧ NoDup (par_names p)
    ∧ field_start p (run ++ rest)
    ∧ Forall (λ c, is_namechar c = true) run
    ∧ is_namechar (hd NUL rest) = false ∧ hd NUL rest ≠ ":"%char.
Proof.
  apply (expected_colon_has_a_place (str "A: 1" ++ [LF; LF] ++ str "B-2 : 3")).
  - vm_compute. intros H.
    repeat (apply elem_of_cons in H as [H|H]; [discriminate H|]).
    by apply elem_of_nil in H.
  - vm_compute. reflexivity.
Defined.

(** X10: the document that the parser returns for a text is parsed
    again from its canonical text: every field in lines of its own, as the
    name, the colon, one space and the value, and an empty line behind
    every paragraph. *)
Theorem written_document_parsed_again (s : list ascii) (doc : list fields_t) :
  parse_paragraphs s = Ok (value doc) →
  parse_paragraphs (write_document doc) = Ok (value doc).
Proof.
  intros Hparse%parse_paragraphs_ok%run_parser_ok.
  destruct (write_document_src s doc Hparse) as (d & <- & Hd & <-).
  apply parse_paragraphs_ok. by apply (run_parser_doc []).
Qed.

Lemma written_document_parsed_again_witness :
  parse_paragraphs
    (write_document [[(str "A", str "1  " ++ [LF] ++ str " b"); (str "B", [])];
                     [([], str ":")]])
  = Ok (value [[(str "A", str "1  " ++ [LF] ++ str " b"); (str "B", [])];
               [([], str ":")]]).
Proof.
  apply (written_document_parsed_again
           (str "A:" ++ [HT] ++ str "1  " ++ [CR] ++ str " b" ++ [CR; LF]
            ++ str "B:" ++ [LF; SP; LF] ++ str "::")).
  vm_compute. reflexivity.
Defined.

(** X11: a text without NUL is parsed to one paragraph by
    [parse_single_paragraph] exactly when it is the text of one well-formed
    paragraph with blank text in front of it and behind it, and the
    paragraph returned is made of the entries of its fields. *)
Theorem single_paragraph_text (s : list ascii) (fields : fields_t) :
  NUL ∉ s →
  (parse_single_paragraph s = Ok (value fields)
   ↔ ∃ lead p gap, s = lead ++ par_text p ++ gap
       ∧ Forall (λ c, Parser.is_blank c = true) lead
       ∧ par_wf p ∧ par_eols_ok gap p
       ∧ Forall (λ c, Parser.is_blank c = true) gap
       ∧ par_entries p = fields).
Proof.
  intros Hs. unfold parse_single_paragraph. split.
  - pose proof (run_parser_src s Hs) as H.
    destruct (run_parser s) as [[|p0 [|p1 doc]]|e|]; cbn; try done.
    intros [= ->]. destruct H as (lead & d & -> & Hlead & Hd & Hentries).
    destruct d as [|[p gap] [|pg d]]; try done.
    cbn in Hd, Hentries. injection Hentries as <-.
    rewrite !app_nil_r in *. destruct Hd as (Hp & Heols & Hgap & _).
    exists lead, p, gap. cbn [doc_text]. by rewrite app_nil_r.
  - intros (lead & p & gap & -> & Hlead & Hp & Heols & Hgap & <-).
    replace (lead ++ par_text p ++ gap) with (lead ++ doc_text [(p, gap)])
      by (cbn [doc_text]; by rewrite app_nil_r).
    rewrite (run_parser_doc lead [(p, gap)]); [done|done|].
    cbn [doc_wf doc_text]. rewrite !app_nil_r. by split_and!.
Qed.

Lemma single_paragraph_text_witness :
  parse_single_paragraph ([LF] ++ str "Source: zlib" ++ [LF] ++ str "Version: 1.2"
                          ++ [LF; LF])
  = Ok (value [(str "Source", str "zlib"); (str "Version", str "1.2")])
  ↔ ∃ lead p gap,
      [LF] ++ str "Source: zlib" ++ [LF] ++ str "Version: 1.2" ++ [LF; LF]
      = lead ++ par_text p ++ gap
      ∧ Forall (λ c, Parser.is_blank c = true) lead
      ∧ par_wf p ∧ par_eols_ok gap p
      ∧ Forall (λ c, Parser.is_blank c = true) gap
      ∧ par_entries p = [(str "Source", str "zlib"); (str "Version", str "1.2")].
Proof.
  apply (single_paragraph_text
           ([LF] ++ str "Source: zlib" ++ [LF] ++ str "Version: 1.2" ++ [LF; LF])).
  vm_compute. intros H.
  repeat (apply elem_of_cons in H as [H|H]; [discriminate H|]).
  by apply elem_of_nil in H.
Defined.

(** X12: [get_paragraphs] hands on the error code of the reader of the
    file and returns no other error code; on the text that was read it
    returns the document the parser returns, and the process ends where a
    check of the parser fails.  The parser itself reports no error code. *)
Theorem get_paragraphs_cases (contents : expected (list ascii)) :
  (∀ ec, get_paragraphs contents = Ok (error ec) ↔ contents = error ec)
  ∧ (∀ doc, get_paragraphs contents = Ok (value doc)
            ↔ ∃ s, contents = value s ∧ parse_paragraphs s = Ok (value doc))
  ∧ (∀ e, get_paragraphs contents = Exit e
          ↔ ∃ s, contents = value s ∧ parse_paragraphs s = Exit e)
  ∧ get_paragraphs contents ≠ Timeout
  ∧ ∀ s ec, parse_paragraphs s ≠ Ok (error ec).
Proof.
  assert (∀ s ec, parse_paragraphs s ≠ Ok (error ec)) as Hno.
  { intros s ec. unfold parse_paragraphs. by destruct (run_parser s). }
  destruct contents as [s|ec0]; cbn [get_paragraphs].
  - split_and!; [| | | |done].
    + intros ec. split; [|done]. intros H. by apply Hno in H.
    + intros doc. split; [by exists s|]. by intros (s' & [= <-] & ?).
    + intros e. split; [by exists s|]. by intros (s' & [= <-] & ?).
    + unfold parse_paragraphs. pose proof (run_parser_total s).
      by destruct (run_parser s).
  - split_and!; [| | |done|done].
    + intros ec. split; by intros [= ->].
    + intros doc. split; [done|]. by intros (s & ? & _).
    + intros e. split; [done|]. by intros (s & ? & _).
Qed.

(** ** The map of names and versions *)

Section port_map.
Context {version_t : Type}.
Implicit Types (ports : list (SourceParagraph.t version_t)).

(** X13: the keys of the map that [extract_port_names_and_versions]
    returns are the names of the ports; it has at most as many entries as
    there are ports, and as many exactly when no two ports bear the same
    name. *)
Theorem port_names_are_keys ports :
  dom (extract_port_names_and_versions ports)
  = list_to_set (SourceParagraph.name <$> ports)
  ∧ size (extract_port_names_and_versions ports) ≤ length ports
  ∧ (size (extract_port_names_and_versions ports) = length ports
     ↔ NoDup (SourceParagraph.name <$> ports)).
Proof.
  assert (dom (extract_port_names_and_versions ports)
          = list_to_set (SourceParagraph.name <$> ports)) as Hdom.
  { apply set_eq. intros n.
    rewrite elem_of_dom, extract_lookup, elem_of_list_to_set.
    rewrite <- not_eq_None_Some, first_version_None.
    split; [|by intros ? ?]. intros H.
    by destruct (decide (n ∈ SourceParagraph.name <$> ports)). }
  pose proof (size_names (SourceParagraph.name <$> ports)) as [Hle Hnodup].
  rewrite length_fmap in Hle, Hnodup.
  split; [done|]. rewrite <- size_dom, Hdom. split; [done|].
  split; [done|]. intros H. rewrite size_list_to_set by done. by rewrite length_fmap.
Qed.

(** X14: the map for two sequences of ports one behind the other is the
    map for the first, with the entries of the map for the second under
    the names the first does not have. *)
Theorem versions_of_appended_ports ports1 ports2 :
  extract_port_names_and_versions (ports1 ++ ports2)
  = extract_port_names_and_versions ports1 ∪ extract_port_names_and_versions ports2.
Proof.
  apply map_eq. intros n.
  rewrite lookup_union, !extract_lookup, first_version_app.
  by destruct (first_version n ports1), (first_version n ports2).
Qed.
(** X15: the order of the ports matters to the map only where two ports
    bear the same name: for ports with pairwise different names every
    rearrangement of the sequence gives the same map. *)
Theorem distinct_names_any_order ports ports' :
  NoDup (SourceParagraph.name <$> ports) → ports ≡ₚ ports' →
  extract_port_names_and_versions ports = extract_port_names_and_versions ports'.
Proof.
  intros Hnodup Hperm. apply map_eq. intros n. rewrite !extract_lookup.
  assert (NoDup (SourceParagraph.name <$> ports')) as Hnodup' by (by rewrite <- Hperm).
  apply option_eq. intros v. rewrite !first_version_NoDup by done.
  by setoid_rewrite Hperm.
Qed.
End port_map.

Lemma distinct_names_any_order_witness :
  extract_port_names_and_versions
    [SourceParagraph.mk (str "x") 1; SourceParagraph.mk (str "y") 2]
  = extract_port_names_and_versions
      [SourceParagraph.mk (str "y") 2; SourceParagraph.mk (str "x") 1].
Proof.
  apply (distinct_names_any_order
           [SourceParagraph.mk (str "x") 1; SourceParagraph.mk (str "y") 2]
           [SourceParagraph.mk (str "y") 2; SourceParagraph.mk (str "x") 1]).
  - cbn. apply NoDup_cons_2; [|apply NoDup_singleton].
    intros H%list_elem_of_singleton. discriminate H.
  - apply perm_swap.
Defined.

(** ** The loaders *)

Section loading.
Context {path vcpkg_paths package_spec F version_t BinaryParagraph : Type}.
Context (read_contents : path → expected (list ascii)).
Context (slash : path → list ascii → path).
Context (directory_iterator : path → list path).
Context (package_dir : vcpkg_paths → package_spec → path).
Context (SourceParagraph_of : fields_t → F + SourceParagraph.t version_t).
Context (BinaryParagraph_of : fields_t → F + BinaryParagraph).

Local Abbreviation try_load_port := (try_load_port read_contents slash SourceParagraph_of).
Local Abbreviation try_load_cached_package :=
  (try_load_cached_package read_contents slash package_dir BinaryParagraph_of).
Local Abbreviation load_all_ports :=
  (load_all_ports read_contents slash directory_iterator SourceParagraph_of).
Local Abbreviation returns := (returns read_contents slash SourceParagraph_of).
Local Abbreviation port_of := (port_of read_contents slash SourceParagraph_of).

(** X16: what [try_load_port] does for a directory, by the CONTROL file
    in it.  It returns an error code exactly when the file cannot be read
    (the reader's code) or has not exactly one paragraph
    ([EXPECTED_ONE_PARAGRAPH]); it returns a port exactly when the file has
    one paragraph and the constructor builds the port from it; the process
    ends exactly when a check of the parser fails on the file, or a check
    of the constructor on its one paragraph. *)
Theorem try_load_port_cases (dir : path) :
  let control := read_contents (slash dir (str "CONTROL")) in
  (∀ ec, try_load_port dir = Returned (error ec)
         ↔ control = error ec
           ∨ (ec = parse_error EXPECTED_ONE_PARAGRAPH
              ∧ ∃ s doc, control = value s ∧ parse_paragraphs s = Ok (value doc)
                         ∧ length doc ≠ 1))
  ∧ (∀ sp, try_load_port dir = Returned (value sp)
           ↔ ∃ s p, control = value s ∧ parse_paragraphs s = Ok (value [p])
                    ∧ SourceParagraph_of p = inr sp)
  ∧ (∀ e, try_load_port dir = Exited (parser_check e)
          ↔ ∃ s, control = value s ∧ parse_paragraphs s = Exit e)
  ∧ (∀ f, try_load_port dir = Exited (constructor_check f)
          ↔ ∃ s p, control = value s ∧ parse_paragraphs s = Ok (value [p])
                   ∧ SourceParagraph_of p = inl f)
  ∧ try_load_port dir ≠ Unfinished.
Proof.
  exact (load_cases SourceParagraph_of (read_contents (slash dir (str "CONTROL")))).
Qed.

(** X17: [try_load_cached_package] does the same with the CONTROL file
    in the directory of the package and the constructor of
    [BinaryParagraph]. *)
Theorem try_load_cached_package_cases (paths : vcpkg_paths) (spec : package_spec) :
  let control := read_contents (slash (package_dir paths spec) (str "CONTROL")) in
  (∀ ec, try_load_cached_package paths spec = Returned (error ec)
         ↔ control = error ec
           ∨ (ec = parse_error EXPECTED_ONE_PARAGRAPH
              ∧ ∃ s doc, control = value s ∧ parse_paragraphs s = Ok (value doc)
                         ∧ length doc ≠ 1))
  ∧ (∀ bp, try_load_cached_package paths spec = Returned (value bp)
           ↔ ∃ s p, control = value s ∧ parse_paragraphs s = Ok (value [p])
                    ∧ BinaryParagraph_of p = inr bp)
  ∧ (∀ e, try_load_cached_package paths spec = Exited (parser_check e)
          ↔ ∃ s, control = value s ∧ parse_paragraphs s = Exit e)
  ∧ (∀ f, try_load_cached_package paths spec = Exited (constructor_check f)
          ↔ ∃ s p, control = value s ∧ parse_paragraphs s = Ok (value [p])
                   ∧ BinaryParagraph_of p = inl f)
  ∧ try_load_cached_package paths spec ≠ Unfinished.
Proof.
  exact (load_cases BinaryParagraph_of
           (read_contents (slash (package_dir paths spec) (str "CONTROL")))).
Qed.

(** X18: [load_all_ports] returns exactly when [try_load_port] returns
    for every entry of the directory, and then it returns the ports of the
    entries that have one, in the order of the entries; the entries for
    which [try_load_port] returns an error code leave no trace. *)
Theorem load_all_ports_returns (ports_dir : path)
    (output : list (SourceParagraph.t version_t)) :
  load_all_ports ports_dir = Returned output
  ↔ returns (directory_iterator ports_dir)
    ∧ output = omap port_of (directory_iterator ports_dir).
Proof.
  rewrite load_all_ports_run. split.
  - intros E. pose proof (for_each_returned _ _ _ _ _ _ E) as Hl.
    split; [done|]. rewrite for_each_returns in E by done. by injection E as <-.
  - intros [Hl ->]. by rewrite for_each_returns.
Qed.

(** X19: the process ends in [load_all_ports] exactly when it ends in
    [try_load_port] for an entry of the directory, by a check of the parser
    or of the constructor; it ends at the first such entry, whatever was
    loaded from the entries in front of it.  The loop over the entries comes
    to an end. *)
Theorem load_all_ports_exits (ports_dir : path) (x : exit_cause F) :
  (load_all_ports ports_dir = Exited x
   ↔ ∃ l1 dir l2, directory_iterator ports_dir = l1 ++ dir :: l2
       ∧ returns l1 ∧ try_load_port dir = Exited x)
  ∧ load_all_ports ports_dir ≠ Unfinished.
Proof.
  rewrite load_all_ports_run. split; [apply for_each_exits|apply for_each_finished].
Qed.

(** X20: an entry for which [try_load_port] returns an error code, its
    CONTROL file unreadable or not of one paragraph, is to [load_all_ports]
    as if the directory did not have it. *)
Theorem unloadable_entry_skipped (ports_dir ports_dir' dir : path)
    (l1 l2 : list path) (ec : error_code) :
  directory_iterator ports_dir = l1 ++ dir :: l2 →
  directory_iterator ports_dir' = l1 ++ l2 →
  try_load_port dir = Returned (error ec) →
  load_all_ports ports_dir = load_all_ports ports_dir'.
Proof.
  intros E E' Hdir. rewrite !load_all_ports_run, E, E', !for_each_app.
  destruct (for_each _ [] l1) as [out| |]; cbn [mbind outcome_bind for_each]; [|done..].
  rewrite load_all_ports_body_run, Hdir. cbn [mbind outcome_bind].
  by rewrite app_nil_r.
Qed.

(** X21: in the map of names and versions made from what [load_all_ports]
    returns, a name has the version of the port of the first entry of the
    directory, in the order of the iteration, whose port bears that name. *)
Theorem version_of_first_loaded_port (ports_dir : path)
    (output : list (SourceParagraph.t version_t)) (n : list ascii) (v : version_t) :
  load_all_ports ports_dir = Returned output →
  (extract_port_names_and_versions output !! n = Some v
   ↔ ∃ l1 dir l2 sp, directory_iterator ports_dir = l1 ++ dir :: l2
       ∧ try_load_port dir = Returned (value sp)
       ∧ SourceParagraph.name sp = n ∧ SourceParagraph.version sp = v
       ∧ ∀ dir' sp', dir' ∈ l1 → try_load_port dir' = Returned (value sp') →
                     SourceParagraph.name sp' ≠ n).
Proof.
  intros E. rewrite load_all_ports_run in E.
  pose proof (for_each_returned _ _ _ _ _ _ E) as Hl.
  rewrite for_each_returns in E by done. injection E as <-.
  rewrite extract_lookup, first_version_Some. split.
  - intros (ports1 & sp & ports2 & Hsplit & Hn & Hv & Hnot).
    apply omap_split in Hsplit as (l1 & dir & l2 & Hdir & Hsp & H1 & H2).
    exists l1, dir, l2, sp. split_and!; [done|by apply port_of_Some|done|done|].
    intros dir' sp' Hin Hsp' Hname. apply Hnot. rewrite <- H1, <- Hname.
    apply list_elem_of_fmap_2, list_elem_of_omap. exists dir'.
    split; [done|]. by apply port_of_Some.
  - intros (l1 & dir & l2 & sp & Hdir & Hsp & Hn & Hv & Hnot).
    exists (omap port_of l1), sp, (omap port_of l2).
    split_and!; [|done|done|].
    + rewrite Hdir, omap_app. cbn [omap list_omap].
      apply port_of_Some in Hsp. by rewrite Hsp.
    + intros (sp' & Hname & Hin)%list_elem_of_fmap.
      apply list_elem_of_omap in Hin as (dir' & Hin & Hsp').
      apply port_of_Some in Hsp'. by eapply Hnot.
Qed.

End loading.

Lemma unloadable_entry_skipped_witness :
  let read_contents := λ dir : nat,
    match dir with
    | 1 => value (str "Source: zlib" ++ [LF] ++ str "Version: 1.2" ++ [LF])
    | 2 => error (io_error 2)
    | _ => value (str "Source: curl" ++ [LF] ++ str "Version: 7" ++ [LF])
    end in
  let slash := λ (dir : nat) (_ : list ascii), dir in
  let directory_iterator := λ dir : nat,
    match dir with 0 => [1; 2; 3] | _ => [1; 3] end in
  let SourceParagraph_of := λ fields : fields_t,
    match find fields (str "Source"), find fields (str "Version") with
    | Some n, Some v => inr (SourceParagraph.mk n v)
    | _, _ => inl tt
    end in
  load_all_ports read_contents slash directory_iterator SourceParagraph_of 0
  = load_all_ports read_contents slash directory_iterator SourceParagraph_of 4.
Proof.
  intros read_contents slash directory_iterator SourceParagraph_of.
  apply (unloadable_entry_skipped read_contents slash directory_iterator
           SourceParagraph_of 0 4 2 [1] [3] (io_error 2)); reflexivity.
Defined.

Lemma version_of_first_loaded_port_witness :
  let read_contents := λ dir : nat,
    match dir with
    | 1 => value (str "Source: zlib" ++ [LF] ++ str "Version: 1.2" ++ [LF])
    | 2 => value (str "Source: zlib" ++ [LF] ++ str "Version: 1.3" ++ [LF])
    | _ => error (io_error 2)
    end in
  let slash := λ (dir : nat) (_ : list ascii), dir in
  let directory_iterator := λ _ : nat, [3; 1; 2] in
  let SourceParagraph_of := λ fields : fields_t,
    match find fields (str "Source"), find fields (str "Version") with
    | Some n, Some v => inr (SourceParagraph.mk n v)
    | _, _ => inl tt
    end in
  let try_load_port := try_load_port read_contents slash SourceParagraph_of in
  extract_port_names_and_versions
    [SourceParagraph.mk (str "zlib") (str "1.2");
     SourceParagraph.mk (str "zlib") (str "1.3")] !! str "zlib" = Some (str "1.2")
  ↔ ∃ l1 dir l2 sp, directory_iterator 0 = l1 ++ dir :: l2
      ∧ try_load_port dir = Returned (value sp)
      ∧ SourceParagraph.name sp = str "zlib" ∧ SourceParagraph.version sp = str "1.2"
      ∧ ∀ dir' sp', dir' ∈ l1 → try_load_port dir' = Returned (value sp') →
                    SourceParagraph.name sp' ≠ str "zlib".
Proof.
  intros read_contents slash directory_iterator SourceParagraph_of try_load_port.
  apply (version_of_first_loaded_port read_contents slash directory_iterator
           SourceParagraph_of 0). reflexivity.
Defined.
